(** * Generative SEIR models of [models.py]: a shallow embedding

    The model code of [models.py] is embedded over the real numbers: every
    float the code computes is a real, and only the observation arrays a caller
    supplies may carry non-finite entries.  Arrays have rank at most two and
    follow the broadcasting rules of the array library the code uses; a shape
    error is the result [None].  The sampling host and the compartment model
    are the two external components the code calls into: the first is a state
    and error monad over the trace of the recorded sites, the second a class
    with the two operations the code uses. *)

From Stdlib Require Import String.
From Stdlib Require Import Reals Lra Lia Bool Arith List.
Import ListNotations.

Open Scope string_scope.
Open Scope list_scope.
Open Scope R_scope.

(** ** Floats supplied by a caller *)

(** An entry of an observation array: a finite value, an infinity or a NaN. *)
Inductive fl : Type :=
| Fin (x : R)
| PInf
| NInf
| NaN.

Definition isfinite (o : fl) : bool :=
  match o with
  | Fin _ => true
  | _ => false
  end.

(** ** Arrays of rank zero, one and two *)

Module Np.

Inductive arr (A : Type) : Type :=
| Scal (x : A)
| Vec (v : list A)
| Mat (m : list (list A)).

Arguments Scal {A} x.
Arguments Vec {A} v.
Arguments Mat {A} m.

Definition shape := list nat.

Definition ashape {A} (a : arr A) : shape :=
  match a with
  | Scal _ => []
  | Vec v => [length v]
  | Mat m => [length m; length (hd [] m)]
  end.

Definition amap {A B} (f : A -> B) (a : arr A) : arr B :=
  match a with
  | Scal x => Scal (f x)
  | Vec v => Vec (map f v)
  | Mat m => Mat (map (map f) m)
  end.

(** Entries in row-major order. *)
Definition ravel {A} (a : arr A) : list A :=
  match a with
  | Scal x => [x]
  | Vec v => v
  | Mat m => concat m
  end.

Fixpoint zip_with {A B C} (f : A -> B -> C) (la : list A) (lb : list B)
  : list C :=
  match la, lb with
  | a :: la', b :: lb' => f a b :: zip_with f la' lb'
  | _, _ => []
  end.

Fixpoint sequence {A} (l : list (option A)) : option (list A) :=
  match l with
  | [] => Some []
  | None :: _ => None
  | Some a :: l' =>
      match sequence l' with
      | Some r => Some (a :: r)
      | None => None
      end
  end.

(** Broadcasting along one axis: equal sizes pair up, a size-one side is
    stretched, anything else is a shape error. *)
Definition bzip {A B C} (f : A -> B -> C) (la : list A) (lb : list B)
  : option (list C) :=
  if Nat.eqb (length la) (length lb) then Some (zip_with f la lb)
  else match la, lb with
       | [a], _ => Some (map (f a) lb)
       | _, [b] => Some (map (fun a => f a b) la)
       | _, _ => None
       end.

Definition omap {A B} (f : A -> B) (o : option A) : option B :=
  match o with
  | Some a => Some (f a)
  | None => None
  end.

Definition obind {A B} (o : option A) (f : A -> option B) : option B :=
  match o with
  | Some a => f a
  | None => None
  end.

(** Elementwise binary operation with broadcasting; shapes are aligned on
    their last axis, so a vector meets a matrix as a row. *)
Definition map2 {A B C} (f : A -> B -> C) (a : arr A) (b : arr B)
  : option (arr C) :=
  match a, b with
  | Scal x, _ => Some (amap (f x) b)
  | _, Scal y => Some (amap (fun x => f x y) a)
  | Vec u, Vec v => omap Vec (bzip f u v)
  | Vec u, Mat n => omap Mat (sequence (map (fun r => bzip f u r) n))
  | Mat m, Vec v => omap Mat (sequence (map (fun r => bzip f r v) m))
  | Mat m, Mat n =>
      omap Mat (obind (bzip (bzip f) m n) sequence)
  end.

(** An array of the given shape filled with one value. *)
Definition full {A} (sh : shape) (x : A) : option (arr A) :=
  match sh with
  | [] => Some (Scal x)
  | [n] => Some (Vec (repeat x n))
  | [m; n] => Some (Mat (repeat (repeat x n) m))
  | _ => None
  end.

(** [np.broadcast_to(a, shape)]: [a] stretched to exactly that shape. *)
Definition broadcast_to {A} (a : arr A) (sh : shape) : option (arr A) :=
  obind (full sh tt) (fun like =>
  obind (map2 (fun x _ => x) a like) (fun r =>
  if list_eq_dec Nat.eq_dec (ashape r) sh then Some r else None)).

Definition where_ {A} (c : arr bool) (x : arr A) (y : arr A)
  : option (arr A) :=
  obind (map2 (fun (b : bool) (v : A) => (b, v)) c x)
        (fun cx => map2 (fun (bv : bool * A) (w : A) =>
                           if fst bv then snd bv else w) cx y).

Definition add := map2 Rplus.
Definition sub := map2 Rminus.
Definition mul := map2 Rmult.
Definition div := map2 Rdiv.
Definition minimum := map2 Rmin.

Definition zeros_like (a : arr R) : arr R := amap (fun _ => 0) a.

(** [np.arange(n)] as floats. *)
Definition arange (n : nat) : arr R := Vec (map INR (seq 0 n)).

(** [np.append(a, b)]: both arguments flattened, then joined. *)
Definition append {A} (a b : arr A) : arr A := Vec (ravel a ++ ravel b).

Fixpoint dot_row (r t : list R) : R :=
  match r, t with
  | x :: r', y :: t' => x * y + dot_row r' t'
  | _, _ => 0
  end.

(** [np.dot(X, theta)] of a matrix and a vector. *)
Definition dot (X : list (list R)) (theta : list R) : option (arr R) :=
  if forallb (fun r => Nat.eqb (length r) (length theta)) X
  then Some (Vec (map (fun r => dot_row r theta) X))
  else None.

(** [a[:, None]]: a vector turned into a one-column matrix. *)
Definition column {A} (a : arr A) : option (arr A) :=
  match a with
  | Vec v => Some (Mat (map (fun x => [x]) v))
  | _ => None
  end.

(** [a[0]] and [a[1:]] on the leading axis. *)
Definition first {A} (a : arr A) : option (arr A) :=
  match a with
  | Vec (x :: _) => Some (Scal x)
  | Mat (r :: _) => Some (Vec r)
  | _ => None
  end.

Definition rest {A} (a : arr A) : option (arr A) :=
  match a with
  | Vec v => Some (Vec (tl v))
  | Mat m => Some (Mat (tl m))
  | Scal _ => None
  end.

(** [a[-1]] on the leading axis. *)
Definition last_ {A} (a : arr A) : option (arr A) :=
  match a with
  | Vec v => omap Scal (List.last (map Some v) None)
  | Mat m => omap Vec (List.last (map Some m) None)
  | Scal _ => None
  end.

(** [a[:, 0]], [a[:, 1:]] and [a[:, -1]] on the second axis. *)
Definition col_first {A} (a : arr A) : option (arr A) :=
  match a with
  | Mat m => omap Vec (sequence (map (fun r => hd_error r) m))
  | _ => None
  end.

Definition col_rest {A} (a : arr A) : option (arr A) :=
  match a with
  | Mat m => Some (Mat (map (fun r => tl r) m))
  | _ => None
  end.

Definition col_last {A} (a : arr A) : option (arr A) :=
  match a with
  | Mat m => omap Vec (sequence (map (fun r => List.last (map Some r) None) m))
  | _ => None
  end.

(** [np.concatenate((a, b), axis=1)] of two matrices. *)
Definition concat1 {A} (a b : arr A) : option (arr A) :=
  match a, b with
  | Mat m, Mat n =>
      if Nat.eqb (length m) (length n)
      then Some (Mat (zip_with (fun r s => r ++ s) m n))
      else None
  | _, _ => None
  end.

(** [np.vstack((a, b))] for arrays whose entries are whole rows: a single
    row counts as a one-row block. *)
Definition vstack {A} (a b : arr A) : option (arr A) :=
  let rows (c : arr A) :=
    match c with
    | Scal x => Some [x]
    | Vec v => Some v
    | Mat _ => None
    end in
  obind (rows a) (fun ra => obind (rows b) (fun rb => Some (Vec (ra ++ rb)))).

(** [a.shape[0]]. *)
Definition shape0 {A} (a : arr A) : option nat :=
  match a with
  | Scal _ => None
  | Vec v => Some (length v)
  | Mat m => Some (length m)
  end.

(** [np.cumsum(a, axis=-1)]. *)
Fixpoint cumsum_from (acc : R) (l : list R) : list R :=
  match l with
  | [] => []
  | x :: l' => (acc + x) :: cumsum_from (acc + x) l'
  end.

Definition cumsum (a : arr R) : arr R :=
  match a with
  | Scal x => Scal x
  | Vec v => Vec (cumsum_from 0 v)
  | Mat m => Mat (map (cumsum_from 0) m)
  end.

Definition asum (a : arr R) : R := fold_right Rplus 0 (ravel a).

Definition as_scalar {A} (a : arr A) : option A :=
  match a with
  | Scal x => Some x
  | _ => None
  end.

Definition as_vector {A} (a : arr A) : option (list A) :=
  match a with
  | Vec v => Some v
  | _ => None
  end.

Definition as_matrix {A} (a : arr A) : option (list (list A)) :=
  match a with
  | Mat m => Some m
  | _ => None
  end.

End Np.

Import Np.

(** ** Distributions *)

(** Modelled from the spec: the distribution library the model code builds
    its priors, walks and link distributions with.  A distribution here is
    its constructor and parameters, with its shapes, and for the walk and the
    transformed distributions the way a sample is computed from standard
    variates. *)
Inductive transform : Type :=
| AffineTransform (loc scale : arr R)
| ExpTransform.

Inductive dist : Type :=
| Gamma (concentration rate : arr R)
| Beta (concentration1 concentration0 : arr R)
| Normal (loc scale : arr R)
| Uniform (low high : arr R)
| GaussianRandomWalk (scale : arr R) (num_steps : nat)
| TransformedDistribution (base : dist) (transforms : list transform).

(** One axis of a broadcast. *)
Definition broadcast_dim (a b : nat) : option nat :=
  if Nat.eqb a b then Some a
  else if Nat.eqb a 1 then Some b
  else if Nat.eqb b 1 then Some a
  else None.

(** Shapes are aligned on their last axis. *)
Fixpoint broadcast_shapes_rev (s t : shape) : option shape :=
  match s, t with
  | [], _ => Some t
  | _, [] => Some s
  | a :: s', b :: t' =>
      match broadcast_shapes_rev s' t' with
      | None => None
      | Some r => omap (fun d => d :: r) (broadcast_dim a b)
      end
  end.

Definition broadcast_shapes (s t : shape) : option shape :=
  omap (@rev nat) (broadcast_shapes_rev (rev s) (rev t)).

Fixpoint batch_shape (d : dist) : option shape :=
  match d with
  | Gamma a b | Beta a b | Normal a b | Uniform a b =>
      broadcast_shapes (ashape a) (ashape b)
  | GaussianRandomWalk scale _ => Some (ashape scale)
  | TransformedDistribution base _ => batch_shape base
  end.

Fixpoint event_shape (d : dist) : shape :=
  match d with
  | GaussianRandomWalk _ n => [n]
  | TransformedDistribution base _ => event_shape base
  | _ => []
  end.

(** The mean and the variance of a Gamma distribution, from its shape
    (concentration) and rate. *)
Definition Gamma_mean (d : dist) : option (arr R) :=
  match d with
  | Gamma shape rate => div shape rate
  | _ => None
  end.

Definition Gamma_variance (d : dist) : option (arr R) :=
  match d with
  | Gamma shape rate => obind (mul rate rate) (div shape)
  | _ => None
  end.

(** [np.expand_dims(a, axis=-1)]. *)
Definition expand_dims {A} (a : arr A) : option (arr A) :=
  match a with
  | Scal x => Some (Vec [x])
  | Vec v => column a
  | Mat _ => None
  end.

Definition apply_transform (t : transform) (x : arr R) : option (arr R) :=
  match t with
  | AffineTransform loc scale => obind (mul scale x) (add loc)
  | ExpTransform => Some (amap exp x)
  end.

Fixpoint apply_transforms (ts : list transform) (x : arr R)
  : option (arr R) :=
  match ts with
  | [] => Some x
  | t :: ts' => obind (apply_transform t x) (apply_transforms ts')
  end.

(** How a distribution turns the variates the host draws for it into a
    sample.  The walk is the running sum of standard normal variates times
    its scale, and a transformed distribution pushes the sample of its base
    through its transforms; the samplers of the other distributions belong to
    the host, whose variates are then the sample itself. *)
Fixpoint dist_sample (d : dist) (raw : arr R) : option (arr R) :=
  match d with
  | GaussianRandomWalk scale _ => obind (expand_dims scale) (mul (cumsum raw))
  | TransformedDistribution base ts =>
      obind (dist_sample base raw) (apply_transforms ts)
  | _ => Some raw
  end.

(** The density of the Normal link distribution, in log scale. *)
Definition Normal_log_prob (loc scale value : R) : R :=
  - ((value - loc) ^ 2) / (2 * scale ^ 2) - ln scale - ln (sqrt (2 * PI)).

(** ** The sampling host *)

(** Modelled from the spec: the trace-based sampling host.  The model body
    calls into it to draw or condition a named variable and to record a named
    deterministic value; the host keeps the trace of the sites, applies the
    mask and plate scopes a statement runs under, and scores an observed site
    entry by entry, leaving out the entries its mask rules out.  The draws of
    one run are given by a [host] function, so that a run is a function of
    what the host draws. *)

(** The five compartments of a state: susceptible, exposed, infectious,
    removed and cumulative cases, in index order. *)
Record state : Type := mkState {
  comp_S : R; comp_E : R; comp_I : R; comp_R : R; comp_C : R
}.

Inductive value : Type :=
| VReal (a : arr R)
| VState (a : arr state).

Inductive site_type : Type := SampleSite | DeterministicSite.

Record site : Type := mkSite {
  s_name : string;
  s_type : site_type;
  s_fn : option dist;
  s_value : value;
  s_is_observed : bool;
  s_mask : arr bool
}.

Definition trace := list site.

(** The variates the host draws at a site, by site name and index. *)
Definition host := string -> list nat -> R.

(** The scopes a statement runs under: the enclosing plate and the mask. *)
Record context : Type := mkContext {
  cx_plate : option (string * nat);
  cx_mask : arr bool
}.

Definition top_context : context := mkContext None (Scal true).

Definition M (A : Type) : Type :=
  context -> host -> trace -> option (A * trace).

Definition ret {A} (a : A) : M A := fun _ _ tr => Some (a, tr).

Definition bind {A B} (c : M A) (k : A -> M B) : M B :=
  fun cx h tr =>
    match c cx h tr with
    | Some (a, tr') => k a cx h tr'
    | None => None
    end.

Definition lift {A} (o : option A) : M A :=
  fun _ _ tr => match o with Some a => Some (a, tr) | None => None end.

Notation "x <- c ;; k" := (bind c (fun x => k))
  (at level 61, c at next level, right associativity).
Notation "' pat <- c ;; k" := (bind c (fun x => match x with pat => k end))
  (at level 61, pat pattern, c at next level, right associativity).
Notation "c ;;; k" := (bind c (fun _ => k))
  (at level 61, right associativity).

Definition tabulate (sh : shape) (f : list nat -> R) : option (arr R) :=
  match sh with
  | [] => Some (Scal (f []))
  | [n] => Some (Vec (map (fun i => f [i]) (seq 0 n)))
  | [m; n] =>
      Some (Mat (map (fun i => map (fun j => f [i; j]) (seq 0 n)) (seq 0 m)))
  | _ => None
  end.

(** The shape of a draw: the sample shape, then the batch shape stretched
    over the enclosing plate, then the event shape. *)
Definition draw_shape (cx : context) (d : dist) (sample_shape : shape)
  : option shape :=
  obind (batch_shape d) (fun b =>
  obind (match cx_plate cx with
         | Some (_, n) => broadcast_shapes b [n]
         | None => Some b
         end) (fun b' =>
  Some (sample_shape ++ b' ++ event_shape d))).

(** [numpyro.sample(name, fn, obs=obs, sample_shape=sample_shape)]: an
    observed site takes the observation as its value, any other site a draw
    from the distribution; either way the site is recorded with the mask in
    scope. *)
Definition sample (name : string) (fn : dist) (obs : option (arr R))
  (sample_shape : shape) : M (arr R) :=
  fun cx h tr =>
    match obs with
    | Some v =>
        Some (v, tr ++ [mkSite name SampleSite (Some fn) (VReal v) true
                               (cx_mask cx)])
    | None =>
        obind (draw_shape cx fn sample_shape) (fun sh =>
        obind (tabulate sh (h name)) (fun raw =>
        obind (dist_sample fn raw) (fun v =>
        Some (v, tr ++ [mkSite name SampleSite (Some fn) (VReal v) false
                               (cx_mask cx)]))))
    end.

(** [numpyro.deterministic(name, value)]. *)
Definition deterministic (name : string) (v : value) : M unit :=
  fun _ _ tr =>
    Some (tt, tr ++ [mkSite name DeterministicSite None v false (Scal true)]).

(** [with numpyro.handlers.mask(fn, mask_array): body].  Modelled from the
    library: the first parameter of the handler is [fn], the callable it
    would wrap, and the second is [mask_array], [True] when left out.  Used
    as a scope, the handler puts [mask_array] on the sample sites of the body
    and never reads [fn]. *)
Definition with_mask {A} (fn : option (arr bool)) (mask_array : arr bool)
  (body : M A) : M A :=
  fun cx h tr => body (mkContext (cx_plate cx) mask_array) h tr.

(** [with numpyro.plate(name, size): body]; plates are not nested here. *)
Definition with_plate {A} (name : string) (size : nat) (body : M A) : M A :=
  fun cx h tr =>
    match cx_plate cx with
    | None => body (mkContext (Some (name, size)) (cx_mask cx)) h tr
    | Some _ => None
    end.

(** The contribution of a site to the score: the log density of its value,
    entry by entry, with the entries the mask rules out counted as zero. *)
Definition site_log_prob (s : site) : option R :=
  match s_fn s, s_value s with
  | Some (Normal loc scale), VReal v =>
      obind (map2 (fun l sc => (l, sc)) loc scale) (fun p =>
      obind (map2 (fun (q : R * R) x => Normal_log_prob (fst q) (snd q) x)
                  p v) (fun lp =>
      obind (where_ (s_mask s) lp (Scal 0)) (fun r => Some (asum r))))
  | _, _ => None
  end.

(** ** Shared model and distribution components *)

Definition GammaMeanDispersion (mu dispersion : arr R) : option dist :=
  obind (div (Scal 1) dispersion) (fun shape =>
  obind (div shape mu) (fun rate =>
  Some (Gamma shape rate))).

Definition GammaMeanVar (mu var : arr R) : option dist :=
  obind (mul mu mu) (fun mu2 =>
  obind (div mu2 var) (fun shape =>
  obind (div shape mu) (fun rate =>
  Some (Gamma shape rate)))).

Definition BinomialApprox (n p : arr R) (conc : option (arr R))
  : option dist :=
  let conc := match conc with None => n | Some c => c end in
  obind (mul conc p) (fun a =>
  obind (sub (Scal 1) p) (fun q =>
  obind (mul conc q) (fun b =>
  Some (TransformedDistribution (Beta a b) [AffineTransform (Scal 0) n])))).

Definition ExponentialRandomWalk (loc scale drift : arr R) (num_steps : nat)
  : option dist :=
  obind (mul drift (arange num_steps)) (fun steps =>
  obind (add (amap ln loc) steps) (fun log_loc =>
  Some (TransformedDistribution (GaussianRandomWalk scale num_steps)
          [AffineTransform log_loc (Scal 1); ExpTransform]))).

(** ** The observation link *)

(** An array enters the real-valued computation once none of its entries is
    non-finite. *)
Definition real_of (o : fl) : option R :=
  match o with
  | Fin x => Some x
  | _ => None
  end.

Definition reals_of (a : arr fl) : option (arr R) :=
  match a with
  | Scal x => omap Scal (real_of x)
  | Vec v => omap Vec (sequence (map real_of v))
  | Mat m => omap Mat (sequence (map (fun r => sequence (map real_of r)) m))
  end.

Definition _observe_normal (name : string) (latent det_rate det_noise_scale
  : arr R) (obs : option (arr fl)) : M (arr R) :=
  let mask := Scal true in
  let reg := 0.5 in
  shift <- lift (div (Scal reg) det_rate) ;;
  latent <- lift (add latent shift) ;;
  ' (mask, obs) <-
    match obs with
    | Some obs =>
        let mask := amap isfinite obs in
        obs <- lift (where_ mask obs (Scal (Fin 0))) ;;
        obs <- lift (reals_of obs) ;;
        obs <- lift (add obs (Scal reg)) ;;
        ret (mask, Some obs)
    | None => ret (mask, None)
    end ;;
  det_rate <- lift (broadcast_to det_rate (ashape latent)) ;;
  mean <- lift (mul det_rate latent) ;;
  noise <- lift (mul det_noise_scale mean) ;;
  scale <- lift (add noise (Scal 1)) ;;
  let d := Normal mean scale in
  deterministic ("mean_" ++ name)%string (VReal mean) ;;;
  y <- with_mask (Some mask) (Scal true) (sample name d obs []) ;;
  ret y.

Definition _observe_binom_approx (name : string) (latent det_rate det_conc
  : arr R) (obs : option (arr fl)) : M (arr R) :=
  let mask := Scal true in
  let reg := 0.5 in
  shift <- lift (div (Scal reg) det_rate) ;;
  latent <- lift (add latent shift) ;;
  ' (mask, obs) <-
    match obs with
    | Some obs =>
        let mask := amap isfinite obs in
        half <- lift (mul (Scal 0.5) latent) ;;
        obs <- lift (where_ mask obs (amap Fin half)) ;;
        obs <- lift (reals_of obs) ;;
        obs <- lift (add obs (Scal reg)) ;;
        ret (mask, Some obs)
    | None => ret (mask, None)
    end ;;
  det_rate <- lift (broadcast_to det_rate (ashape latent)) ;;
  det_conc <- lift (minimum det_conc latent) ;;
  shift <- lift (div (Scal reg) det_rate) ;;
  n <- lift (add latent shift) ;;
  d <- lift (BinomialApprox n det_rate (Some det_conc)) ;;
  y <- with_mask (Some mask) (Scal true) (sample name d obs []) ;;
  ret y.

Definition observe := _observe_normal.

(** ** The compartment model *)

(** Modelled from the spec: the compartment model [SEIRModel] of module
    [compartment], which the model code imports and which is not among the
    sources at hand.  [seed] builds the state at time zero from the population
    and the initial infectious and exposed counts; [run] integrates the
    dynamics and returns one state per time step, the initial state first,
    when it is given one transmission rate for each of the steps it takes. *)
Class CompartmentModel : Type := {
  seed : R -> R -> R -> state;
  run : nat -> state -> list R * R * R -> list state;
  run_length : forall T x0 beta sigma gamma,
    (1 <= T)%nat -> length beta = (T - 1)%nat ->
    length (run T x0 (beta, sigma, gamma)) = T
}.

Section Models.

Context {SEIRModel : CompartmentModel}.

(** ** SEIR model *)

Definition params_t : Type :=
  arr R * arr R * arr R * arr R * arr R * arr R * arr R * arr R * arr R.

(** [T - 1] as the number of steps of the walk of a segment of [T] time
    steps.  Modelled from the library: a walk of a negative number of steps
    cannot be drawn, so there is none for [T = 0]. *)
Definition walk_steps (T : nat) : option nat :=
  if Nat.eqb T 0 then None else Some (T - 1)%nat.

Definition SEIR_dynamics (T : nat) (params : params_t) (x0 : state)
  (obs hosp : option (arr fl)) (use_hosp : bool) (suffix : string)
  : M (arr R * arr state * arr R * arr R) :=
  let '(beta0, sigma, gamma, rw_scale, drift,
        det_rate, det_noise_scale, hosp_rate, hosp_noise_scale) := params in
  walk <- lift (obind (walk_steps T)
                      (ExponentialRandomWalk beta0 rw_scale drift)) ;;
  beta <- sample ("beta" ++ suffix)%string walk None [] ;;
  (* Run ODE *)
  beta_t <- lift (as_vector beta) ;;
  sigma_ <- lift (as_scalar sigma) ;;
  gamma_ <- lift (as_scalar gamma) ;;
  let x := run T x0 (beta_t, sigma_, gamma_) in
  let x := tl x in
  deterministic ("x" ++ suffix)%string (VState (Vec x)) ;;;
  let latent := Vec (map comp_C x) in
  (* Noisy observations *)
  y <- observe ("y" ++ suffix)%string latent det_rate det_noise_scale obs ;;
  z <- (if use_hosp
        then observe ("z" ++ suffix)%string latent hosp_rate
                     hosp_noise_scale hosp
        else ret (zeros_like y)) ;;
  ret (beta, Vec x, y, z).

(** [(None, None) if obs is None else (obs[0], obs[1:])]. *)
Definition split_first (obs : option (arr fl))
  : M (option (arr fl) * option (arr fl)) :=
  match obs with
  | None => ret (None, None)
  | Some o =>
      o0 <- lift (first o) ;;
      o1 <- lift (rest o) ;;
      ret (Some o0, Some o1)
  end.

Definition SEIR_stochastic (T : nat) (N : R) (T_future : nat)
  (E_duration_est I_duration_est R0_est : R)
  (beta_shape sigma_shape gamma_shape : R)
  (det_rate_est det_rate_conc det_noise_scale rw_scale : R)
  (drift_scale : option R) (obs : option (arr fl)) (use_hosp : bool)
  (hosp_rate_est hosp_rate_conc hosp_noise_scale : R)
  (hosp : option (arr fl))
  : M (arr R * arr state * arr R * arr R * arr R * arr R) :=
  (* Sample initial number of infected individuals *)
  I0 <- sample "I0" (Uniform (Scal 0) (Scal (0.02 * N))) None [] ;;
  E0 <- sample "E0" (Uniform (Scal 0) (Scal (0.02 * N))) None [] ;;
  (* Sample parameters *)
  sigma <- sample "sigma"
             (Gamma (Scal sigma_shape) (Scal (sigma_shape * E_duration_est)))
             None [] ;;
  gamma <- sample "gamma"
             (Gamma (Scal gamma_shape) (Scal (gamma_shape * I_duration_est)))
             None [] ;;
  beta0 <- sample "beta0"
             (Gamma (Scal beta_shape)
                    (Scal (beta_shape * I_duration_est / R0_est)))
             None [] ;;
  det_rate <- sample "det_rate"
                (Beta (Scal (det_rate_est * det_rate_conc))
                      (Scal ((1 - det_rate_est) * det_rate_conc)))
                None [] ;;
  hosp_rate <- (if use_hosp
                then
                  frac <- sample "hosp_rate"
                            (Beta (Scal (hosp_rate_est * hosp_rate_conc))
                                  (Scal ((1 - hosp_rate_est) * hosp_rate_conc)))
                            None [] ;;
                  lift (mul det_rate frac)
                else ret (Scal 0)) ;;
  drift <- match drift_scale with
           | Some drift_scale =>
               sample "drift" (Normal (Scal 0) (Scal drift_scale)) None []
           | None => ret (Scal 0)
           end ;;
  I0_ <- lift (as_scalar I0) ;;
  E0_ <- lift (as_scalar E0) ;;
  let x0 := seed N I0_ E0_ in
  deterministic "x0" (VState (Scal x0)) ;;;
  (* Split observations into first and rest *)
  ' (obs0, obs) <- split_first obs ;;
  ' (hosp0, hosp) <- (if use_hosp then split_first hosp
                      else ret (None, hosp)) ;;
  (* First observation *)
  y0 <- observe "y0" (Scal (comp_C x0)) det_rate (Scal det_noise_scale)
                obs0 ;;
  z0 <- (if use_hosp
         then observe "z0" (Scal (comp_C x0)) hosp_rate
                      (Scal hosp_noise_scale) hosp0
         else ret (Scal 0)) ;;
  let params := (beta0, sigma, gamma, Scal rw_scale, drift,
                 det_rate, Scal det_noise_scale,
                 hosp_rate, Scal hosp_noise_scale) in
  ' (beta, x, y, z) <- SEIR_dynamics T params x0 obs hosp use_hosp "" ;;
  x <- lift (vstack (Scal x0) x) ;;
  let y := append y0 y in
  let z := append z0 z in
  ' (x, y, z) <-
    (if Nat.ltb 0 T_future
     then
       beta_last <- lift (last_ beta) ;;
       x_last <- lift (obind (last_ x) as_scalar) ;;
       let params := (beta_last, sigma, gamma, Scal rw_scale, drift,
                      det_rate, Scal det_noise_scale,
                      hosp_rate, Scal hosp_noise_scale) in
       ' (beta_f, x_f, y_f, z_f) <-
         SEIR_dynamics (T_future + 1) params x_last None None use_hosp
                       "_future" ;;
       x <- lift (vstack x x_f) ;;
       let y := append y y_f in
       let z := append z z_f in
       ret (x, y, z)
     else ret (x, y, z)) ;;
  ret (beta, x, y, z, det_rate, hosp_rate).

(** ** SEIR hierarchical *)

Fixpoint zip3 {A B C D} (f : A -> B -> C -> D) (la : list A) (lb : list B)
  (lc : list C) : list D :=
  match la, lb, lc with
  | a :: la', b :: lb', c :: lc' => f a b c :: zip3 f la' lb' lc'
  | _, _, _ => []
  end.

Fixpoint zip4 {A B C D E} (f : A -> B -> C -> D -> E) (la : list A)
  (lb : list B) (lc : list C) (ld : list D) : list E :=
  match la, lb, lc, ld with
  | a :: la', b :: lb', c :: lc', d :: ld' =>
      f a b c d :: zip4 f la' lb' lc' ld'
  | _, _, _, _ => []
  end.

(** [jax.vmap(SEIRModel.seed)(N, I0, E0)]: one seed per place; the three
    arguments must agree on the number of places. *)
Definition vmap_seed (N I0 E0 : arr R) : option (arr state) :=
  obind (as_vector N) (fun n =>
  obind (as_vector I0) (fun i =>
  obind (as_vector E0) (fun e =>
  if Nat.eqb (length n) (length i) && Nat.eqb (length n) (length e)
  then Some (Vec (zip3 seed n i e))
  else None))).

(** [jax.vmap(apply_model)(x0, beta, sigma, gamma)]: one run per place. *)
Definition vmap_run (T : nat) (x0 : arr state) (beta sigma gamma : arr R)
  : option (arr state) :=
  obind (as_vector x0) (fun xs =>
  obind (as_matrix beta) (fun bs =>
  obind (as_vector sigma) (fun ss =>
  obind (as_vector gamma) (fun gs =>
  if Nat.eqb (length xs) (length bs) && Nat.eqb (length xs) (length ss)
     && Nat.eqb (length xs) (length gs)
  then Some (Mat (zip4 (fun x b s g => run T x (b, s, g)) xs bs ss gs))
  else None)))).

Definition hparams_t : Type :=
  arr R * arr R * arr R * arr R * arr R * arr R * arr R.

Definition SEIR_dynamics_hierarchical (T : nat) (params : hparams_t)
  (x0 : arr state) (obs : option (arr fl)) (suffix : string)
  : M (arr R * arr state * arr R) :=
  let '(beta0, sigma, gamma, det_rate, det_conc, rw_scale, drift) := params in
  (* Add a dimension to these for broadcasting with 2d arrays *)
  beta0 <- lift (column beta0) ;;
  det_rate <- lift (column det_rate) ;;
  places <- lift (shape0 beta0) ;;
  beta <- with_plate "num_places" places
            (walk <- lift (obind (walk_steps T)
                                 (ExponentialRandomWalk beta0 rw_scale
                                                        drift)) ;;
             sample ("beta" ++ suffix)%string walk None []) ;;
  (* Run ODE *)
  x <- lift (vmap_run T x0 beta sigma gamma) ;;
  x <- lift (col_rest x) ;;
  deterministic ("x" ++ suffix)%string (VState x) ;;;
  (* Noisy observations *)
  y <- observe ("y" ++ suffix)%string (amap comp_C x) det_rate det_conc obs ;;
  ret (beta, x, y).

(** [(None, None) if obs is None else (obs[:,0], obs[:,1:])]. *)
Definition split_first_column (obs : option (arr fl))
  : M (option (arr fl) * option (arr fl)) :=
  match obs with
  | None => ret (None, None)
  | Some o =>
      o0 <- lift (col_first o) ;;
      o1 <- lift (col_rest o) ;;
      ret (Some o0, Some o1)
  end.

(** The covariates of the places, a table with one row per place. *)
Record DataFrame : Type := mkDataFrame {
  df_columns : nat;
  values : list (list R)
}.

Definition expit (x : R) : R := 1 / (1 + exp (- x)).
Definition logit (p : R) : R := ln (p / (1 - p)).

(** [np.exp(np.log(est) + bias + np.dot(X, theta))]. *)
Definition log_link_mean (est : R) (bias : arr R) (X : list (list R))
  (theta : arr R) : option (arr R) :=
  obind (as_vector theta) (fun th =>
  obind (dot X th) (fun effect =>
  obind (add (Scal (ln est)) bias) (fun base =>
  obind (add base effect) (fun eta =>
  Some (amap exp eta))))).

(** [expit(logit(est) + bias + np.dot(X, theta))]. *)
Definition logit_link_mean (est : R) (bias : arr R) (X : list (list R))
  (theta : arr R) : option (arr R) :=
  obind (as_vector theta) (fun th =>
  obind (dot X th) (fun effect =>
  obind (add (Scal (logit est)) bias) (fun base =>
  obind (add base effect) (fun eta =>
  Some (amap expit eta))))).

Definition SEIR_hierarchical (num_places T : nat) (N : arr R)
  (T_future : nat) (E_duration_est I_duration_est R0_est : R)
  (det_rate_est det_rate_conc rw_scale det_scale : R)
  (place_covariates : DataFrame) (drift_scale : option R)
  (obs : option (arr fl))
  : M (arr R * arr state * arr R * arr R) :=
  (* Sample bias terms *)
  bias_R0 <- sample "bias_R0" (Normal (Scal 0) (Scal 0.1)) None [] ;;
  bias_E_duration <- sample "bias_E_duration"
                       (Normal (Scal 0) (Scal 0.05)) None [] ;;
  bias_I_duration <- sample "bias_I_duration"
                       (Normal (Scal 0) (Scal 0.05)) None [] ;;
  bias_det_rate <- sample "bias_det_rate"
                     (Normal (Scal 0) (Scal 0.05)) None [] ;;
  (* Sample coefficients *)
  let d := df_columns place_covariates in
  theta_R0 <- sample "theta_R0" (Normal (Scal 0) (Scal 0.1)) None [d] ;;
  theta_E_duration <- sample "theta_E_duration"
                        (Normal (Scal 0) (Scal 0.05)) None [d] ;;
  theta_I_duration <- sample "theta_I_duration"
                        (Normal (Scal 0) (Scal 0.05)) None [d] ;;
  theta_det_rate <- sample "theta_det_rate"
                      (Normal (Scal 0) (Scal 0.05)) None [d] ;;
  let X := values place_covariates in
  (* Sample parameter values *)
  R0_mean <- lift (log_link_mean R0_est bias_R0 X theta_R0) ;;
  R0_prior <- lift (GammaMeanVar R0_mean (Scal 0.1)) ;;
  R0 <- sample "R0" R0_prior None [] ;;
  E_duration_mean <- lift (log_link_mean E_duration_est bias_E_duration X
                                         theta_E_duration) ;;
  E_duration_prior <- lift (GammaMeanVar E_duration_mean (Scal 0.05)) ;;
  E_duration <- sample "E_duration" E_duration_prior None [] ;;
  I_duration_mean <- lift (log_link_mean I_duration_est bias_I_duration X
                                         theta_I_duration) ;;
  I_duration_prior <- lift (GammaMeanVar I_duration_mean (Scal 0.05)) ;;
  I_duration <- sample "I_duration" I_duration_prior None [] ;;
  det_rate_mean <- lift (logit_link_mean det_rate_est bias_det_rate X
                                         theta_det_rate) ;;
  conc1 <- lift (mul det_rate_mean (Scal det_rate_conc)) ;;
  comp <- lift (sub (Scal 1) det_rate_mean) ;;
  conc0 <- lift (mul comp (Scal det_rate_conc)) ;;
  det_rate <- sample "det_rate" (Beta conc1 conc0) None [] ;;
  sigma <- lift (div (Scal 1) E_duration) ;;
  gamma <- lift (div (Scal 1) I_duration) ;;
  beta0 <- lift (mul R0 gamma) ;;
  (* Broadcast to correct size *)
  N <- lift (broadcast_to N [num_places]) ;;
  (* Place-specific parameters *)
  ' (I0, E0) <-
    with_plate "num_places" num_places
      (high <- lift (mul (Scal 0.02) N) ;;
       (* Initial number of infected / exposed individuals *)
       I0 <- sample "I0" (Uniform (Scal 0) high) None [] ;;
       E0 <- sample "E0" (Uniform (Scal 0) high) None [] ;;
       ret (I0, E0)) ;;
  (* Run model for each place *)
  x0 <- lift (vmap_seed N I0 E0) ;;
  deterministic "x0" (VState x0) ;;;
  (* Split observations into first and rest *)
  ' (obs0, obs) <- split_first_column obs ;;
  (* First observation *)
  y0 <- observe "y0" (amap comp_C x0) det_rate (Scal det_scale) obs0 ;;
  (* Run dynamics *)
  let drift := Scal 0 in
  let params := (beta0, sigma, gamma, det_rate, Scal det_scale,
                 Scal rw_scale, drift) in
  ' (beta, x, y) <- SEIR_dynamics_hierarchical T params x0 obs "" ;;
  x0_col <- lift (column x0) ;;
  x <- lift (concat1 x0_col x) ;;
  y0_col <- lift (column y0) ;;
  y <- lift (concat1 y0_col y) ;;
  ' (x, y) <-
    (if Nat.ltb 0 T_future
     then
       beta_last <- lift (col_last beta) ;;
       x_last <- lift (col_last x) ;;
       let params := (beta_last, sigma, gamma, det_rate, Scal det_scale,
                      Scal rw_scale, drift) in
       ' (beta_f, x_f, y_f) <-
         SEIR_dynamics_hierarchical (T_future + 1) params x_last None
                                    "_future" ;;
       x <- lift (concat1 x x_f) ;;
       y <- lift (concat1 y y_f) ;;
       ret (x, y)
     else ret (x, y)) ;;
  ret (beta, x, y, det_rate).

End Models.

(** A reference compartment model: one forward Euler step per transmission
    rate, the seed first. *)
Definition euler_step (sigma gamma : R) (beta : R) (x : state) : state :=
  let n := comp_S x + comp_E x + comp_I x + comp_R x in
  let exposed := beta * comp_S x * comp_I x / n in
  mkState (comp_S x - exposed)
          (comp_E x + exposed - sigma * comp_E x)
          (comp_I x + sigma * comp_E x - gamma * comp_I x)
          (comp_R x + gamma * comp_I x)
          (comp_C x + sigma * comp_E x).

Fixpoint euler_from (sigma gamma : R) (x : state) (betas : list R)
  : list state :=
  match betas with
  | [] => []
  | b :: betas' =>
      let x' := euler_step sigma gamma b x in
      x' :: euler_from sigma gamma x' betas'
  end.

Definition euler_run (T : nat) (x0 : state) (theta : list R * R * R)
  : list state :=
  let '(betas, sigma, gamma) := theta in
  x0 :: euler_from sigma gamma x0 betas.

Definition euler_seed (N I0 E0 : R) : state :=
  mkState (N - I0 - E0) E0 I0 0 I0.

(** ** Shapes *)

Definition has_shape {A} (a : arr A) (sh : shape) : Prop :=
  match a, sh with
  | Scal _, [] => True
  | Vec v, [n] => length v = n
  | Mat m, [p; n] => length m = p /\ Forall (fun r => length r = n) m
  | _, _ => False
  end.

(** The value an observation enters the likelihood with once the non-finite
    entries are replaced. *)
Definition finite_or_zero (o : fl) : R :=
  match o with
  | Fin x => x
  | _ => 0
  end.

(** ** The vocabulary of the statements *)

(** The reference model as a compartment model. *)
#[export] Instance EulerSEIR : CompartmentModel.
Proof.
  refine {| seed := euler_seed; run := euler_run; run_length := _ |}.
  intros T x0 beta sigma gamma HT Hb. simpl.
  assert (E : forall x, length (euler_from sigma gamma x beta) = length beta).
  { clear Hb. induction beta as [|b beta IH]; intros x; simpl; auto. }
  rewrite E. lia.
Defined.

(** Entry by entry on two arrays of one shape (and empty on two arrays of
    different ranks). *)
Definition azip {A B C} (f : A -> B -> C) (a : arr A) (b : arr B) : arr C :=
  match a, b with
  | Scal x, Scal y => Scal (f x y)
  | Vec u, Vec v => Vec (zip_with f u v)
  | Mat m, Mat n => Mat (zip_with (zip_with f) m n)
  | _, _ => Vec []
  end.

Definition mean_site (name : string) (mean : arr R) : site :=
  mkSite ("mean_" ++ name)%string DeterministicSite None (VReal mean) false
         (Scal true).

Definition link_site (name : string) (mean scale y : arr R)
  (obs : option (arr fl)) : site :=
  mkSite name SampleSite (Some (Normal mean scale)) (VReal y)
         (match obs with Some _ => true | None => false end)
         (Scal true).

(** What an observed entry would add to the score at a latent value [x]
    under the mask of the finite entries: the log density of the entry plus
    the regulariser when the entry is finite, and nothing otherwise. *)
Definition entry_score (r s : R) (x : R) (e : fl) : R :=
  match e with
  | Fin v =>
      Normal_log_prob (r * (x + 0.5 / r)) (s * (r * (x + 0.5 / r)) + 1)
                      (v + 0.5)
  | _ => 0
  end.

(** What an observed entry adds to the score of a site that is not masked:
    the log density of the entry, or of the placeholder 0, plus the
    regulariser. *)
Definition scored_entry (r s : R) (x : R) (e : fl) : R :=
  Normal_log_prob (r * (x + 0.5 / r)) (s * (r * (x + 0.5 / r)) + 1)
                  (finite_or_zero e + 0.5).

(** The value [observe] returns: the cleaned observations when there are
    some, and otherwise a draw of the shape of the latent array. *)
Definition link_value (y : arr R) (obs : option (arr fl)) (sh : shape)
  : Prop :=
  match obs with
  | Some o => y = amap (fun e => finite_or_zero e + 0.5) o
  | None => has_shape y sh
  end.

(** A series of observations the model can split: none, or a vector with
    a first entry. *)
Definition splittable (obs : option (arr fl)) : Prop :=
  match obs with
  | None => True
  | Some (Vec (_ :: _)) => True
  | _ => False
  end.

(** The length of the confirmed-case series before the forecast. *)
Definition series_length (obs : option (arr fl)) (T : nat) : nat :=
  match obs with
  | None => T
  | Some o => length (ravel o)
  end.

(** An observation series aligned with the [T] time steps of the model, or
    none. *)
Definition aligned (obs : option (arr fl)) (T : nat) : Prop :=
  match obs with
  | None => True
  | Some (Vec v) => length v = T
  | Some _ => False
  end.

(** The covariates of [p] places: one row per place, one entry per column. *)
Definition frame_ok (df : DataFrame) (p : nat) : Prop :=
  length (values df) = p /\
  Forall (fun r => length r = df_columns df) (values df).

(** A population for [p] places: one number for all, or one per place. *)
Definition population_ok (N : arr R) (p : nat) : Prop :=
  match N with
  | Scal _ => True
  | Vec v => length v = p
  | Mat _ => False
  end.

(** Observations for [p] places aligned on [T] time steps, or none. *)
Definition aligned_places (obs : option (arr fl)) (p T : nat) : Prop :=
  match obs with
  | None => True
  | Some (Mat m) => length m = p /\ Forall (fun r => length r = T) m
  | Some _ => False
  end.

(** The coefficients the host draws at a site with sample shape [(d,)]. *)
Definition coefficients (h : host) (name : string) (d : nat) : list R :=
  map (fun i => h name [i]) (seq 0 d).

(** The trace has a site of that name with that distribution. *)
Definition prior_site (tr : trace) (name : string) (d : dist) : Prop :=
  exists s, In s tr /\ s_name s = name /\ s_fn s = Some d.

(** The priors of the region parameters in a trace: Gamma distributions
    around the log-link means for R0 and the two durations, and a Beta
    distribution around the logit-link mean for the detection rate, each
    mean computed from the bias and the coefficients the host drew. *)
Definition hierarchical_priors (h : host) (R0_est E_duration_est
  I_duration_est det_rate_est det_rate_conc : R) (df : DataFrame)
  (tr : trace) : Prop :=
  let X := values df in
  let d := df_columns df in
  let gamma_prior est name var :=
    exists m prior,
      log_link_mean est (Scal (h ("bias_" ++ name)%string []))
                    X (Vec (coefficients h ("theta_" ++ name)%string d))
      = Some m /\
      GammaMeanVar m (Scal var) = Some prior /\
      prior_site tr name prior in
  gamma_prior R0_est "R0" 0.1 /\
  gamma_prior E_duration_est "E_duration" 0.05 /\
  gamma_prior I_duration_est "I_duration" 0.05 /\
  exists m c1 c0,
    logit_link_mean det_rate_est (Scal (h "bias_det_rate" []))
                    X (Vec (coefficients h "theta_det_rate" d)) = Some m /\
    mul m (Scal det_rate_conc) = Some c1 /\
    obind (sub (Scal 1) m) (fun q => mul q (Scal det_rate_conc)) = Some c0 /\
    prior_site tr "det_rate" (Beta c1 c0).

(** Two places with one covariate each. *)
Definition two_places : DataFrame := mkDataFrame 1 [[1]; [2]].

(** Two places with two covariates each. *)
Definition two_covariates : DataFrame := mkDataFrame 2 [[1; 2]; [0; 1]].

(** ** The vocabulary of the further properties *)

(** The site a draw or an observation records, and the site a deterministic
    value records. *)
Definition sample_site (name : string) (d : dist) (v : arr R)
  (observed : bool) (mask : arr bool) : site :=
  mkSite name SampleSite (Some d) (VReal v) observed mask.

Definition deterministic_site (name : string) (v : value) : site :=
  mkSite name DeterministicSite None v false (Scal true).

Definition is_some {A} (o : option A) : bool :=
  match o with Some _ => true | None => false end.

(** The mask [observe] builds from the observations; the handler receives
    it as [fn]. *)
Definition link_mask (obs : option (arr fl)) : arr bool :=
  match obs with Some o => amap isfinite o | None => Scal true end.

(** The mean and the scale of the Normal link, as [_observe_normal] computes
    them from the latent array, the detection rate and the noise scale. *)
Definition link_mean (latent det_rate : arr R) : option (arr R) :=
  obind (div (Scal 0.5) det_rate) (fun shift =>
  obind (add latent shift) (fun latent' =>
  obind (broadcast_to det_rate (ashape latent')) (fun rate' =>
  mul rate' latent'))).

Definition link_scale (det_noise_scale mean : arr R) : option (arr R) :=
  obind (mul det_noise_scale mean) (fun noise => add noise (Scal 1)).

(** The observations as the link site holds them. *)
Definition cleaned (o : arr fl) : arr R :=
  amap (fun e => finite_or_zero e + 0.5) o.

(** The sites the single-region model records before its first observation:
    the priors, the hospitalisation fraction and the drift when the model has
    them, and the seed state. *)
Definition stochastic_prior_sites (N E_duration_est I_duration_est R0_est
  beta_shape sigma_shape gamma_shape det_rate_est det_rate_conc : R)
  (drift_scale : option R) (use_hosp : bool)
  (hosp_rate_est hosp_rate_conc : R) (x0 : state) (h : host) : trace :=
  let prior name d := sample_site name d (Scal (h name [])) false (Scal true) in
  [prior "I0" (Uniform (Scal 0) (Scal (0.02 * N)));
   prior "E0" (Uniform (Scal 0) (Scal (0.02 * N)));
   prior "sigma"
         (Gamma (Scal sigma_shape) (Scal (sigma_shape * E_duration_est)));
   prior "gamma"
         (Gamma (Scal gamma_shape) (Scal (gamma_shape * I_duration_est)));
   prior "beta0"
         (Gamma (Scal beta_shape)
                (Scal (beta_shape * I_duration_est / R0_est)));
   prior "det_rate"
         (Beta (Scal (det_rate_est * det_rate_conc))
               (Scal ((1 - det_rate_est) * det_rate_conc)))]
  ++ (if use_hosp
      then [prior "hosp_rate"
                  (Beta (Scal (hosp_rate_est * hosp_rate_conc))
                        (Scal ((1 - hosp_rate_est) * hosp_rate_conc)))]
      else [])
  ++ match drift_scale with
     | Some s => [prior "drift" (Normal (Scal 0) (Scal s))]
     | None => []
     end
  ++ [deterministic_site "x0" (VState (Scal x0))].

(** The hospitalisation rate and the drift of a run of the single-region
    model, from what the host draws. *)
Definition stochastic_hosp_rate (use_hosp : bool) (h : host) : R :=
  if use_hosp then h "det_rate" [] * h "hosp_rate" [] else 0.

Definition stochastic_drift (drift_scale : option R) (h : host) : R :=
  match drift_scale with Some _ => h "drift" [] | None => 0 end.

(** [(None, None) if obs is None else (obs[0], obs[1:])] as a relation. *)
Definition split_of (obs obs0 obs1 : option (arr fl)) : Prop :=
  match obs with
  | None => obs0 = None /\ obs1 = None
  | Some o => exists f r, first o = Some f /\ rest o = Some r /\
                          obs0 = Some f /\ obs1 = Some r
  end.

(** A property of every entry of an array. *)
Definition all_entries {A} (P : A -> Prop) (a : arr A) : Prop :=
  Forall P (ravel a).

(** The mean and the variance of a Beta distribution, from its two
    concentrations. *)
Definition Beta_mean (d : dist) : option (arr R) :=
  match d with
  | Beta a b => obind (add a b) (div a)
  | _ => None
  end.

Definition Beta_variance (d : dist) : option (arr R) :=
  match d with
  | Beta a b =>
      obind (add a b) (fun t =>
      obind (mul a b) (fun ab =>
      obind (mul t t) (fun t2 =>
      obind (add t (Scal 1)) (fun t1 =>
      obind (mul t2 t1) (div ab)))))
  | _ => None
  end.

(** A walk written as its recurrence: each value is the one before it times
    the exponential of the drift plus the scaled innovation; the first value
    is the location times the exponential of the first scaled innovation. *)
Fixpoint walk_from (x drift scale : R) (z : list R) : list R :=
  match z with
  | [] => []
  | e :: z' =>
      let x' := x * exp (drift + scale * e) in
      x' :: walk_from x' drift scale z'
  end.

Definition walk_path (loc drift scale : R) (z : list R) : list R :=
  match z with
  | [] => []
  | e :: z' =>
      let x0 := loc * exp (scale * e) in
      x0 :: walk_from x0 drift scale z'
  end.

(** The names of the sites of one segment of the dynamics and of a whole run
    of the single-region model, in the order the statements record them. *)
Definition dynamics_site_names (use_hosp : bool) (suffix : string)
  : list string :=
  [("beta" ++ suffix)%string; ("x" ++ suffix)%string;
   ("mean_y" ++ suffix)%string; ("y" ++ suffix)%string]
  ++ (if use_hosp
      then [("mean_z" ++ suffix)%string; ("z" ++ suffix)%string]
      else []).

Definition stochastic_site_names (use_hosp drift forecast : bool)
  : list string :=
  ["I0"; "E0"; "sigma"; "gamma"; "beta0"; "det_rate"]
  ++ (if use_hosp then ["hosp_rate"] else [])
  ++ (if drift then ["drift"] else [])
  ++ ["x0"; "mean_y0"; "y0"]
  ++ (if use_hosp then ["mean_z0"; "z0"] else [])
  ++ dynamics_site_names use_hosp ""
  ++ (if forecast then dynamics_site_names use_hosp "_future" else []).

(** Whether no string occurs twice in a list. *)
Fixpoint nodupb (l : list string) : bool :=
  match l with
  | [] => true
  | x :: l' => negb (existsb (String.eqb x) l') && nodupb l'
  end.

(** [(None, None) if obs is None else (obs[:,0], obs[:,1:])] as a
    relation. *)
Definition split_of_column (obs obs0 obs1 : option (arr fl)) : Prop :=
  match obs with
  | None => obs0 = None /\ obs1 = None
  | Some o => exists f r, col_first o = Some f /\ col_rest o = Some r /\
                          obs0 = Some f /\ obs1 = Some r
  end.

(** The sites the hierarchical model records before its first observation:
    the biases and the coefficients, the parameters of the places, their
    initial counts and their seed states. *)
Definition hierarchical_head (h : host) (d : nat)
  (R0_prior : dist) (R0 : arr R) (E_duration_prior : dist)
  (E_duration : arr R) (I_duration_prior : dist) (I_duration : arr R)
  (det_rate_prior : dist) (det_rate : arr R) (high I0 E0 : arr R)
  (x0 : arr state) : trace :=
  let draw name dist v := sample_site name dist v false (Scal true) in
  [draw "bias_R0" (Normal (Scal 0) (Scal 0.1)) (Scal (h "bias_R0" []));
   draw "bias_E_duration" (Normal (Scal 0) (Scal 0.05))
        (Scal (h "bias_E_duration" []));
   draw "bias_I_duration" (Normal (Scal 0) (Scal 0.05))
        (Scal (h "bias_I_duration" []));
   draw "bias_det_rate" (Normal (Scal 0) (Scal 0.05))
        (Scal (h "bias_det_rate" []));
   draw "theta_R0" (Normal (Scal 0) (Scal 0.1))
        (Vec (coefficients h "theta_R0" d));
   draw "theta_E_duration" (Normal (Scal 0) (Scal 0.05))
        (Vec (coefficients h "theta_E_duration" d));
   draw "theta_I_duration" (Normal (Scal 0) (Scal 0.05))
        (Vec (coefficients h "theta_I_duration" d));
   draw "theta_det_rate" (Normal (Scal 0) (Scal 0.05))
        (Vec (coefficients h "theta_det_rate" d));
   draw "R0" R0_prior R0;
   draw "E_duration" E_duration_prior E_duration;
   draw "I_duration" I_duration_prior I_duration;
   draw "det_rate" det_rate_prior det_rate;
   draw "I0" (Uniform (Scal 0) high) I0;
   draw "E0" (Uniform (Scal 0) high) E0;
   deterministic_site "x0" (VState x0)].

(** A value is the draw of the host at a site: the variates the host holds
    under the name of the site, in the shape of the draw, turned into a
    sample by the distribution. *)
Definition drawn (cx : context) (h : host) (name : string) (d : dist)
  (sample_shape : shape) (v : arr R) : Prop :=
  exists sh raw,
    draw_shape cx d sample_shape = Some sh /\
    tabulate sh (h name) = Some raw /\
    dist_sample d raw = Some v.

(** The draws of the host for the places at a site. *)
Definition place_draws (h : host) (name : string) (p : nat) : list R :=
  map (fun i => h name [i]) (seq 0 p).

(** The context of the statements under the plate of the places. *)
Definition places_context (p : nat) : context :=
  mkContext (Some ("num_places", p)) (Scal true).

(** The names of the sites of a run of the hierarchical model, in the order
    the statements record them. *)
Definition hierarchical_site_names (forecast : bool) : list string :=
  ["bias_R0"; "bias_E_duration"; "bias_I_duration"; "bias_det_rate";
   "theta_R0"; "theta_E_duration"; "theta_I_duration"; "theta_det_rate";
   "R0"; "E_duration"; "I_duration"; "det_rate"; "I0"; "E0"; "x0";
   "mean_y0"; "y0"; "beta"; "x"; "mean_y"; "y"]
  ++ (if forecast
      then ["beta_future"; "x_future"; "mean_y_future"; "y_future"]
      else []).

(** The host all of whose variates are one. *)
Definition unit_host : host := fun _ _ => 1.

(** ** Plotting *)

(** The plotting functions read a dictionary of samples: under the name of a
    site, the values of the site in the draws, stacked along a new first
    axis.  A stacked value is an array of reals or, for the states, an array
    whose entries are the rows of compartments.  What is embedded of a
    plotting function is the arrays it computes from the dictionary and
    hands to the drawing library, and the errors it raises on the way. *)
Inductive samples_value : Type :=
| SReal (a : arr R)
| SRows (a : arr (list R)).

(** The dictionary is read by key only: a partial function of the key. *)
Definition samples_t : Type := string -> option samples_value.

(** The exceptions of the plotting code.  [RankError] stands for what
    happens to an array of another rank than the code indexes; which
    exception numpy raises then, and at which statement, is not modelled. *)
Inductive error : Type :=
| KeyError (key : string)
| ValueError (message : string)
| IndexError
| RankError.

Definition result (A : Type) : Type := (error + A)%type.

Definition rbind {A B} (c : result A) (k : A -> result B) : result B :=
  match c with
  | inl e => inl e
  | inr a => k a
  end.

Notation "x <~ c ;; k" := (rbind c (fun x => k))
  (at level 61, c at next level, right associativity).

Fixpoint rsequence {A} (l : list (result A)) : result (list A) :=
  match l with
  | [] => inr []
  | c :: l' => a <~ c ;; r <~ rsequence l' ;; inr (a :: r)
  end.

(** [k in samples] and [samples[k]]. *)
Definition member (samples : samples_t) (k : string) : bool :=
  is_some (samples k).

Definition getitem (samples : samples_t) (k : string)
  : result samples_value :=
  match samples k with
  | Some v => inr v
  | None => inl (KeyError k)
  end.

(** A dictionary the function builds, in the order of its keys: [d[k]] and
    [d[k] = v], where a new key goes last and a known key keeps its
    place. *)
Fixpoint lookup {V} (d : list (string * V)) (k : string) : result V :=
  match d with
  | [] => inl (KeyError k)
  | (k', v) :: d' => if String.eqb k' k then inr v else lookup d' k
  end.

Fixpoint setitem {V} (d : list (string * V)) (k : string) (v : V)
  : list (string * V) :=
  match d with
  | [] => [(k, v)]
  | (k', v') :: d' =>
      if String.eqb k' k then (k, v) :: d' else (k', v') :: setitem d' k v
  end.

(** The arrays by rank: per draw the states of a trajectory, per draw one
    state, per draw a series, per draw one number. *)
Definition trajectories (v : samples_value)
  : result (list (list (list R))) :=
  match v with SRows (Mat m) => inr m | _ => inl RankError end.

Definition states (v : samples_value) : result (list (list R)) :=
  match v with SRows (Vec u) => inr u | _ => inl RankError end.

Definition series (v : samples_value) : result (list (list R)) :=
  match v with SReal (Mat m) => inr m | _ => inl RankError end.

Definition numbers (v : samples_value) : result (list R) :=
  match v with SReal (Vec u) => inr u | _ => inl RankError end.

(** [a[:, None]] and [np.concatenate((a, b), axis=1)] on arrays with one
    entry of the first axis per draw. *)
Definition add_axis {A} (a : list A) : list (list A) :=
  map (fun x => [x]) a.

Definition dimensions_must_match : string :=
  "all the input array dimensions except for the concatenation axis must match exactly".

Definition concatenate1 {A} (a b : list (list A)) : result (list (list A)) :=
  if Nat.eqb (length a) (length b)
  then inr (zip_with (fun r s => r ++ s) a b)
  else inl (ValueError dimensions_must_match).

(** [x[:, :T, c]]: the compartment [c] of the first [T] states of every
    draw.  Modelled from the library: the arrays are those of jax, where an
    index past the end of an axis is no error and reads the last entry of
    the axis; [IndexError] is left for a state without any entry. *)
Definition compartment (c T : nat) (x : list (list (list R)))
  : result (list (list R)) :=
  rsequence
    (map (fun trajectory =>
            rsequence
              (map (fun row =>
                      match nth_error row (Nat.min c (length row - 1)) with
                      | Some v => inr v
                      | None => inl IndexError
                      end)
                   (firstn T trajectory)))
         x).

Definition labels : list (string * string) :=
  [("S", "susceptible"); ("I", "infectious"); ("R", "removed");
   ("C", "total infections"); ("y", "total confirmed");
   ("z", "total hospitalized")].

(** The body of the loop over the observed series ["y"] and ["z"]: the
    series [obs_name], if the samples have it, goes into [fields] from its
    first value, its values in the period of the data and those of the
    forecast, cut at [T].  [float32] is the rounding of
    [astype('float32')]. *)
Definition observed_field (float32 : R -> R) (samples : samples_t) (T : nat)
  (obs_name : string) (fields : list (string * list (list R)))
  : result (list (string * list (list R))) :=
  if member samples obs_name
  then obs0 <~ rbind (getitem samples (obs_name ++ "0")) numbers ;;
       obs <~ rbind (getitem samples obs_name) series ;;
       obs <~ concatenate1 (add_axis obs0) obs ;;
       obs <~ (if member samples (obs_name ++ "_future")
               then obs_future <~ rbind (getitem samples
                                           (obs_name ++ "_future"))
                                        series ;;
                    concatenate1 obs obs_future
               else inr obs) ;;
       inr (setitem fields obs_name
              (map (fun row => map float32 (firstn T row)) obs))
  else inr fields.

(** The fields [plot_samples] plots, by label: the dictionary [fields] as it
    stands when the medians, the means and the intervals are taken. *)
Definition plot_samples_fields (float32 : R -> R) (samples : samples_t)
  (plot_fields : list string) (T : option nat) (model : string)
  : result (list (string * list (list R))) :=
  x <~ rbind (getitem samples "x") trajectories ;;
  let T_data := (length (hd [] x) + 1)%nat in
  T_data <~ (if member samples "x_future"
             then x_future <~ rbind (getitem samples "x_future")
                                    trajectories ;;
                  inr (T_data + length (hd [] x_future))%nat
             else inr T_data) ;;
  let T := match T with
           | None => T_data
           | Some T => if Nat.ltb T_data T then T_data else T
           end in
  x0 <~ rbind (getitem samples "x0") states ;;
  x <~ concatenate1 (add_axis x0) x ;;
  x <~ (if member samples "x_future"
        then x_future <~ rbind (getitem samples "x_future") trajectories ;;
             concatenate1 x x_future
        else inr x) ;;
  indices <~ (if String.eqb model "SIR" then inr (0, 1, 2, 3)%nat
              else if String.eqb model "SEIR" then inr (0, 2, 3, 4)%nat
              else inl (ValueError "Bad model")) ;;
  let '(S_, I_, R_, C_) := indices in
  fS <~ compartment S_ T x ;;
  fI <~ compartment I_ T x ;;
  fR <~ compartment R_ T x ;;
  fC <~ compartment C_ T x ;;
  let fields := [("S", fS); ("I", fI); ("R", fR); ("C", fC)] in
  fields <~ observed_field float32 samples T "y" fields ;;
  fields <~ observed_field float32 samples T "z" fields ;;
  fold_left (fun acc k =>
               acc <~ acc ;;
               label <~ lookup labels k ;;
               field <~ lookup fields k ;;
               inr (setitem acc label field))
            plot_fields (inr []).

(** [plot_R0]: the ratio of the transmission rates to gamma it plots, per
    draw and time step. *)
Definition plot_R0_values (mcmc_samples : samples_t)
  : result (list (list R)) :=
  gamma <~ rbind (getitem mcmc_samples "gamma") numbers ;;
  beta <~ rbind (getitem mcmc_samples "beta") series ;;
  match div (Mat beta) (Mat (add_axis gamma)) with
  | Some (Mat R0) => inr R0
  | _ => inl (ValueError "operands could not be broadcast together")
  end.

(** The series of every draw over the whole period: the first value, the
    values in the period of the data and, where there is a forecast, its
    values. *)
Definition whole {A} (first : list A) (data : list (list A))
  (future : option (list (list A))) : list (list A) :=
  let observed := zip_with (fun a row => a :: row) first data in
  match future with
  | None => observed
  | Some forecast => zip_with (fun r s => r ++ s) observed forecast
  end.

(** ** The means of the priors of the hierarchical model *)

(** The mean of a prior of the parameters of the places: of a Gamma
    distribution from its shape and rate, of a Beta distribution from its
    two concentrations. *)
Definition prior_mean (d : dist) : option (arr R) :=
  match d with
  | Gamma _ _ => Gamma_mean d
  | Beta _ _ => Beta_mean d
  | _ => None
  end.

(** The trace has a site of that name whose distribution has these means,
    place by place. *)
Definition prior_mean_site (tr : trace) (name : string) (m : list R) : Prop :=
  exists prior, prior_site tr name prior /\ prior_mean prior = Some (Vec m).

(** The mean of each place on the natural scale,
    [unlink (link est + bias + X . theta)], for the bias and the
    coefficients the host draws for the parameter [name]. *)
Definition place_means (link unlink : R -> R) (h : host) (est : R)
  (name : string) (df : DataFrame) : list R :=
  map (fun row =>
         unlink (link est + h ("bias_" ++ name)%string []
                 + dot_row row (coefficients h ("theta_" ++ name)%string
                                             (df_columns df))))
      (values df).

(** The means of the four priors in a trace: the log link for R0 and the two
    durations, the logit link for the detection rate. *)
Definition hierarchical_prior_means (h : host) (R0_est E_duration_est
  I_duration_est det_rate_est : R) (df : DataFrame) (tr : trace) : Prop :=
  prior_mean_site tr "R0" (place_means ln exp h R0_est "R0" df) /\
  prior_mean_site tr "E_duration"
    (place_means ln exp h E_duration_est "E_duration" df) /\
  prior_mean_site tr "I_duration"
    (place_means ln exp h I_duration_est "I_duration" df) /\
  prior_mean_site tr "det_rate"
    (place_means logit expit h det_rate_est "det_rate" df).

(** A host whose biases and coefficients are zero and whose other variates
    are one, and the same host with the first coefficient of R0 raised to
    one. *)
Definition level_host : host :=
  fun name _ =>
    if (String.prefix "bias_" name || String.prefix "theta_" name)%bool
    then 0 else 1.

Definition raised_host : host :=
  fun name index =>
    if String.eqb name "theta_R0"
    then match index with [O] => 1 | _ => 0 end
    else level_host name index.

(** * Properties *)

(** ** Lists and options *)

Lemma zip_with_length {A B C} (f : A -> B -> C) la lb :
  length la = length lb -> length (zip_with f la lb) = length la.
Proof.
  revert lb; induction la as [|a la IH]; intros [|b lb]; simpl;
    try discriminate; auto.
Qed.

Lemma zip_with_map_l {A A' B C} (f : A' -> B -> C) (g : A -> A') la lb :
  zip_with f (map g la) lb = zip_with (fun a b => f (g a) b) la lb.
Proof.
  revert lb; induction la as [|a la IH]; intros [|b lb]; simpl; auto.
  now rewrite IH.
Qed.

Lemma zip_with_diag {A C} (f : A -> A -> C) l :
  zip_with f l l = map (fun a => f a a) l.
Proof. induction l as [|a l IH]; simpl; auto. now rewrite IH. Qed.

Lemma zip_with_repeat_l {A B C} (f : A -> B -> C) a lb :
  zip_with f (repeat a (length lb)) lb = map (f a) lb.
Proof. induction lb as [|b lb IH]; simpl; auto. now rewrite IH. Qed.

Lemma sequence_map_Some {A B} (f : A -> B) l :
  sequence (map (fun a => Some (f a)) l) = Some (map f l).
Proof. induction l as [|a l IH]; simpl; auto. now rewrite IH. Qed.

Lemma sequence_Forall {A} (P : A -> Prop) (l : list (option A)) :
  Forall (fun o => exists a, o = Some a /\ P a) l ->
  exists r, sequence l = Some r /\ length r = length l /\ Forall P r.
Proof.
  induction 1 as [|o l (a & -> & Ha) _ (r & Hr & Hl & HP)]; simpl.
  - exists []; auto.
  - rewrite Hr. exists (a :: r); simpl; auto.
Qed.

Lemma bzip_same {A B C} (f : A -> B -> C) la lb :
  length la = length lb -> bzip f la lb = Some (zip_with f la lb).
Proof. intros H. unfold bzip. now rewrite H, Nat.eqb_refl. Qed.

Lemma bzip_length {A B C} (f : A -> B -> C) la lb n :
  broadcast_dim (length la) (length lb) = Some n ->
  exists lc, bzip f la lb = Some lc /\ length lc = n.
Proof.
  unfold broadcast_dim, bzip.
  destruct (Nat.eqb (length la) (length lb)) eqn:E.
  - intros [= <-]. apply Nat.eqb_eq in E.
    eexists; split; eauto using zip_with_length.
  - destruct (Nat.eqb (length la) 1) eqn:E1.
    + intros [= <-]. apply Nat.eqb_eq in E1.
      destruct la as [|a [|? ?]]; try discriminate.
      eexists; split; eauto. now rewrite length_map.
    + destruct (Nat.eqb (length lb) 1) eqn:E2; try discriminate.
      intros [= <-]. apply Nat.eqb_eq in E2.
      destruct lb as [|b [|? ?]]; try discriminate.
      destruct la as [|a [|a' la]]; simpl in *; try discriminate;
        eexists; split; eauto; simpl; now rewrite ?length_map.
Qed.

Lemma bzip_Forall {A B C} (g : A -> B -> C) (P : A -> Prop) (Q : B -> Prop)
  (S : C -> Prop) la lb n :
  broadcast_dim (length la) (length lb) = Some n ->
  Forall P la -> Forall Q lb ->
  (forall a b, P a -> Q b -> S (g a b)) ->
  exists lc, bzip g la lb = Some lc /\ length lc = n /\ Forall S lc.
Proof.
  intros Hd HP HQ HS.
  destruct (bzip_length g la lb n Hd) as (lc & Hlc & Hn).
  exists lc; repeat split; auto.
  unfold bzip in Hlc.
  destruct (Nat.eqb (length la) (length lb)) eqn:E.
  - injection Hlc as <-. clear Hd Hn E.
    revert lb HQ; induction HP as [|a la Ha _ IH]; intros lb HQ; simpl; auto.
    destruct HQ as [|b lb Hb HQ]; auto.
  - destruct la as [|a [|a' la]]; destruct lb as [|b [|b' lb]];
      try discriminate; injection Hlc as <-;
      repeat match goal with
             | H : Forall _ (_ :: _) |- _ => inversion H; subst; clear H
             end;
      rewrite ?Forall_map; simpl; repeat constructor; auto;
      rewrite ?Forall_map;
      match goal with
      | H : Forall _ ?l |- Forall _ ?l =>
          eapply Forall_impl; [|exact H]; simpl; auto
      end.
Qed.

Lemma has_shape_amap {A B} (f : A -> B) a sh :
  has_shape a sh -> has_shape (amap f a) sh.
Proof.
  destruct a as [x|v|m]; destruct sh as [|p [|n [|? ?]]]; simpl; auto.
  - now rewrite length_map.
  - intros [Hp Hn]. rewrite length_map. split; auto.
    rewrite Forall_map. eapply Forall_impl; [|exact Hn].
    intros r Hr; simpl. now rewrite length_map.
Qed.

Lemma broadcast_shapes_nil_l sh : broadcast_shapes [] sh = Some sh.
Proof. unfold broadcast_shapes; simpl. now rewrite rev_involutive. Qed.

Lemma broadcast_shapes_nil_r sh : broadcast_shapes sh [] = Some sh.
Proof.
  unfold broadcast_shapes. change (rev (@nil nat)) with (@nil nat).
  destruct (rev sh) eqn:E; cbn [broadcast_shapes_rev omap].
  - apply (f_equal (@rev nat)) in E. rewrite rev_involutive in E.
    now subst.
  - now rewrite <- E, rev_involutive.
Qed.

Lemma broadcast_dim_refl n : broadcast_dim n n = Some n.
Proof. unfold broadcast_dim. now rewrite Nat.eqb_refl. Qed.

Lemma broadcast_shapes_refl a sh :
  @has_shape R a sh -> broadcast_shapes sh sh = Some sh.
Proof.
  destruct a; destruct sh as [|p [|n [|? ?]]]; simpl; try tauto; intros _;
    unfold broadcast_shapes; simpl; now rewrite ?broadcast_dim_refl.
Qed.

(** A broadcast succeeds whenever the shapes of its arguments agree, and it
    yields an array of the joint shape. *)
Lemma map2_shape {A B C} (f : A -> B -> C) a b sa sb sc :
  has_shape a sa -> has_shape b sb -> broadcast_shapes sa sb = Some sc ->
  exists c, map2 f a b = Some c /\ has_shape c sc.
Proof.
  intros Ha Hb Hs.
  destruct a as [x|u|m].
  - destruct sa; try (destruct b; contradiction).
    rewrite broadcast_shapes_nil_l in Hs. injection Hs as <-.
    eexists; split; [reflexivity|]. now apply has_shape_amap.
  - destruct b as [y|v|n].
    + destruct sb; [|simpl in Hb; contradiction].
      rewrite broadcast_shapes_nil_r in Hs. injection Hs as <-.
      eexists; split; [reflexivity|]. now apply (has_shape_amap _ (Vec u)).
    + destruct sa as [|p [|? ?]]; try contradiction.
      destruct sb as [|q [|? ?]]; try contradiction.
      simpl in Ha, Hb. subst p q.
      unfold broadcast_shapes in Hs; simpl in Hs.
      destruct (broadcast_dim (length u) (length v)) as [d|] eqn:Hd;
        try discriminate.
      injection Hs as <-.
      destruct (bzip_length f u v d Hd) as (lc & Hlc & Hn).
      exists (Vec lc). simpl. now rewrite Hlc.
    + destruct sa as [|p [|? ?]]; try contradiction.
      destruct sb as [|q [|k [|? ?]]]; try contradiction.
      simpl in Ha. destruct Hb as [Hq Hk]. subst p q.
      unfold broadcast_shapes in Hs; simpl in Hs.
      destruct (broadcast_dim (length u) k) as [d|] eqn:Hd; try discriminate.
      injection Hs as <-.
      destruct (sequence_Forall (fun r => length r = d)
                  (map (fun r => bzip f u r) n)) as (rs & Hrs & Hl & HF).
      { rewrite Forall_map. eapply Forall_impl; [|exact Hk].
        intros r Hr; simpl. rewrite <- Hr in Hd.
        destruct (bzip_length f u r d Hd) as (lc & ? & ?); eauto. }
      exists (Mat rs). simpl. rewrite Hrs. simpl.
      rewrite length_map in Hl. auto.
  - destruct sa as [|p [|k [|? ?]]]; try contradiction.
    destruct Ha as [Hp Hk]. subst p.
    destruct b as [y|v|n].
    + destruct sb; [|simpl in Hb; contradiction].
      rewrite broadcast_shapes_nil_r in Hs. injection Hs as <-.
      eexists; split; [reflexivity|].
      apply (has_shape_amap _ (Mat m)). simpl; auto.
    + destruct sb as [|q [|? ?]]; try contradiction.
      simpl in Hb. subst q.
      unfold broadcast_shapes in Hs; simpl in Hs.
      destruct (broadcast_dim k (length v)) as [d|] eqn:Hd; try discriminate.
      injection Hs as <-.
      destruct (sequence_Forall (fun r => length r = d)
                  (map (fun r => bzip f r v) m)) as (rs & Hrs & Hl & HF).
      { rewrite Forall_map. eapply Forall_impl; [|exact Hk].
        intros r Hr; simpl. rewrite <- Hr in Hd.
        destruct (bzip_length f r v d Hd) as (lc & ? & ?); eauto. }
      exists (Mat rs). simpl. rewrite Hrs. simpl.
      rewrite length_map in Hl. auto.
    + destruct sb as [|q [|k' [|? ?]]]; try contradiction.
      destruct Hb as [Hq Hk']. subst q.
      unfold broadcast_shapes in Hs; simpl in Hs.
      destruct (broadcast_dim (length m) (length n)) as [d1|] eqn:Hd1;
        try discriminate.
      destruct (broadcast_dim k k') as [d2|] eqn:Hd2; try discriminate.
      simpl in Hs. injection Hs as <-.
      destruct (bzip_Forall (bzip f) _ _
                  (fun o => exists r, o = Some r /\ length r = d2)
                  m n d1 Hd1 Hk Hk') as (os & Hos & Hlo & HFo).
      { intros r r' Hr Hr'. rewrite <- Hr, <- Hr' in Hd2.
        destruct (bzip_length f r r' d2 Hd2) as (lc & ? & ?); eauto. }
      destruct (sequence_Forall _ os HFo) as (rs & Hrs & Hl & HF).
      exists (Mat rs). simpl. rewrite Hos. simpl. rewrite Hrs. simpl.
      split; auto. split; auto. congruence.
Qed.

Lemma broadcast_dim_comm a b n :
  broadcast_dim a b = Some n -> broadcast_dim b a = Some n.
Proof.
  unfold broadcast_dim.
  destruct (Nat.eqb a b) eqn:E.
  - apply Nat.eqb_eq in E. subst. now rewrite Nat.eqb_refl.
  - rewrite (Nat.eqb_sym b a), E.
    destruct (Nat.eqb a 1) eqn:E1; destruct (Nat.eqb b 1) eqn:E2; auto;
      try discriminate.
    apply Nat.eqb_eq in E1, E2. apply Nat.eqb_neq in E. lia.
Qed.

Lemma broadcast_shapes_rev_comm s t r :
  broadcast_shapes_rev s t = Some r -> broadcast_shapes_rev t s = Some r.
Proof.
  revert t r; induction s as [|a s IH]; intros [|b t] r; simpl; auto.
  destruct (broadcast_shapes_rev s t) as [r'|] eqn:E; try discriminate.
  rewrite (IH _ _ E).
  destruct (broadcast_dim a b) as [d|] eqn:Ed; try discriminate.
  now rewrite (broadcast_dim_comm _ _ _ Ed).
Qed.

Lemma broadcast_shapes_comm s t r :
  broadcast_shapes s t = Some r -> broadcast_shapes t s = Some r.
Proof.
  unfold broadcast_shapes.
  destruct (broadcast_shapes_rev (rev s) (rev t)) as [r'|] eqn:E;
    try discriminate.
  now rewrite (broadcast_shapes_rev_comm _ _ _ E).
Qed.

Lemma has_shape_ashape {A B} (a : arr A) (b : arr B) sh :
  has_shape a sh -> has_shape b sh -> ashape a = ashape b.
Proof.
  destruct a as [x|u|m]; destruct b as [y|v|n];
    destruct sh as [|p [|k [|? ?]]]; simpl; try tauto; try congruence.
  intros [Hp Hk] [Hq Hk'].
  destruct Hk as [|r m Hr _]; destruct Hk' as [|r' n Hr' _]; simpl in *;
    congruence.
Qed.

Lemma has_shape_full {A} (a : arr A) sh :
  has_shape a sh ->
  exists like, full (ashape a) tt = Some like /\ has_shape like sh.
Proof.
  destruct a as [x|u|m]; destruct sh as [|p [|k [|? ?]]]; simpl; try tauto.
  - eauto.
  - intros <-. eexists; split; eauto. simpl. apply repeat_length.
  - intros [<- Hk]. eexists; split; eauto. simpl.
    rewrite repeat_length. split; auto.
    destruct Hk as [|r m Hr _]; simpl; constructor.
    + now rewrite repeat_length.
    + apply Forall_forall. intros l Hl. apply repeat_spec in Hl. subst l.
      now rewrite repeat_length.
Qed.

Lemma broadcast_to_shape {A B} (a : arr A) (l : arr B) sa sl :
  has_shape a sa -> has_shape l sl -> broadcast_shapes sa sl = Some sl ->
  exists r, broadcast_to a (ashape l) = Some r /\ has_shape r sl.
Proof.
  intros Ha Hl Hs. unfold broadcast_to.
  destruct (has_shape_full l sl Hl) as (like & -> & Hlike). simpl.
  destruct (map2_shape (fun x (_ : unit) => x) a like sa sl sl Ha Hlike Hs)
    as (r & -> & Hr). simpl.
  rewrite (has_shape_ashape r l sl Hr Hl).
  destruct (list_eq_dec Nat.eq_dec (ashape l) (ashape l)); [eauto|tauto].
Qed.

Lemma tabulate_shape {A} (a : arr A) sh f :
  has_shape a sh ->
  exists v, tabulate (ashape a) f = Some v /\ has_shape v sh.
Proof.
  destruct a as [x|u|m]; destruct sh as [|p [|k [|? ?]]]; simpl; try tauto.
  - eauto.
  - intros <-. eexists; split; eauto. simpl.
    now rewrite length_map, length_seq.
  - intros [<- Hk]. eexists; split; eauto. simpl.
    rewrite length_map, length_seq. split; auto.
    rewrite Forall_map. apply Forall_forall. intros i Hi.
    rewrite length_map, length_seq.
    destruct Hk as [|r m Hr _]; simpl; auto.
    apply in_seq in Hi. simpl in Hi. lia.
Qed.

(** ** The monad *)

Lemma bind_Some {A B} (c : M A) (k : A -> M B) cx h tr a tr' :
  c cx h tr = Some (a, tr') -> bind c k cx h tr = k a cx h tr'.
Proof. unfold bind. now intros ->. Qed.

Lemma walk_steps_pos T : (1 <= T)%nat -> walk_steps T = Some (T - 1)%nat.
Proof.
  intros HT. unfold walk_steps.
  destruct (Nat.eqb_spec T 0) as [->|_]; [lia|reflexivity].
Qed.

Lemma walk_steps_inv {A} T (f : nat -> option A) a :
  obind (walk_steps T) f = Some a -> f (T - 1)%nat = Some a.
Proof.
  unfold walk_steps. destruct (Nat.eqb T 0); [discriminate|]. auto.
Qed.

Lemma bind_inv {A B} (c : M A) (k : A -> M B) cx h tr r :
  bind c k cx h tr = Some r ->
  exists a tr', c cx h tr = Some (a, tr') /\ k a cx h tr' = Some r.
Proof.
  unfold bind. destruct (c cx h tr) as [[a tr']|]; try discriminate. eauto.
Qed.

Lemma lift_inv {A} (o : option A) cx h tr a tr' :
  lift o cx h tr = Some (a, tr') -> o = Some a /\ tr' = tr.
Proof. unfold lift. destruct o; now intros [= -> ->]. Qed.

Lemma ret_inv {A} (x : A) cx h tr a tr' :
  ret x cx h tr = Some (a, tr') -> a = x /\ tr' = tr.
Proof. unfold ret. now intros [= -> ->]. Qed.

(** ** The observation link *)

Lemma amap_amap {A B C} (f : A -> B) (g : B -> C) a :
  amap g (amap f a) = amap (fun x => g (f x)) a.
Proof.
  destruct a as [x|v|m]; simpl; auto.
  - now rewrite map_map.
  - rewrite map_map. f_equal. apply map_ext. intros r. now rewrite map_map.
Qed.

Lemma map2_scal_r {A B C} (f : A -> B -> C) a y :
  map2 f a (Scal y) = Some (amap (fun x => f x y) a).
Proof. now destruct a. Qed.

Lemma map2_amap_diag {A B C} (f : B -> A -> C) (g : A -> B) a :
  map2 f (amap g a) a = Some (amap (fun x => f (g x) x) a).
Proof.
  destruct a as [x|v|m]; simpl; auto.
  - rewrite bzip_same by now rewrite length_map.
    now rewrite zip_with_map_l, zip_with_diag.
  - rewrite bzip_same by now rewrite length_map.
    rewrite zip_with_map_l, zip_with_diag. simpl.
    rewrite (map_ext _ (fun r => Some (map (fun x => f (g x) x) r))).
    + now rewrite sequence_map_Some.
    + intros r. rewrite bzip_same by now rewrite length_map.
      now rewrite zip_with_map_l, zip_with_diag.
Qed.

(** The replacement of the non-finite observations. *)
Lemma where_isfinite (o : arr fl) :
  where_ (amap isfinite o) o (Scal (Fin 0))
  = Some (amap (fun e => if isfinite e then e else Fin 0) o).
Proof.
  unfold where_. rewrite map2_amap_diag. simpl.
  rewrite map2_scal_r. now rewrite amap_amap.
Qed.

Lemma reals_of_replaced (o : arr fl) :
  reals_of (amap (fun e => if isfinite e then e else Fin 0) o)
  = Some (amap finite_or_zero o).
Proof.
  assert (E : forall e, real_of (if isfinite e then e else Fin 0)
                        = Some (finite_or_zero e)) by now intros [].
  destruct o as [x|v|m]; simpl.
  - now rewrite E.
  - rewrite map_map, (map_ext _ _ E). now rewrite sequence_map_Some.
  - rewrite map_map.
    rewrite (map_ext _ (fun r => Some (map finite_or_zero r))).
    + now rewrite sequence_map_Some.
    + intros r. rewrite map_map, (map_ext _ _ E).
      now rewrite sequence_map_Some.
Qed.



(** What one call of the link does, step by step: the regularised latent
    value, the detection rate stretched over it, their product the mean, the
    two sites it records, and the value it returns. *)
Lemma observe_normal_runs name latent det_rate s obs cx h tr shL shD :
  has_shape latent shL -> has_shape det_rate shD ->
  broadcast_shapes shL shD = Some shL -> cx_plate cx = None ->
  exists shift latent' rate' mean y,
    div (Scal 0.5) det_rate = Some shift /\
    add latent shift = Some latent' /\
    broadcast_to det_rate (ashape latent') = Some rate' /\
    mul rate' latent' = Some mean /\
    has_shape mean shL /\
    _observe_normal name latent det_rate (Scal s) obs cx h tr
    = Some (y, (tr ++ [mean_site name mean])
               ++ [link_site name mean
                             (amap (fun m => s * m + 1) mean) y obs]) /\
    match obs with
    | Some o => y = amap (fun e => finite_or_zero e + 0.5) o
    | None => has_shape y shL
    end.
Proof.
  intros HL HD Hs Hcx.
  assert (Hshift : exists shift, div (Scal 0.5) det_rate = Some shift
                                 /\ has_shape shift shD).
  { eexists; split; [reflexivity|]. now apply has_shape_amap. }
  destruct Hshift as (shift & Eshift & Hshift).
  destruct (map2_shape Rplus latent shift shL shD shL HL Hshift Hs)
    as (latent' & Elat & Hlat).
  destruct (broadcast_to_shape det_rate latent' shD shL HD Hlat
              (broadcast_shapes_comm _ _ _ Hs)) as (rate' & Erate & Hrate).
  destruct (map2_shape Rmult rate' latent' shL shL shL Hrate Hlat
              (broadcast_shapes_refl _ _ Hlat)) as (mean & Emean & Hmean).
  assert (Escale : obind (mul (Scal s) mean) (fun noise => add noise (Scal 1))
                   = Some (amap (fun m => s * m + 1) mean)).
  { simpl. unfold add. rewrite map2_scal_r. now rewrite amap_amap. }
  set (scale := amap (fun m => s * m + 1) mean) in *.
  assert (Hscale : has_shape scale shL) by now apply has_shape_amap.
  assert (Hy : exists y,
    with_mask
      (Some (match obs with Some o => amap isfinite o | None => Scal true end))
      (Scal true)
      (sample name (Normal mean scale)
         (match obs with
          | Some o => Some (amap (fun e => finite_or_zero e + 0.5) o)
          | None => None
          end) []) cx h (tr ++ [mean_site name mean])
    = Some (y, (tr ++ [mean_site name mean])
               ++ [link_site name mean scale y obs]) /\
    match obs with
    | Some o => y = amap (fun e => finite_or_zero e + 0.5) o
    | None => has_shape y shL
    end).
  { destruct obs as [o|].
    - eexists; split; [reflexivity|reflexivity].
    - unfold with_mask, sample, draw_shape. simpl. rewrite Hcx.
      rewrite (has_shape_ashape scale mean shL Hscale Hmean).
      assert (Hb : broadcast_shapes (ashape mean) (ashape mean)
                   = Some (ashape mean)).
      { clear - Hmean. destruct mean as [x|v|m]; unfold broadcast_shapes;
          simpl; now rewrite ?broadcast_dim_refl. }
      rewrite Hb. simpl. rewrite app_nil_r.
      destruct (tabulate_shape mean shL (h name) Hmean) as (v & -> & Hv).
      simpl. exists v. split; [reflexivity|assumption]. }
  destruct Hy as (y & Ey & Hyspec).
  exists shift, latent', rate', mean, y.
  repeat (split; [assumption|]). split; [|assumption].
  unfold _observe_normal.
  rewrite (bind_Some _ _ _ _ _ shift tr) by now rewrite Eshift.
  rewrite (bind_Some _ _ _ _ _ latent' tr) by (unfold add; now rewrite Elat).
  rewrite (bind_Some _ _ _ _ _
             (match obs with Some o => amap isfinite o | None => Scal true end,
              match obs with
              | Some o => Some (amap (fun e => finite_or_zero e + 0.5) o)
              | None => None
              end) tr).
  2:{ destruct obs as [o|]; [|reflexivity].
      rewrite (bind_Some _ _ _ _ _ _ tr)
        by (rewrite where_isfinite; reflexivity).
      rewrite (bind_Some _ _ _ _ _ _ tr)
        by (rewrite reals_of_replaced; reflexivity).
      rewrite (bind_Some _ _ _ _ _
                 (amap (fun e => finite_or_zero e + 0.5) o) tr).
      - reflexivity.
      - unfold add. rewrite map2_scal_r, amap_amap. reflexivity. }
  rewrite (bind_Some _ _ _ _ _ rate' tr) by now rewrite Erate.
  rewrite (bind_Some _ _ _ _ _ mean tr) by (unfold mul; now rewrite Emean).
  simpl in Escale.
  rewrite (bind_Some _ _ _ _ _ (amap (Rmult s) mean) tr) by reflexivity.
  rewrite (bind_Some _ _ _ _ _ scale tr) by now rewrite Escale.
  rewrite (bind_Some _ _ _ _ _ tt (tr ++ [mean_site name mean]))
    by reflexivity.
  rewrite (bind_Some _ _ _ _ _ y _ Ey). reflexivity.
Qed.


Lemma zip_with_map_r {A B B' C} (f : A -> B' -> C) (g : B -> B') la lb :
  zip_with f la (map g lb) = zip_with (fun a b => f a (g b)) la lb.
Proof.
  revert lb; induction la as [|a la IH]; intros [|b lb]; simpl; auto.
  now rewrite IH.
Qed.

Lemma map_zip_with {A B C D} (f : A -> B -> C) (g : C -> D) la lb :
  map g (zip_with f la lb) = zip_with (fun a b => g (f a b)) la lb.
Proof.
  revert lb; induction la as [|a la IH]; intros [|b lb]; simpl; auto.
  now rewrite IH.
Qed.

Lemma zip_with_zip_r {A B C D} (f : B -> C -> D) (g : A -> B -> C) la lb :
  length la = length lb ->
  zip_with f lb (zip_with g la lb) = zip_with (fun a b => f b (g a b)) la lb.
Proof.
  revert lb; induction la as [|a la IH]; intros [|b lb]; simpl; auto;
    try discriminate.
  intros [= H]. now rewrite IH.
Qed.

Lemma zip_with_ext_in {A B C} (f g : A -> B -> C) la lb :
  (forall a b, In a la -> In b lb -> f a b = g a b) ->
  zip_with f la lb = zip_with g la lb.
Proof.
  revert lb; induction la as [|a la IH]; intros [|b lb] H; simpl; auto.
  rewrite H by (simpl; auto). f_equal. apply IH. intros; apply H; simpl; auto.
Qed.

Lemma zip_with_sequence {A B C} (f : A -> B -> C) (m : list (list A))
  (n : list (list B)) k :
  Forall (fun r => length r = k) m -> Forall (fun r => length r = k) n ->
  sequence (zip_with (bzip f) m n) = Some (zip_with (zip_with f) m n).
Proof.
  intros Hm; revert n; induction Hm as [|r m Hr _ IH]; intros n Hn; simpl;
    auto.
  destruct Hn as [|r' n Hr' Hn]; simpl; auto.
  rewrite bzip_same by congruence. now rewrite IH.
Qed.

(** On two arrays of one shape a broadcast works entry by entry. *)
Lemma map2_same {A B C} (f : A -> B -> C) a b sh :
  has_shape a sh -> has_shape b sh -> map2 f a b = Some (azip f a b).
Proof.
  destruct a as [x|u|m]; destruct b as [y|v|n];
    destruct sh as [|p [|k [|? ?]]]; simpl; try tauto.
  - intros <- Hv. now rewrite bzip_same.
  - intros [<- Hm] [Hp Hn]. rewrite bzip_same by auto. simpl.
    now rewrite (zip_with_sequence f m n k).
Qed.

Lemma has_shape_azip {A B C} (f : A -> B -> C) a b sh :
  has_shape a sh -> has_shape b sh -> has_shape (azip f a b) sh.
Proof.
  intros Ha Hb.
  destruct (map2_shape f a b sh sh sh Ha Hb) as (c & Hc & Hs).
  - destruct a as [x|u|m]; destruct sh as [|p [|k [|? ?]]];
      try contradiction; unfold broadcast_shapes; simpl;
      now rewrite ?broadcast_dim_refl.
  - rewrite (map2_same f a b sh Ha Hb) in Hc. now injection Hc as <-.
Qed.

Lemma azip_amap_l {A A' B C} (f : A' -> B -> C) (g : A -> A') a b :
  azip f (amap g a) b = azip (fun x y => f (g x) y) a b.
Proof.
  destruct a as [x|u|m]; destruct b as [y|v|n]; simpl; auto.
  - now rewrite zip_with_map_l.
  - rewrite zip_with_map_l. f_equal. apply zip_with_ext_in.
    intros r r' _ _. apply zip_with_map_l.
Qed.

Lemma azip_amap_r {A B B' C} (f : A -> B' -> C) (g : B -> B') a b :
  azip f a (amap g b) = azip (fun x y => f x (g y)) a b.
Proof.
  destruct a as [x|u|m]; destruct b as [y|v|n]; simpl; auto.
  - now rewrite zip_with_map_r.
  - rewrite zip_with_map_r. f_equal. apply zip_with_ext_in.
    intros r r' _ _. apply zip_with_map_r.
Qed.

Lemma amap_azip {A B C D} (f : A -> B -> C) (g : C -> D) a b :
  amap g (azip f a b) = azip (fun x y => g (f x y)) a b.
Proof.
  destruct a as [x|u|m]; destruct b as [y|v|n]; simpl; auto.
  - now rewrite map_zip_with.
  - rewrite map_zip_with. f_equal. apply zip_with_ext_in.
    intros r r' _ _. apply map_zip_with.
Qed.

Lemma azip_azip_r {A B C D} (f : B -> C -> D) (g : A -> B -> C) a b sh :
  has_shape a sh -> has_shape b sh ->
  azip f b (azip g a b) = azip (fun x y => f y (g x y)) a b.
Proof.
  destruct a as [x|u|m]; destruct b as [y|v|n];
    destruct sh as [|p [|k [|? ?]]]; simpl; try tauto.
  - intros <- Hv. now rewrite zip_with_zip_r.
  - intros [<- Hm] [Hp Hn]. f_equal.
    rewrite zip_with_zip_r by auto.
    apply zip_with_ext_in. intros r r' Hr Hr'.
    apply zip_with_zip_r.
    rewrite Forall_forall in Hm, Hn.
    now rewrite (Hm _ Hr), (Hn _ Hr').
Qed.

Lemma zip_with_const_l {A B C} (g : B -> C) (la : list A) lb :
  length la = length lb -> zip_with (fun _ y => g y) la lb = map g lb.
Proof.
  revert lb; induction la as [|a la IH]; intros [|b lb]; simpl; auto;
    try discriminate.
  intros [= H]. now rewrite IH.
Qed.

Lemma azip_const_l {A B C} (g : B -> C) (a : arr A) b sh :
  has_shape a sh -> has_shape b sh -> azip (fun _ y => g y) a b = amap g b.
Proof.
  destruct a as [x|u|m]; destruct b as [y|v|n];
    destruct sh as [|p [|k [|? ?]]]; simpl; try tauto.
  - intros <- Hv. now rewrite zip_with_const_l.
  - intros [<- Hm] [Hp Hn]. f_equal.
    rewrite <- (zip_with_const_l (map g) m n) by auto.
    apply zip_with_ext_in. intros r r' Hr Hr'.
    apply zip_with_const_l.
    rewrite Forall_forall in Hm, Hn.
    now rewrite (Hm _ Hr), (Hn _ Hr').
Qed.

(** With one detection rate for all entries, the mean the link computes is
    the rate times the regularised latent value, entry by entry. *)
Lemma scalar_rate_mean latent sh r shift latent' rate' mean :
  has_shape latent sh ->
  div (Scal 0.5) (Scal r) = Some shift ->
  add latent shift = Some latent' ->
  broadcast_to (Scal r) (ashape latent') = Some rate' ->
  mul rate' latent' = Some mean ->
  mean = amap (fun x => r * (x + 0.5 / r)) latent.
Proof.
  intros HL [= <-]. unfold add. rewrite map2_scal_r. intros [= <-].
  assert (HL' : has_shape (amap (fun x => x + 0.5 / r) latent) sh)
    by now apply has_shape_amap.
  unfold broadcast_to.
  destruct (has_shape_full _ sh HL') as (like & -> & Hlike).
  cbn [obind map2].
  destruct (list_eq_dec _ _ _); try discriminate. intros [= <-].
  unfold mul.
  rewrite (map2_same Rmult _ _ sh) by (auto using has_shape_amap).
  intros [= <-].
  rewrite azip_amap_l.
  rewrite (azip_const_l (Rmult r) like _ sh Hlike HL').
  now rewrite amap_amap.
Qed.

(** C1.  For a latent array, a detection rate [r > 0], any noise scale and
    any observed array or none, [observe] records under ["mean_" + name] the
    array whose entries are [r * (x + 0.5 / r)] for the entries [x] of the
    latent array, that is [r * x + 0.5]; the recorded site does not depend on
    the observed array, so what is masked out has no part in it. *)
Theorem observe_records_mean name latent sh r s obs cx h tr :
  has_shape latent sh -> 0 < r -> cx_plate cx = None ->
  exists y link,
    observe name latent (Scal r) (Scal s) obs cx h tr
    = Some (y, tr ++ [mean_site name
                        (amap (fun x => r * (x + 0.5 / r)) latent); link])
    /\ s_name link = name
    /\ s_name (mean_site name (amap (fun x => r * (x + 0.5 / r)) latent))
       = ("mean_" ++ name)%string
    /\ amap (fun x => r * (x + 0.5 / r)) latent
       = amap (fun x => r * x + 0.5) latent.
Proof.
  intros HL Hr Hcx.
  destruct (observe_normal_runs name latent (Scal r) s obs cx h tr sh []
              HL I (broadcast_shapes_nil_r sh) Hcx)
    as (shift & latent' & rate' & mean & y & E1 & E2 & E3 & E4 & _ & Erun & _).
  rewrite (scalar_rate_mean latent sh r shift latent' rate' mean HL E1 E2 E3 E4)
    in Erun.
  eexists y, _. unfold observe. rewrite Erun, <- app_assoc.
  repeat split.
  destruct latent as [x|v|m]; simpl; f_equal;
    try (apply map_ext; intros); try (apply map_ext; intros);
    field; lra.
Qed.

Lemma observe_records_mean_witness :
  exists y link,
    observe "y" (Vec [1; 2; 3]) (Scal (1 / 2)) (Scal 0.15)
            (Some (Vec [NaN; Fin 5; NaN])) top_context (fun _ _ => 0) []
    = Some (y, [] ++ [mean_site "y"
                        (amap (fun x => 1 / 2 * (x + 0.5 / (1 / 2)))
                              (Vec [1; 2; 3])); link])
    /\ s_name link = "y"
    /\ s_name (mean_site "y" (amap (fun x => 1 / 2 * (x + 0.5 / (1 / 2)))
                                   (Vec [1; 2; 3])))
       = ("mean_" ++ "y")%string
    /\ amap (fun x => 1 / 2 * (x + 0.5 / (1 / 2))) (Vec [1; 2; 3])
       = amap (fun x => 1 / 2 * x + 0.5) (Vec [1; 2; 3]).
Proof.
  apply (observe_records_mean "y" (Vec [1; 2; 3]) [3%nat] (1 / 2) 0.15).
  - reflexivity.
  - lra.
  - reflexivity.
Defined.

Lemma azip_diag {A C} (f : A -> A -> C) a :
  azip f a a = amap (fun x => f x x) a.
Proof.
  destruct a as [x|v|m]; simpl; auto.
  - now rewrite zip_with_diag.
  - rewrite zip_with_diag. f_equal. apply map_ext. intros r.
    apply zip_with_diag.
Qed.

Lemma azip_ext {A B C} (f g : A -> B -> C) a b :
  (forall x y, f x y = g x y) -> azip f a b = azip g a b.
Proof.
  intros H. destruct a as [x|u|m]; destruct b as [y|v|n]; simpl; auto.
  - now rewrite H.
  - f_equal. apply zip_with_ext_in. auto.
  - f_equal. apply zip_with_ext_in. intros r r' _ _.
    apply zip_with_ext_in. auto.
Qed.


Lemma amap_id {A} (a : arr A) : amap (fun x => x) a = a.
Proof.
  destruct a as [x|v|m]; simpl; f_equal.
  - apply map_id.
  - rewrite <- (map_id m) at 2. apply map_ext. intros r. apply map_id.
Qed.

Lemma where_true {A} (x : arr A) (w : A) :
  where_ (Scal true) x (Scal w) = Some x.
Proof.
  unfold where_. cbn [map2 obind]. rewrite map2_scal_r, amap_amap.
  cbn [fst snd]. now rewrite amap_id.
Qed.

(** The link site of a supplied observed array is scored on every entry.
    The mask [isfinite(observed)] goes to the handler as [fn], so the site
    keeps the mask [True]; its value has 0 in place of every non-finite
    entry and 0.5 added to all entries; and its score is the sum of the log
    densities of all the entries, the placeholders among them. *)
Lemma observe_scores_every_entry name latent o sh r s cx h tr :
  has_shape latent sh -> has_shape o sh -> cx_plate cx = None ->
  exists y link,
    observe name latent (Scal r) (Scal s) (Some o) cx h tr
    = Some (y, tr ++ [mean_site name
                        (amap (fun x => r * (x + 0.5 / r)) latent); link])
    /\ s_name link = name
    /\ s_is_observed link = true
    /\ s_mask link = Scal true
    /\ s_value link = VReal y
    /\ y = amap (fun e => finite_or_zero e + 0.5) o
    /\ site_log_prob link
       = Some (asum (azip (scored_entry r s) latent o)).
Proof.
  intros HL Ho Hcx.
  destruct (observe_normal_runs name latent (Scal r) s (Some o) cx h tr sh []
              HL I (broadcast_shapes_nil_r sh) Hcx)
    as (shift & latent' & rate' & mean & y & E1 & E2 & E3 & E4 & _ & Erun & Ey).
  rewrite (scalar_rate_mean latent sh r shift latent' rate' mean HL E1 E2 E3 E4)
    in Erun.
  eexists y, _. unfold observe. rewrite Erun, <- app_assoc.
  split; [reflexivity|]. repeat (split; [reflexivity|]).
  split; [exact Ey|].
  subst y. unfold site_log_prob, link_site. cbn [s_fn s_value s_mask].
  set (mu := fun x => r * (x + 0.5 / r)).
  set (c := fun e => finite_or_zero e + 0.5).
  assert (Hmean : has_shape (amap mu latent) sh) by now apply has_shape_amap.
  rewrite (map2_same _ _ _ sh) by (auto using has_shape_amap).
  cbn [obind].
  rewrite (map2_same _ _ _ sh)
    by (auto using has_shape_amap, has_shape_azip).
  cbn [obind]. rewrite where_true. cbn [obind]. do 2 f_equal.
  rewrite ?amap_amap, ?azip_amap_l, ?azip_amap_r, azip_diag.
  rewrite ?azip_amap_l, ?azip_amap_r. apply azip_ext.
  intros x e. reflexivity.
Qed.

(** The log density of a Normal distribution of scale 1 or more is below
    zero everywhere. *)
Lemma Normal_log_prob_negative loc scale v :
  1 <= scale -> Normal_log_prob loc scale v < 0.
Proof.
  intros Hs. unfold Normal_log_prob.
  assert (H1 : 0 <= (v - loc) ^ 2 / (2 * scale ^ 2)).
  { apply Rmult_le_pos; [apply pow2_ge_0|].
    apply Rlt_le, Rinv_0_lt_compat. nra. }
  assert (H2 : 0 <= ln scale).
  { destruct (Req_dec scale 1) as [->|Hne]; [rewrite ln_1; lra|].
    rewrite <- ln_1. apply Rlt_le, ln_increasing; lra. }
  assert (H3 : 0 < ln (sqrt (2 * PI))).
  { rewrite <- ln_1. apply ln_increasing; [lra|].
    rewrite <- sqrt_1 at 1. apply sqrt_lt_1_alt.
    pose proof PI2_1. lra. }
  lra.
Qed.

(** C2.  On the observations [NaN, 5.0, NaN] the code builds the mask
    [False, True, False] and the value [0.5, 5.5, 0.5], but records the site
    under the mask [True]: the score of the site is the sum of the three log
    densities, and so lies below the score of the middle entry alone, which
    is what the score would be if the two placeholders were left out. *)
Example observe_nan_5_nan :
  amap isfinite (Vec [NaN; Fin 5; NaN]) = Vec [false; true; false] /\
  exists link score,
    observe "y" (Vec [1; 2; 3]) (Scal (1 / 2)) (Scal 0.15)
            (Some (Vec [NaN; Fin 5; NaN])) top_context (fun _ _ => 0) []
    = Some (Vec [0 + 0.5; 5 + 0.5; 0 + 0.5],
            [mean_site "y" (amap (fun x => 1 / 2 * (x + 0.5 / (1 / 2)))
                                 (Vec [1; 2; 3])); link]) /\
    s_mask link = Scal true /\
    site_log_prob link = Some score /\
    score
    = Normal_log_prob (1 / 2 * (1 + 0.5 / (1 / 2)))
        (0.15 * (1 / 2 * (1 + 0.5 / (1 / 2))) + 1) (0 + 0.5)
      + (Normal_log_prob (1 / 2 * (2 + 0.5 / (1 / 2)))
           (0.15 * (1 / 2 * (2 + 0.5 / (1 / 2))) + 1) (5 + 0.5)
         + (Normal_log_prob (1 / 2 * (3 + 0.5 / (1 / 2)))
              (0.15 * (1 / 2 * (3 + 0.5 / (1 / 2))) + 1) (0 + 0.5) + 0)) /\
    score < asum (azip (entry_score (1 / 2) 0.15) (Vec [1; 2; 3])
                       (Vec [NaN; Fin 5; NaN])).
Proof.
  split; [reflexivity|].
  destruct (observe_scores_every_entry "y" (Vec [1; 2; 3])
              (Vec [NaN; Fin 5; NaN]) [3%nat] (1 / 2) 0.15 top_context
              (fun _ _ => 0) [] eq_refl eq_refl eq_refl)
    as (y & link & Erun & _ & _ & Hmask & _ & Ey & Hscore).
  subst y. exists link. eexists. split; [exact Erun|].
  split; [exact Hmask|]. split; [exact Hscore|]. split; [reflexivity|].
  unfold asum. cbn [azip zip_with ravel fold_right scored_entry entry_score
                    finite_or_zero].
  pose proof (Normal_log_prob_negative (1 / 2 * (1 + 0.5 / (1 / 2)))
                (0.15 * (1 / 2 * (1 + 0.5 / (1 / 2))) + 1) (0 + 0.5)
                ltac:(lra)).
  pose proof (Normal_log_prob_negative (1 / 2 * (3 + 0.5 / (1 / 2)))
                (0.15 * (1 / 2 * (3 + 0.5 / (1 / 2))) + 1) (0 + 0.5)
                ltac:(lra)).
  unfold scored_entry, finite_or_zero. lra.
Qed.

(** ** The exponentiated random walk *)

Lemma bzip_singleton_r {A B C} (f : A -> B -> C) la b :
  bzip f la [b] = Some (map (fun a => f a b) la).
Proof.
  unfold bzip. destruct la as [|a [|a' la]]; reflexivity.
Qed.

Lemma cumsum_from_length acc l : length (cumsum_from acc l) = length l.
Proof. revert acc; induction l as [|x l IH]; intros acc; simpl; auto. Qed.

Lemma has_shape_cumsum a sh : has_shape a sh -> has_shape (cumsum a) sh.
Proof.
  destruct a as [x|v|m]; destruct sh as [|p [|n [|? ?]]]; simpl; auto.
  - now rewrite cumsum_from_length.
  - intros [Hp Hn]. rewrite length_map. split; auto.
    rewrite Forall_map. eapply Forall_impl; [|exact Hn].
    intros r Hr; simpl. now rewrite cumsum_from_length.
Qed.

(** A walk with at least one step can be drawn, and the draw has the shape
    of the variates it is built from. *)
Lemma ExponentialRandomWalk_sample_shape loc rw dr n raw shl sh :
  (0 < n)%nat -> has_shape loc shl ->
  broadcast_shapes shl [n] = Some sh -> broadcast_shapes sh [1%nat] = Some sh ->
  has_shape raw sh ->
  exists d v,
    ExponentialRandomWalk loc (Scal rw) (Scal dr) n = Some d /\
    batch_shape d = Some [] /\ event_shape d = [n] /\
    dist_sample d raw = Some v /\ has_shape v sh.
Proof.
  intros Hn Hloc Hsh Hsh1 Hraw. unfold ExponentialRandomWalk.
  cbn [mul map2 obind].
  assert (Hsteps : has_shape (amap (Rmult dr) (arange n)) [n]).
  { simpl. now rewrite !length_map, length_seq. }
  destruct (map2_shape Rplus (amap ln loc) _ shl [n] sh
              (has_shape_amap _ _ _ Hloc) Hsteps Hsh) as (log_loc & E & Hlog).
  unfold add at 1. rewrite E. cbn [obind].
  destruct (map2_shape Rmult (cumsum raw) (Vec [rw]) sh [1%nat] sh
              (has_shape_cumsum _ _ Hraw) eq_refl Hsh1) as (w & Ew & Hw).
  destruct (map2_shape Rplus log_loc (amap (Rmult 1) w) sh sh sh Hlog
              (has_shape_amap _ _ _ Hw) (broadcast_shapes_refl _ _ Hlog))
    as (a & Ea & Ha).
  eexists _, (amap exp a). split; [reflexivity|].
  split; [reflexivity|]. split; [reflexivity|]. split.
  - cbn [dist_sample expand_dims obind]. unfold mul at 1. rewrite Ew.
    cbn [obind apply_transforms apply_transform mul map2].
    unfold add. now rewrite Ea.
  - now apply has_shape_amap.
Qed.

(** ** The single-region model *)


Section ModelProperties.

Context {SEIRModel : CompartmentModel}.


Lemma sample_walk_runs name loc rw dr n shl sh cx h tr :
  (0 < n)%nat -> has_shape loc shl ->
  broadcast_shapes shl [n] = Some sh -> broadcast_shapes sh [1%nat] = Some sh ->
  match cx_plate cx with
  | Some (_, p) => sh = [p; n]
  | None => sh = [n]
  end ->
  exists d v,
    ExponentialRandomWalk loc (Scal rw) (Scal dr) n = Some d /\
    sample name d None [] cx h tr
    = Some (v, tr ++ [mkSite name SampleSite (Some d) (VReal v) false
                             (cx_mask cx)]) /\
    has_shape v sh.
Proof.
  intros Hn Hloc Hsh Hsh1 Hcx.
  assert (Hraw : exists raw, tabulate sh (h name) = Some raw
                             /\ has_shape raw sh).
  { destruct (cx_plate cx) as [[? p]|]; subst sh; eexists; split;
      try reflexivity; simpl; rewrite ?length_map, ?length_seq; auto.
    split; auto. rewrite Forall_map. apply Forall_forall. intros i _.
    now rewrite length_map, length_seq. }
  destruct Hraw as (raw & Eraw & Hraw).
  destruct (ExponentialRandomWalk_sample_shape loc rw dr n raw shl sh
              Hn Hloc Hsh Hsh1 Hraw) as (d & v & Ed & Eb & Ee & Ev & Hv).
  exists d, v. split; [assumption|]. split; [|assumption].
  unfold sample, draw_shape. rewrite Eb, Ee. cbn [obind].
  destruct (cx_plate cx) as [[? p]|]; subst sh; cbn [obind app];
    [change (broadcast_shapes [] [p]) with (Some [p]); cbn [obind app]|];
    rewrite Eraw; cbn [obind]; now rewrite Ev.
Qed.

Lemma broadcast_dim_one_r n : broadcast_dim n 1 = Some n.
Proof. unfold broadcast_dim. destruct (Nat.eqb n 1) eqn:E; auto. Qed.

Lemma broadcast_shapes_vec_one n : broadcast_shapes [n] [1%nat] = Some [n].
Proof.
  unfold broadcast_shapes. simpl. now rewrite broadcast_dim_one_r.
Qed.

Lemma broadcast_shapes_mat_one p n :
  broadcast_shapes [p; n] [1%nat] = Some [p; n].
Proof.
  unfold broadcast_shapes. simpl. now rewrite broadcast_dim_one_r.
Qed.

(** One segment of the dynamics: [T - 1] transmission rates, [T - 1] states
    after the initial one, an observation for each of them, and, without the
    hospitalisation sub-model, as many zeros. *)
Lemma SEIR_dynamics_runs T b0 sg gm rw dr r dn hr hn x0 obs hosp use_hosp
  suffix cx h tr :
  (2 <= T)%nat -> cx_plate cx = None ->
  exists beta x y z walk rest,
    SEIR_dynamics T (Scal b0, Scal sg, Scal gm, Scal rw, Scal dr,
                     Scal r, Scal dn, Scal hr, Scal hn)
                  x0 obs hosp use_hosp suffix cx h tr
    = Some ((Vec beta, Vec x, y, z),
            tr ++ mkSite ("beta" ++ suffix)%string SampleSite (Some walk)
                         (VReal (Vec beta)) false (cx_mask cx) :: rest) /\
    length beta = (T - 1)%nat /\
    length x = (T - 1)%nat /\
    link_value y obs [(T - 1)%nat] /\
    (if use_hosp then link_value z hosp [(T - 1)%nat]
     else z = zeros_like y).
Proof.
  intros HT Hcx.
  destruct (sample_walk_runs ("beta" ++ suffix)%string (Scal b0) rw dr
              (T - 1) [] [(T - 1)%nat] cx h tr) as (walk & v & Ew & Es & Hv);
    try reflexivity; try lia; auto using broadcast_shapes_vec_one.
  { now rewrite Hcx. }
  destruct v as [?|beta|?]; try contradiction. simpl in Hv.
  set (tr1 := tr ++ [mkSite ("beta" ++ suffix)%string SampleSite (Some walk)
                            (VReal (Vec beta)) false (cx_mask cx)]) in *.
  set (x := tl (run T x0 (beta, sg, gm))).
  assert (Hx : length x = (T - 1)%nat).
  { subst x. pose proof (run_length T x0 beta sg gm) as Hr.
    destruct (run T x0 (beta, sg, gm)); simpl in *; lia. }
  set (tr2 := tr1 ++ [mkSite ("x" ++ suffix)%string DeterministicSite None
                             (VState (Vec x)) false (Scal true)]).
  destruct (observe_normal_runs ("y" ++ suffix)%string (Vec (map comp_C x))
              (Scal r) dn obs cx h tr2 [(T - 1)%nat] [])
    as (? & ? & ? & ymean & y & _ & _ & _ & _ & _ & Ey & Hy);
    try reflexivity; auto.
  { simpl. now rewrite length_map. }
  match type of Ey with _ = Some (_, ?t) => set (tr3 := t) in * end.
  assert (Hz : exists z tr4,
    (if use_hosp
     then observe ("z" ++ suffix)%string (Vec (map comp_C x)) (Scal hr)
                  (Scal hn) hosp
     else ret (zeros_like y)) cx h tr3 = Some (z, tr4) /\
    (exists more, tr4 = tr3 ++ more) /\
    (if use_hosp then link_value z hosp [(T - 1)%nat]
     else z = zeros_like y)).
  { destruct use_hosp.
    - destruct (observe_normal_runs ("z" ++ suffix)%string
                  (Vec (map comp_C x)) (Scal hr) hn hosp cx h tr3
                  [(T - 1)%nat] [])
        as (? & ? & ? & zmean & z & _ & _ & _ & _ & _ & Ez & Hz);
        try reflexivity; auto.
      { simpl. now rewrite length_map. }
      exists z. eexists. split; [exact Ez|]. split; [|exact Hz].
      rewrite <- app_assoc. eauto.
    - exists (zeros_like y), tr3. split; [reflexivity|]. split; auto.
      exists []. now rewrite app_nil_r. }
  destruct Hz as (z & tr4 & Ez & (more & Hmore) & Hzspec).
  exists beta, x, y, z, walk. eexists.
  split; [|repeat split; assumption].
  unfold SEIR_dynamics.
  rewrite (bind_Some _ _ _ _ _ walk tr)
    by (rewrite walk_steps_pos by lia; cbn [obind]; now rewrite Ew).
  rewrite (bind_Some _ _ _ _ _ _ _ Es).
  rewrite (bind_Some _ _ _ _ _ beta tr1) by reflexivity.
  rewrite (bind_Some _ _ _ _ _ sg tr1) by reflexivity.
  rewrite (bind_Some _ _ _ _ _ gm tr1) by reflexivity.
  rewrite (bind_Some _ _ _ _ _ tt tr2) by reflexivity.
  rewrite (bind_Some _ _ _ _ _ _ _ Ey).
  rewrite (bind_Some _ _ _ _ _ _ _ Ez).
  unfold ret. rewrite Hmore. subst tr3 tr2 tr1.
  rewrite <- !app_assoc. reflexivity.
Qed.



Lemma split_first_runs obs cx h tr :
  splittable obs ->
  exists obs0 obs1,
    split_first obs cx h tr = Some ((obs0, obs1), tr) /\
    (forall y0, link_value y0 obs0 [] -> length (ravel y0) = 1%nat) /\
    forall y0 y T, (2 <= T)%nat ->
      link_value y0 obs0 [] -> link_value y obs1 [(T - 1)%nat] ->
      length (ravel y0 ++ ravel y) = series_length obs T.
Proof.
  destruct obs as [[?|[|a v]|?]|]; simpl; try tauto; intros _.
  - exists (Some (Scal a)), (Some (Vec v)). split; [reflexivity|]. split.
    + now intros y0 ->.
    + intros y0 y T _ -> ->. simpl. now rewrite length_map.
  - exists None, None. split; [reflexivity|]. split.
    + now intros [?|?|?].
    + intros [?|?|?] [?|?|?] T HT; simpl; try tauto.
      intros _ ->. lia.
Qed.

Lemma last_map_Some {A} (l : list A) :
  l <> [] -> exists a, List.last (map Some l) None = Some a.
Proof.
  induction l as [|a [|b l] IH]; intros H; simpl in *; try congruence; eauto.
  apply IH. discriminate.
Qed.

Lemma sample_scalar name d cx h tr :
  batch_shape d = Some [] -> event_shape d = [] ->
  (forall raw, dist_sample d raw = Some raw) -> cx_plate cx = None ->
  sample name d None [] cx h tr
  = Some (Scal (h name []),
          tr ++ [mkSite name SampleSite (Some d) (VReal (Scal (h name [])))
                        false (cx_mask cx)]).
Proof.
  intros Hb He Hd Hcx. unfold sample, draw_shape.
  rewrite Hb, He, Hcx. simpl. now rewrite Hd.
Qed.

Lemma ravel_amap {A B} (f : A -> B) a : ravel (amap f a) = map f (ravel a).
Proof.
  destruct a as [x|v|m]; simpl; auto. now rewrite concat_map.
Qed.

Lemma map_const_repeat {A B} (b : B) (l : list A) :
  map (fun _ => b) l = repeat b (length l).
Proof. induction l as [|a l IH]; simpl; auto. now rewrite IH. Qed.

(** A run of the single-region model, from the first draw to the returned
    tuple. *)
Lemma SEIR_stochastic_runs T N T_future E_duration_est I_duration_est R0_est
  beta_shape sigma_shape gamma_shape det_rate_est det_rate_conc
  det_noise_scale rw_scale drift_scale obs use_hosp hosp_rate_est
  hosp_rate_conc hosp_noise_scale hosp h :
  (2 <= T)%nat -> splittable obs -> (use_hosp = true -> splittable hosp) ->
  exists beta x y z det_rate hosp_rate tr,
    SEIR_stochastic T N T_future E_duration_est I_duration_est R0_est
      beta_shape sigma_shape gamma_shape det_rate_est det_rate_conc
      det_noise_scale rw_scale drift_scale obs use_hosp hosp_rate_est
      hosp_rate_conc hosp_noise_scale hosp top_context h []
    = Some ((Vec beta, Vec x, Vec y, Vec z, Scal det_rate, Scal hosp_rate),
            tr) /\
    length beta = (T - 1)%nat /\
    length x = (T + T_future)%nat /\
    length y = (series_length obs T + T_future)%nat /\
    (use_hosp = false -> hosp_rate = 0 /\ z = repeat 0 (length y)) /\
    (exists s, In s tr /\ s_name s = "beta"
               /\ s_value s = VReal (Vec beta)) /\
    ((0 < T_future)%nat ->
     exists s beta_f, In s tr /\ s_name s = "beta_future"
                      /\ s_value s = VReal (Vec beta_f)
                      /\ length beta_f = T_future).
Proof.
  intros HT Hobs Hhosp. unfold SEIR_stochastic.
  do 6 (erewrite bind_Some by (apply sample_scalar; reflexivity)).
  set (det_rate := h "det_rate" []).
  (* hospitalisation rate *)
  match goal with |- context [bind ?c _ _ _ ?t] => set (tr0 := t) end.
  assert (Hhr : exists hr tr1 more,
    (if use_hosp
     then frac <- sample "hosp_rate"
                    (Beta (Scal (hosp_rate_est * hosp_rate_conc))
                          (Scal ((1 - hosp_rate_est) * hosp_rate_conc)))
                    None [] ;;
          lift (mul (Scal det_rate) frac)
     else ret (Scal 0)) top_context h tr0 = Some (Scal hr, tr1) /\
    tr1 = tr0 ++ more /\ (use_hosp = false -> hr = 0)).
  { destruct use_hosp.
    - erewrite bind_Some by (apply sample_scalar; reflexivity).
      do 3 eexists. split; [reflexivity|]. split; [reflexivity|discriminate].
    - exists 0, tr0, []. rewrite app_nil_r. auto. }
  destruct Hhr as (hr & tr1 & more1 & Ehr & Htr1 & Hhr).
  rewrite (bind_Some _ _ _ _ _ _ _ Ehr).
  (* drift *)
  assert (Hdr : exists dr tr2 more,
    match drift_scale with
    | Some drift_scale =>
        sample "drift" (Normal (Scal 0) (Scal drift_scale)) None []
    | None => ret (Scal 0)
    end top_context h tr1 = Some (Scal dr, tr2) /\ tr2 = tr1 ++ more).
  { destruct drift_scale as [ds|].
    - rewrite sample_scalar by reflexivity. do 3 eexists. split; reflexivity.
    - exists 0, tr1, []. now rewrite app_nil_r. }
  destruct Hdr as (dr & tr2 & more2 & Edr & Htr2).
  rewrite (bind_Some _ _ _ _ _ _ _ Edr).
  do 2 (erewrite bind_Some by reflexivity).
  set (x0 := seed N (h "I0" []) (h "E0" [])).
  erewrite bind_Some by reflexivity.
  match goal with |- context [bind ?c _ _ _ ?t] => set (tr3 := t) end.
  (* first observation *)
  destruct (split_first_runs obs top_context h tr3 Hobs)
    as (obs0 & obs1 & Esplit & Hone & Hlen).
  rewrite (bind_Some _ _ _ _ _ _ _ Esplit).
  assert (Hsplit2 : exists hosp0 hosp1,
    (if use_hosp then split_first hosp else ret (None, hosp))
      top_context h tr3 = Some ((hosp0, hosp1), tr3)).
  { destruct use_hosp.
    - destruct (split_first_runs hosp top_context h tr3 (Hhosp eq_refl))
        as (h0 & h1 & E & _). eauto.
    - do 2 eexists. reflexivity. }
  destruct Hsplit2 as (hosp0 & hosp1 & Esplit2).
  rewrite (bind_Some _ _ _ _ _ _ _ Esplit2).
  destruct (observe_normal_runs "y0" (Scal (comp_C x0)) (Scal det_rate)
              det_noise_scale obs0 top_context h tr3 [] [] I I eq_refl eq_refl)
    as (sh0 & la0 & ra0 & me0 & y0 & _ & _ & _ & _ & _ & Ey0 & Hy0).
  unfold observe at 1. rewrite (bind_Some _ _ _ _ _ _ _ Ey0).
  match type of Ey0 with _ = Some (_, ?t) => set (tr4 := t) in * end.
  assert (Hz0 : exists z0 tr5 more,
    (if use_hosp
     then observe "z0" (Scal (comp_C x0)) (Scal hr) (Scal hosp_noise_scale)
                  hosp0
     else ret (Scal 0)) top_context h tr4 = Some (z0, tr5) /\
    tr5 = tr4 ++ more /\ (use_hosp = false -> z0 = Scal 0)).
  { destruct use_hosp.
    - destruct (observe_normal_runs "z0" (Scal (comp_C x0)) (Scal hr)
                  hosp_noise_scale hosp0 top_context h tr4 [] []
                  I I eq_refl eq_refl)
        as (sh1 & la1 & ra1 & me1 & z0 & _ & _ & _ & _ & _ & Ez0 & _).
      exists z0. do 2 eexists. split; [exact Ez0|].
      rewrite <- app_assoc. split; [reflexivity|discriminate].
    - exists (Scal 0), tr4, []. rewrite app_nil_r. auto. }
  destruct Hz0 as (z0 & tr5 & more5 & Ez0 & Htr5 & Hz0).
  rewrite (bind_Some _ _ _ _ _ _ _ Ez0).
  (* the observed period *)
  destruct (SEIR_dynamics_runs T (h "beta0" []) (h "sigma" []) (h "gamma" [])
              rw_scale dr det_rate det_noise_scale hr hosp_noise_scale x0
              obs1 hosp1 use_hosp "" top_context h tr5 HT eq_refl)
    as (beta & x & y & z & walk & rest & Edyn & Hbeta & Hx & Hy & Hz).
  rewrite (bind_Some _ _ _ _ _ _ _ Edyn).
  erewrite bind_Some by reflexivity.
  match type of Edyn with _ = Some (_, ?t) => set (tr6 := t) in * end.
  assert (Hy1 : length (ravel y0 ++ ravel y) = series_length obs T)
    by now apply Hlen.
  assert (Hz1 : use_hosp = false ->
                ravel z0 ++ ravel z = repeat 0 (length (ravel y0 ++ ravel y))).
  { intros E. rewrite (Hz0 E). rewrite E in Hz. subst z.
    unfold zeros_like. rewrite ravel_amap, map_const_repeat.
    rewrite length_app.
    now rewrite (Hone y0 Hy0). }
  assert (Hsite : In (mkSite "beta" SampleSite (Some walk) (VReal (Vec beta))
                             false (cx_mask top_context)) tr6).
  { subst tr6. apply in_or_app. right. now left. }
  destruct (Nat.ltb_spec 0 T_future) as [HF|HF].
  - (* the forecast *)
    destruct (last_map_Some beta) as (b_last & Eb).
    { destruct beta; simpl in Hbeta; [lia|discriminate]. }
    destruct (last_map_Some (x0 :: x)) as (x_last & Ex); [discriminate|].
    destruct (SEIR_dynamics_runs (T_future + 1) b_last (h "sigma" [])
                (h "gamma" []) rw_scale dr det_rate det_noise_scale hr
                hosp_noise_scale x_last None None use_hosp "_future"
                top_context h tr6 ltac:(lia) eq_refl)
      as (beta_f & x_f & y_f & z_f & walk_f & rest_f & Ef & Hbf & Hxf
          & Hyf & Hzf).
    simpl in Hyf. destruct y_f as [?|y_f|?]; try contradiction.
    match type of Ef with _ = Some (_, ?t) => set (tr7 := t) in * end.
    match goal with |- context [bind ?c _ _ _ _] =>
      assert (Einner : c top_context h tr6
                       = Some ((Vec ((x0 :: x) ++ x_f),
                                Vec ((ravel y0 ++ ravel y) ++ y_f),
                                Vec ((ravel z0 ++ ravel z) ++ ravel z_f)),
                               tr7))
    end.
    { rewrite (bind_Some _ _ _ _ _ (Scal b_last) tr6)
        by (unfold last_; now rewrite Eb).
      rewrite (bind_Some _ _ _ _ _ x_last tr6)
        by (unfold last_; simpl app; now rewrite Ex).
      rewrite (bind_Some _ _ _ _ _ _ _ Ef).
      erewrite bind_Some by reflexivity. reflexivity. }
    rewrite (bind_Some _ _ _ _ _ _ _ Einner).
    exists beta, ((x0 :: x) ++ x_f), ((ravel y0 ++ ravel y) ++ y_f),
      ((ravel z0 ++ ravel z) ++ ravel z_f), det_rate, hr.
    exists tr7. split; [reflexivity|].
    split; [assumption|]. split; [simpl; rewrite length_app; simpl; lia|].
    split; [rewrite length_app; simpl in *; lia|].
    split; [|split].
    + intros E. split; [auto|]. rewrite (Hz1 E). rewrite E in Hzf.
      subst z_f. unfold zeros_like. rewrite ravel_amap, map_const_repeat.
      cbn [ravel].
      now rewrite (length_app (ravel y0 ++ ravel y) y_f), repeat_app.
    + eexists. split; [subst tr7; apply in_or_app; left; exact Hsite|].
      split; reflexivity.
    + intros _. eexists _, beta_f.
      split; [subst tr7; apply in_or_app; right; now left|].
      split; [reflexivity|]. split; [reflexivity|lia].
  - assert (T_future = 0)%nat by lia. subst T_future.
    erewrite bind_Some by reflexivity.
    exists beta, (x0 :: x), (ravel y0 ++ ravel y), (ravel z0 ++ ravel z),
      det_rate, hr.
    exists tr6. split; [reflexivity|].
    split; [assumption|]. split; [simpl; lia|]. split; [lia|].
    split; [|split].
    + intros E. split; auto.
    + eexists. split; [exact Hsite|split; reflexivity].
    + lia.
Qed.


Lemma aligned_splittable obs T :
  (2 <= T)%nat -> aligned obs T -> splittable obs.
Proof.
  destruct obs as [[?|[|a v]|?]|]; simpl; auto. intros HT H. lia.
Qed.

Lemma aligned_series_length obs T : aligned obs T -> series_length obs T = T.
Proof. destruct obs as [[?|v|?]|]; simpl; tauto. Qed.

(** C3.  For [T >= 2] and any forecast horizon, with observations aligned on
    the [T] time steps or absent, [SEIR_stochastic] returns a trajectory of
    [T + T_future] rows and a confirmed-case series of [T + T_future]
    entries; without a forecast the series has [T] entries. *)
Theorem SEIR_stochastic_lengths T N T_future E_duration_est I_duration_est
  R0_est beta_shape sigma_shape gamma_shape det_rate_est det_rate_conc
  det_noise_scale rw_scale drift_scale obs use_hosp hosp_rate_est
  hosp_rate_conc hosp_noise_scale hosp h :
  (2 <= T)%nat -> aligned obs T -> (use_hosp = true -> splittable hosp) ->
  exists beta x y z det_rate hosp_rate tr,
    SEIR_stochastic T N T_future E_duration_est I_duration_est R0_est
      beta_shape sigma_shape gamma_shape det_rate_est det_rate_conc
      det_noise_scale rw_scale drift_scale obs use_hosp hosp_rate_est
      hosp_rate_conc hosp_noise_scale hosp top_context h []
    = Some ((beta, Vec x, Vec y, z, det_rate, hosp_rate), tr) /\
    length x = (T + T_future)%nat /\
    length y = (T + T_future)%nat /\
    (T_future = 0%nat -> length y = T).
Proof.
  intros HT Hobs Hhosp.
  destruct (SEIR_stochastic_runs T N T_future E_duration_est I_duration_est
              R0_est beta_shape sigma_shape gamma_shape det_rate_est
              det_rate_conc det_noise_scale rw_scale drift_scale obs use_hosp
              hosp_rate_est hosp_rate_conc hosp_noise_scale hosp h HT
              (aligned_splittable obs T HT Hobs) Hhosp)
    as (beta & x & y & z & dr & hr & tr & E & _ & Hx & Hy & _).
  rewrite (aligned_series_length obs T Hobs) in Hy.
  exists (Vec beta), x, y, (Vec z), (Scal dr), (Scal hr), tr.
  repeat split; auto. intros ->. lia.
Qed.

(** C9.  Without the hospitalisation sub-model [SEIR_stochastic] returns the
    hospitalisation rate 0 and a hospitalisation series of zeros, as long as
    the confirmed-case series; and the run is the same whatever the four
    hospitalisation arguments are. *)
Theorem SEIR_stochastic_no_hosp T N T_future E_duration_est I_duration_est
  R0_est beta_shape sigma_shape gamma_shape det_rate_est det_rate_conc
  det_noise_scale rw_scale drift_scale obs hosp_rate_est hosp_rate_conc
  hosp_noise_scale hosp h :
  (2 <= T)%nat -> splittable obs ->
  (exists beta x y det_rate tr,
     SEIR_stochastic T N T_future E_duration_est I_duration_est R0_est
       beta_shape sigma_shape gamma_shape det_rate_est det_rate_conc
       det_noise_scale rw_scale drift_scale obs false hosp_rate_est
       hosp_rate_conc hosp_noise_scale hosp top_context h []
     = Some ((beta, x, Vec y, Vec (repeat 0 (length y)), det_rate, Scal 0),
             tr)) /\
  (forall hosp_rate_est' hosp_rate_conc' hosp_noise_scale' hosp',
     SEIR_stochastic T N T_future E_duration_est I_duration_est R0_est
       beta_shape sigma_shape gamma_shape det_rate_est det_rate_conc
       det_noise_scale rw_scale drift_scale obs false hosp_rate_est'
       hosp_rate_conc' hosp_noise_scale' hosp' top_context h []
     = SEIR_stochastic T N T_future E_duration_est I_duration_est R0_est
         beta_shape sigma_shape gamma_shape det_rate_est det_rate_conc
         det_noise_scale rw_scale drift_scale obs false hosp_rate_est
         hosp_rate_conc hosp_noise_scale hosp top_context h []).
Proof.
  intros HT Hobs. split.
  - destruct (SEIR_stochastic_runs T N T_future E_duration_est I_duration_est
                R0_est beta_shape sigma_shape gamma_shape det_rate_est
                det_rate_conc det_noise_scale rw_scale drift_scale obs false
                hosp_rate_est hosp_rate_conc hosp_noise_scale hosp h HT Hobs)
      as (beta & x & y & z & dr & hr & tr & E & _ & _ & _ & Hz & _);
      [discriminate|].
    destruct (Hz eq_refl) as [-> ->].
    now exists (Vec beta), (Vec x), y, (Scal dr), tr.
  - intros. reflexivity.
Qed.

(** ** The hierarchical model *)

Lemma has_shape_vec {A} (a : arr A) n :
  has_shape a [n] -> exists v, a = Vec v /\ length v = n.
Proof. destruct a as [?|v|?]; simpl; try tauto. eauto. Qed.

Lemma has_shape_mat {A} (a : arr A) p n :
  has_shape a [p; n] ->
  exists m, a = Mat m /\ length m = p /\ Forall (fun r => length r = n) m.
Proof. destruct a as [?|?|m]; simpl; try tauto. eauto. Qed.

Lemma has_shape_column {A} (v : list A) :
  has_shape (Mat (map (fun x => [x]) v)) [length v; 1%nat].
Proof.
  simpl. rewrite length_map. split; auto.
  rewrite Forall_map. now apply Forall_forall.
Qed.

Lemma zip4_run_shape T (xs : list state) (bs : list (list R)) (ss gs : list R)
  p :
  (1 <= T)%nat -> length xs = p -> length bs = p -> length ss = p ->
  length gs = p -> Forall (fun r => length r = (T - 1)%nat) bs ->
  length (zip4 (fun x b s g => run T x (b, s, g)) xs bs ss gs) = p /\
  Forall (fun r => length r = T)
         (zip4 (fun x b s g => run T x (b, s, g)) xs bs ss gs).
Proof.
  intros HT. revert bs ss gs p.
  induction xs as [|x xs IH]; intros [|b bs] [|s ss] [|g gs] p;
    simpl; intros; subst; try discriminate; auto.
  inversion H3; subst.
  destruct (IH bs ss gs (length xs)) as [Hl HF]; auto; try congruence.
  split; [now rewrite Hl|]. constructor; auto.
  now apply run_length.
Qed.

Lemma sequence_last_rows {A} (m : list (list A)) n :
  (0 < n)%nat -> Forall (fun r => length r = n) m ->
  exists v, sequence (map (fun r => List.last (map Some r) None) m) = Some v
            /\ length v = length m.
Proof.
  intros Hn HF.
  destruct (sequence_Forall (fun _ => True)
              (map (fun r => List.last (map Some r) None) m))
    as (v & E & Hl & _).
  - rewrite Forall_map. eapply Forall_impl; [|exact HF].
    intros r Hr; simpl. destruct (last_map_Some r) as (a & Ea).
    + destruct r; simpl in Hr; [lia|discriminate].
    + eauto.
  - exists v. rewrite length_map in Hl. auto.
Qed.

Lemma concat1_shape {A} (m n : list (list A)) p k k' :
  length m = p -> Forall (fun r => length r = k) m ->
  length n = p -> Forall (fun r => length r = k') n ->
  exists c, concat1 (Mat m) (Mat n) = Some (Mat c)
            /\ has_shape (Mat c) [p; (k + k')%nat].
Proof.
  intros Hm HFm Hn HFn. unfold concat1.
  rewrite Hm, Hn, Nat.eqb_refl. eexists; split; [reflexivity|].
  simpl. rewrite zip_with_length by congruence. split; auto.
  clear Hm Hn. revert n HFn.
  induction HFm as [|r m Hr _ IH]; intros n HFn; simpl; auto.
  destruct HFn as [|r' n Hr' HFn]; simpl; auto.
  constructor; auto. rewrite length_app. congruence.
Qed.

(** One segment of the dynamics for [p] places at once. *)
Lemma SEIR_dynamics_hierarchical_runs T beta0 sigma gamma det_rate dn rw dr
  xs obs suffix h tr p :
  (2 <= T)%nat -> has_shape beta0 [p] -> has_shape sigma [p] ->
  has_shape gamma [p] -> has_shape det_rate [p] -> length xs = p ->
  exists beta x y loc walk rest,
    SEIR_dynamics_hierarchical T
      (beta0, sigma, gamma, det_rate, Scal dn, Scal rw, Scal dr)
      (Vec xs) obs suffix top_context h tr
    = Some ((Mat beta, Mat x, y),
            tr ++ mkSite ("beta" ++ suffix)%string SampleSite (Some walk)
                         (VReal (Mat beta)) false (Scal true) :: rest) /\
    ExponentialRandomWalk loc (Scal rw) (Scal dr) (T - 1) = Some walk /\
    has_shape (Mat beta) [p; (T - 1)%nat] /\
    has_shape (Mat x) [p; (T - 1)%nat] /\
    link_value y obs [p; (T - 1)%nat].
Proof.
  intros HT Hb0 Hsg Hgm Hdr Hxs.
  destruct (has_shape_vec _ _ Hb0) as (b0 & -> & Lb0).
  destruct (has_shape_vec _ _ Hsg) as (sg & -> & Lsg).
  destruct (has_shape_vec _ _ Hgm) as (gm & -> & Lgm).
  destruct (has_shape_vec _ _ Hdr) as (r & -> & Lr).
  set (cxp := mkContext (Some ("num_places", p)) (Scal true)).
  destruct (sample_walk_runs ("beta" ++ suffix)%string
              (Mat (map (fun x => [x]) b0)) rw dr (T - 1)
              [p; 1%nat] [p; (T - 1)%nat] cxp h tr)
    as (walk & v & Ew & Es & Hv); try reflexivity; try lia.
  { rewrite <- Lb0. apply has_shape_column. }
  { unfold broadcast_shapes; simpl.
    rewrite (broadcast_dim_comm _ _ _ (broadcast_dim_one_r (T - 1))).
    reflexivity. }
  { apply broadcast_shapes_mat_one. }
  destruct (has_shape_mat _ _ _ Hv) as (beta & E & Lbeta & Fbeta).
  subst v.
  match type of Es with _ = Some (_, ?t) => set (tr1 := t) in * end.
  destruct (zip4_run_shape T xs beta sg gm p) as [Lx Fx]; auto; try lia.
  set (x := map (fun r => tl r)
                (zip4 (fun x b s g => run T x (b, s, g)) xs beta sg gm)).
  assert (Hx : has_shape (Mat x) [p; (T - 1)%nat]).
  { subst x. simpl. rewrite length_map. split; auto.
    rewrite Forall_map. eapply Forall_impl; [|exact Fx].
    intros l Hl; simpl. destruct l; simpl in *; lia. }
  set (tr2 := tr1 ++ [mkSite ("x" ++ suffix)%string DeterministicSite None
                             (VState (Mat x)) false (Scal true)]).
  destruct (observe_normal_runs ("y" ++ suffix)%string (amap comp_C (Mat x))
              (Mat (map (fun x => [x]) r)) dn obs top_context h tr2
              [p; (T - 1)%nat] [p; 1%nat])
    as (sh0 & la0 & ra0 & me0 & y & _ & _ & _ & _ & _ & Ey & Hy);
    try reflexivity.
  { now apply has_shape_amap. }
  { rewrite <- Lr. apply has_shape_column. }
  { unfold broadcast_shapes; simpl.
    now rewrite broadcast_dim_refl, broadcast_dim_one_r. }
  exists beta, x, y, (Mat (map (fun x => [x]) b0)), walk. eexists.
  split; [|split; [exact Ew|]; split; [exact Hv|]; split; [exact Hx|exact Hy]].
  unfold SEIR_dynamics_hierarchical.
  do 2 (erewrite bind_Some by reflexivity).
  rewrite (bind_Some _ _ _ _ _ p tr)
    by (simpl; now rewrite length_map, Lb0).
  rewrite (bind_Some _ _ _ _ _ (Mat beta) tr1).
  2:{ unfold with_plate. cbn [cx_plate top_context cx_mask].
      fold cxp.
      rewrite (bind_Some _ _ _ _ _ walk tr)
        by (rewrite walk_steps_pos by lia; cbn [obind]; now rewrite Ew).
      exact Es. }
  rewrite (bind_Some _ _ _ _ _
             (Mat (zip4 (fun x b s g => run T x (b, s, g)) xs beta sg gm))
             tr1).
  2:{ unfold vmap_run. simpl.
      rewrite Hxs, Lbeta, Lsg, Lgm, Nat.eqb_refl. reflexivity. }
  rewrite (bind_Some _ _ _ _ _ (Mat x) tr1) by reflexivity.
  rewrite (bind_Some _ _ _ _ _ tt tr2) by reflexivity.
  unfold observe. rewrite (bind_Some _ _ _ _ _ _ _ Ey).
  unfold ret. subst tr2 tr1. rewrite <- !app_assoc. reflexivity.
Qed.

Lemma tabulate_has_shape sh f :
  (length sh <= 2)%nat -> exists v, tabulate sh f = Some v /\ has_shape v sh.
Proof.
  destruct sh as [|p [|n [|? ?]]]; simpl; intros H; try lia;
    eexists; (split; [reflexivity|]); simpl; auto.
  - now rewrite length_map, length_seq.
  - rewrite length_map, length_seq. split; auto.
    rewrite Forall_map. apply Forall_forall. intros i _.
    now rewrite length_map, length_seq.
Qed.

(** A draw from a distribution whose sampler is the host's. *)
Lemma sample_leaf_runs name d ss b b' cx h tr :
  batch_shape d = Some b -> event_shape d = [] ->
  (forall raw, dist_sample d raw = Some raw) ->
  match cx_plate cx with
  | Some (_, n) => broadcast_shapes b [n]
  | None => Some b
  end = Some b' ->
  (length (ss ++ b') <= 2)%nat ->
  exists v,
    sample name d None ss cx h tr
    = Some (v, tr ++ [mkSite name SampleSite (Some d) (VReal v) false
                             (cx_mask cx)]) /\
    has_shape v (ss ++ b').
Proof.
  intros Hb He Hd Hp Hl.
  destruct (tabulate_has_shape (ss ++ b') (h name) Hl) as (v & Ev & Hv).
  exists v. split; [|assumption].
  unfold sample, draw_shape. rewrite Hb, He. cbn [obind].
  destruct (cx_plate cx) as [[? n]|]; rewrite Hp; cbn [obind];
    rewrite app_nil_r, Ev; cbn [obind]; now rewrite Hd.
Qed.

Lemma has_shape_vec_ashape {A} (a : arr A) n :
  has_shape a [n] -> ashape a = [n].
Proof. destruct a; simpl; try tauto. congruence. Qed.

Lemma two_vectors_batch (a b : arr R) n :
  has_shape a [n] -> has_shape b [n] ->
  broadcast_shapes (ashape a) (ashape b) = Some [n].
Proof.
  intros Ha Hb.
  rewrite (has_shape_vec_ashape a n Ha), (has_shape_vec_ashape b n Hb).
  unfold broadcast_shapes; simpl. now rewrite broadcast_dim_refl.
Qed.

Lemma broadcast_shapes_vec_refl n : broadcast_shapes [n] [n] = Some [n].
Proof. unfold broadcast_shapes; simpl. now rewrite broadcast_dim_refl. Qed.

Lemma dot_shape X theta d :
  Forall (fun r => length r = d) X -> length theta = d ->
  dot X theta = Some (Vec (map (fun r => dot_row r theta) X)).
Proof.
  intros HX Ht. unfold dot.
  replace (forallb _ X) with true; auto.
  symmetry. apply forallb_forall. rewrite Forall_forall in HX.
  intros r Hr. apply Nat.eqb_eq. rewrite (HX r Hr). auto.
Qed.

Lemma log_link_mean_runs est b X theta d :
  Forall (fun r => length r = d) X -> has_shape theta [d] ->
  exists th, theta = Vec th /\
    log_link_mean est (Scal b) X theta
    = Some (Vec (map (fun r => exp (ln est + b + dot_row r th)) X)).
Proof.
  intros HX Ht. destruct (has_shape_vec _ _ Ht) as (th & -> & Lt).
  exists th. split; auto. unfold log_link_mean. simpl.
  rewrite (dot_shape X th d HX Lt). simpl. now rewrite !map_map.
Qed.

Lemma logit_link_mean_runs est b X theta d :
  Forall (fun r => length r = d) X -> has_shape theta [d] ->
  exists th, theta = Vec th /\
    logit_link_mean est (Scal b) X theta
    = Some (Vec (map (fun r => expit (logit est + b + dot_row r th)) X)).
Proof.
  intros HX Ht. destruct (has_shape_vec _ _ Ht) as (th & -> & Lt).
  exists th. split; auto. unfold logit_link_mean. simpl.
  rewrite (dot_shape X th d HX Lt). simpl. now rewrite !map_map.
Qed.

Lemma GammaMeanVar_shape mu var n :
  has_shape mu [n] ->
  exists shape rate,
    GammaMeanVar mu (Scal var) = Some (Gamma shape rate) /\
    has_shape shape [n] /\ has_shape rate [n].
Proof.
  intros Hmu. unfold GammaMeanVar.
  destruct (map2_shape Rmult mu mu [n] [n] [n] Hmu Hmu
              (broadcast_shapes_vec_refl n)) as (mu2 & E2 & H2).
  unfold mul at 1. rewrite E2. cbn [obind]. unfold div at 1.
  rewrite map2_scal_r. cbn [obind].
  set (shape := amap (fun x => x / var) mu2).
  assert (Hs : has_shape shape [n]) by now apply has_shape_amap.
  destruct (map2_shape Rdiv shape mu [n] [n] [n] Hs Hmu
              (broadcast_shapes_vec_refl n)) as (rate & Er & Hr).
  unfold div. rewrite Er. cbn [obind]. eauto.
Qed.




Lemma sequence_hd_rows {A} (m : list (list A)) n :
  (0 < n)%nat -> Forall (fun r => length r = n) m ->
  exists v, sequence (map (fun r => hd_error r) m) = Some v
            /\ length v = length m.
Proof.
  intros Hn HF.
  destruct (sequence_Forall (fun _ => True) (map (fun r => hd_error r) m))
    as (v & E & Hl & _).
  - rewrite Forall_map. eapply Forall_impl; [|exact HF].
    intros r Hr; simpl. destruct r; simpl in *; [lia|eauto].
  - exists v. rewrite length_map in Hl. auto.
Qed.

Lemma split_first_column_runs obs p T cx h tr :
  (2 <= T)%nat -> aligned_places obs p T ->
  exists obs0 obs1,
    split_first_column obs cx h tr = Some ((obs0, obs1), tr) /\
    (forall y0, link_value y0 obs0 [p] -> has_shape y0 [p]) /\
    (forall y, link_value y obs1 [p; (T - 1)%nat] ->
               has_shape y [p; (T - 1)%nat]).
Proof.
  intros HT. destruct obs as [[?|?|m]|]; simpl; try tauto.
  - intros [Hp HF].
    destruct (sequence_hd_rows m T ltac:(lia) HF) as (v & Ev & Lv).
    exists (Some (Vec v)), (Some (Mat (map (fun r => tl r) m))).
    split; [unfold bind, lift; simpl; now rewrite Ev|]. split.
    + intros y0 ->. simpl. rewrite length_map. congruence.
    + intros y ->. simpl. rewrite !length_map. split; auto.
      rewrite !Forall_map. eapply Forall_impl; [|exact HF].
      intros r Hr; simpl. rewrite length_map.
      destruct r; simpl in *; lia.
  - intros _. exists None, None. split; [reflexivity|]. auto.
Qed.

Lemma vmap_seed_runs (n i e : list R) p :
  length n = p -> length i = p -> length e = p ->
  vmap_seed (Vec n) (Vec i) (Vec e) = Some (Vec (zip3 seed n i e))
  /\ length (zip3 seed n i e) = p.
Proof.
  intros Hn Hi He. unfold vmap_seed. simpl.
  rewrite Hn, Hi, He, Nat.eqb_refl. split; auto.
  revert i e p Hn Hi He.
  induction n as [|a n IH]; intros [|b i] [|c e] p; simpl; intros;
    subst; try discriminate; auto.
Qed.

Lemma broadcast_to_places N p :
  population_ok N p ->
  exists v, broadcast_to N [p] = Some (Vec v) /\ length v = p.
Proof.
  destruct N as [x|v|?]; simpl; try tauto; intros H.
  - unfold broadcast_to. cbn [full obind map2 amap ashape].
    rewrite length_map, repeat_length.
    destruct (list_eq_dec Nat.eq_dec [p] [p]); [|tauto].
    eexists; split; [reflexivity|]. now rewrite length_map, repeat_length.
  - unfold broadcast_to. cbn [full obind map2 amap ashape omap].
    rewrite bzip_same by now rewrite repeat_length.
    cbn [full obind map2 amap ashape omap].
    rewrite zip_with_length by now rewrite repeat_length.
    rewrite H. destruct (list_eq_dec Nat.eq_dec [p] [p]); [|tauto].
    eexists; split; [reflexivity|].
    rewrite zip_with_length; auto. now rewrite repeat_length.
Qed.

Lemma beta_prior_vector (m : arr R) c p :
  has_shape m [p] ->
  exists c1 c0,
    mul m (Scal c) = Some c1 /\
    obind (sub (Scal 1) m) (fun comp => mul comp (Scal c)) = Some c0 /\
    has_shape c1 [p] /\ has_shape c0 [p].
Proof.
  intros Hm. unfold mul, sub. rewrite map2_scal_r. cbn [map2 obind].
  rewrite map2_scal_r. do 2 eexists. repeat split; auto using has_shape_amap.
Qed.




Lemma prior_site_app tr more name d :
  prior_site tr name d -> prior_site (tr ++ more) name d.
Proof.
  intros (s & Hin & H). exists s. split; auto. apply in_or_app. now left.
Qed.

Lemma hierarchical_priors_app h a b c e f df tr more :
  hierarchical_priors h a b c e f df tr ->
  hierarchical_priors h a b c e f df (tr ++ more).
Proof.
  intros ((m1 & p1 & ? & ? & ?) & (m2 & p2 & ? & ? & ?)
          & (m3 & p3 & ? & ? & ?) & (m4 & c1 & c0 & ? & ? & ? & ?)).
  split; [|split; [|split]].
  - exists m1, p1. auto using prior_site_app.
  - exists m2, p2. auto using prior_site_app.
  - exists m3, p3. auto using prior_site_app.
  - exists m4, c1, c0. auto using prior_site_app.
Qed.

Lemma sample_coefficients name a b d h tr :
  sample name (Normal (Scal a) (Scal b)) None [d] top_context h tr
  = Some (Vec (coefficients h name d),
          tr ++ [mkSite name SampleSite (Some (Normal (Scal a) (Scal b)))
                        (VReal (Vec (coefficients h name d))) false
                        (Scal true)]).
Proof. reflexivity. Qed.

Lemma coefficients_shape h name d : has_shape (Vec (coefficients h name d)) [d].
Proof. simpl. unfold coefficients. now rewrite length_map, length_seq. Qed.

(** A run of the hierarchical model for [p] places. *)
Lemma SEIR_hierarchical_runs p T N T_future E_duration_est I_duration_est
  R0_est det_rate_est det_rate_conc rw_scale det_scale place_covariates
  drift_scale obs h :
  (2 <= T)%nat -> frame_ok place_covariates p -> population_ok N p ->
  aligned_places obs p T ->
  exists beta x y det_rate tr,
    SEIR_hierarchical p T N T_future E_duration_est I_duration_est R0_est
      det_rate_est det_rate_conc rw_scale det_scale place_covariates
      drift_scale obs top_context h []
    = Some ((Mat beta, Mat x, Mat y, det_rate), tr) /\
    has_shape (Mat beta) [p; (T - 1)%nat] /\
    has_shape (Mat x) [p; (T + T_future)%nat] /\
    has_shape (Mat y) [p; (T + T_future)%nat] /\
    (exists s loc walk,
       In s tr /\ s_name s = "beta" /\ s_value s = VReal (Mat beta) /\
       s_fn s = Some walk /\
       ExponentialRandomWalk loc (Scal rw_scale) (Scal 0) (T - 1)
       = Some walk) /\
    ((0 < T_future)%nat ->
     exists s beta_f loc walk,
       In s tr /\ s_name s = "beta_future" /\
       s_value s = VReal (Mat beta_f) /\
       has_shape (Mat beta_f) [p; T_future] /\
       s_fn s = Some walk /\
       ExponentialRandomWalk loc (Scal rw_scale) (Scal 0) T_future
       = Some walk) /\
    hierarchical_priors h R0_est E_duration_est I_duration_est det_rate_est
                        det_rate_conc place_covariates tr.
Proof.
  intros HT [HXp HXd] HN Hobs. unfold SEIR_hierarchical.
  set (d := df_columns place_covariates) in *.
  set (X := values place_covariates) in *.
  do 4 (erewrite bind_Some by (apply sample_scalar; reflexivity)).
  (* coefficients *)
  match goal with |- context [bind ?c _ _ _ ?t] => set (tr0 := t) end.
  pose proof (sample_coefficients "theta_R0" 0 0.1 d h tr0) as E1.
  pose proof (coefficients_shape h "theta_R0" d) as H1.
  set (th1 := Vec (coefficients h "theta_R0" d)) in *.
  rewrite (bind_Some _ _ _ _ _ _ _ E1).
  match type of E1 with _ = Some (_, ?t) => set (tr1 := t) in * end.
  pose proof (sample_coefficients "theta_E_duration" 0 0.05 d h tr1) as E2.
  pose proof (coefficients_shape h "theta_E_duration" d) as H2.
  set (th2 := Vec (coefficients h "theta_E_duration" d)) in *.
  rewrite (bind_Some _ _ _ _ _ _ _ E2).
  match type of E2 with _ = Some (_, ?t) => set (tr2 := t) in * end.
  pose proof (sample_coefficients "theta_I_duration" 0 0.05 d h tr2) as E3.
  pose proof (coefficients_shape h "theta_I_duration" d) as H3.
  set (th3 := Vec (coefficients h "theta_I_duration" d)) in *.
  rewrite (bind_Some _ _ _ _ _ _ _ E3).
  match type of E3 with _ = Some (_, ?t) => set (tr3 := t) in * end.
  pose proof (sample_coefficients "theta_det_rate" 0 0.05 d h tr3) as E4.
  pose proof (coefficients_shape h "theta_det_rate" d) as H4.
  set (th4 := Vec (coefficients h "theta_det_rate" d)) in *.
  rewrite (bind_Some _ _ _ _ _ _ _ E4).
  match type of E4 with _ = Some (_, ?t) => set (tr4 := t) in * end.
  (* region parameters *)
  destruct (log_link_mean_runs R0_est (h "bias_R0" []) X th1 d HXd H1)
    as (t1 & _ & Em1).
  rewrite (bind_Some _ _ _ _ _ _ tr4) by now rewrite Em1.
  match type of Em1 with _ = Some ?m => set (R0_mean := m) in * end.
  assert (HR0m : has_shape R0_mean [p])
    by (subst R0_mean; simpl; now rewrite length_map).
  destruct (GammaMeanVar_shape R0_mean 0.1 p HR0m)
    as (s1 & r1 & Eg1 & Hs1 & Hr1).
  rewrite (bind_Some _ _ _ _ _ _ tr4) by now rewrite Eg1.
  destruct (sample_leaf_runs "R0" (Gamma s1 r1) [] [p] [p] top_context h tr4)
    as (R0 & ER0 & HR0); try reflexivity;
    [now apply two_vectors_batch|simpl; lia|].
  rewrite (bind_Some _ _ _ _ _ _ _ ER0).
  match type of ER0 with _ = Some (_, ?t) => set (tr5 := t) in * end.
  destruct (log_link_mean_runs E_duration_est (h "bias_E_duration" []) X th2
              d HXd H2) as (t2 & _ & Em2).
  rewrite (bind_Some _ _ _ _ _ _ tr5) by now rewrite Em2.
  match type of Em2 with _ = Some ?m => set (E_mean := m) in * end.
  assert (HEm : has_shape E_mean [p])
    by (subst E_mean; simpl; now rewrite length_map).
  destruct (GammaMeanVar_shape E_mean 0.05 p HEm)
    as (s2 & r2 & Eg2 & Hs2 & Hr2).
  rewrite (bind_Some _ _ _ _ _ _ tr5) by now rewrite Eg2.
  destruct (sample_leaf_runs "E_duration" (Gamma s2 r2) [] [p] [p]
              top_context h tr5)
    as (E_duration & EEd & HEd); try reflexivity;
    [now apply two_vectors_batch|simpl; lia|].
  rewrite (bind_Some _ _ _ _ _ _ _ EEd).
  match type of EEd with _ = Some (_, ?t) => set (tr6 := t) in * end.
  destruct (log_link_mean_runs I_duration_est (h "bias_I_duration" []) X th3
              d HXd H3) as (t3 & _ & Em3).
  rewrite (bind_Some _ _ _ _ _ _ tr6) by now rewrite Em3.
  match type of Em3 with _ = Some ?m => set (I_mean := m) in * end.
  assert (HIm : has_shape I_mean [p])
    by (subst I_mean; simpl; now rewrite length_map).
  destruct (GammaMeanVar_shape I_mean 0.05 p HIm)
    as (s3 & r3 & Eg3 & Hs3 & Hr3).
  rewrite (bind_Some _ _ _ _ _ _ tr6) by now rewrite Eg3.
  destruct (sample_leaf_runs "I_duration" (Gamma s3 r3) [] [p] [p]
              top_context h tr6)
    as (I_duration & EId & HId); try reflexivity;
    [now apply two_vectors_batch|simpl; lia|].
  rewrite (bind_Some _ _ _ _ _ _ _ EId).
  match type of EId with _ = Some (_, ?t) => set (tr7 := t) in * end.
  destruct (logit_link_mean_runs det_rate_est (h "bias_det_rate" []) X th4
              d HXd H4) as (t4 & _ & Em4).
  rewrite (bind_Some _ _ _ _ _ _ tr7) by now rewrite Em4.
  match type of Em4 with _ = Some ?m => set (det_mean := m) in * end.
  assert (Hdm : has_shape det_mean [p])
    by (subst det_mean; simpl; now rewrite length_map).
  destruct (beta_prior_vector det_mean det_rate_conc p Hdm)
    as (c1 & c0 & Ec1 & Ec0 & Hc1 & Hc0).
  rewrite (bind_Some _ _ _ _ _ _ tr7) by now rewrite Ec1.
  destruct (sub (Scal 1) det_mean) as [comp|] eqn:Ecomp;
    [|discriminate]. cbn [obind] in Ec0.
  rewrite (bind_Some _ _ _ _ _ comp tr7) by reflexivity.
  rewrite (bind_Some _ _ _ _ _ _ tr7) by now rewrite Ec0.
  destruct (sample_leaf_runs "det_rate" (Beta c1 c0) [] [p] [p]
              top_context h tr7)
    as (det_rate & Edr & Hdr); try reflexivity;
    [now apply two_vectors_batch|simpl; lia|].
  rewrite (bind_Some _ _ _ _ _ _ _ Edr).
  match type of Edr with _ = Some (_, ?t) => set (tr8 := t) in * end.
  cbn [app] in HR0, HEd, HId, Hdr.
  assert (Hsigma : has_shape (amap (Rdiv 1) E_duration) [p])
    by now apply has_shape_amap.
  assert (Hgamma : has_shape (amap (Rdiv 1) I_duration) [p])
    by now apply has_shape_amap.
  do 2 (erewrite bind_Some by reflexivity).
  destruct (map2_shape Rmult R0 (amap (Rdiv 1) I_duration) [p] [p] [p]
              HR0 Hgamma (broadcast_shapes_vec_refl p))
    as (beta0 & Eb0 & Hb0).
  rewrite (bind_Some _ _ _ _ _ beta0 tr8) by (unfold mul; now rewrite Eb0).
  destruct (broadcast_to_places N p HN) as (n & En & Ln).
  rewrite (bind_Some _ _ _ _ _ (Vec n) tr8) by now rewrite En.
  (* initial states *)
  set (cxp := mkContext (Some ("num_places", p)) (Scal true)).
  set (high := amap (Rmult 0.02) (Vec n)).
  assert (Hhigh : has_shape high [p])
    by (subst high; simpl; now rewrite length_map).
  assert (Hbatch : broadcast_shapes (ashape (Scal 0)) (ashape high)
                   = Some [p]).
  { rewrite (has_shape_vec_ashape high p Hhigh). reflexivity. }
  destruct (sample_leaf_runs "I0" (Uniform (Scal 0) high) [] [p] [p] cxp h
              tr8 Hbatch eq_refl (fun _ => eq_refl)
              (broadcast_shapes_vec_refl p) ltac:(simpl; lia))
    as (I0 & EI0 & HI0).
  match type of EI0 with _ = Some (_, ?t) => set (tr9 := t) in * end.
  destruct (sample_leaf_runs "E0" (Uniform (Scal 0) high) [] [p] [p] cxp h
              tr9 Hbatch eq_refl (fun _ => eq_refl)
              (broadcast_shapes_vec_refl p) ltac:(simpl; lia))
    as (E0 & EE0 & HE0).
  match type of EE0 with _ = Some (_, ?t) => set (tr10 := t) in * end.
  rewrite (bind_Some _ _ _ _ _ (I0, E0) tr10).
  2:{ unfold with_plate. cbn [cx_plate top_context cx_mask]. fold cxp.
      erewrite bind_Some by reflexivity. fold high.
      rewrite (bind_Some _ _ _ _ _ _ _ EI0).
      rewrite (bind_Some _ _ _ _ _ _ _ EE0). reflexivity. }
  cbn [app] in HI0, HE0.
  destruct (has_shape_vec _ _ HI0) as (i0 & -> & Li0).
  destruct (has_shape_vec _ _ HE0) as (e0 & -> & Le0).
  destruct (vmap_seed_runs n i0 e0 p Ln Li0 Le0) as [Eseed Lseed].
  set (xs := zip3 seed n i0 e0) in *.
  rewrite (bind_Some _ _ _ _ _ (Vec xs) tr10) by now rewrite Eseed.
  erewrite bind_Some by reflexivity.
  match goal with |- context [bind ?c _ _ _ ?t] => set (tr11 := t) end.
  (* first observation *)
  destruct (split_first_column_runs obs p T top_context h tr11 HT Hobs)
    as (obs0 & obs1 & Esplit & Hy0shape & Hyshape).
  rewrite (bind_Some _ _ _ _ _ _ _ Esplit).
  destruct (observe_normal_runs "y0" (amap comp_C (Vec xs)) det_rate
              det_scale obs0 top_context h tr11 [p] [p])
    as (sh0 & la0 & ra0 & me0 & y0 & _ & _ & _ & _ & _ & Ey0 & Hy0);
    try reflexivity; auto using broadcast_shapes_vec_refl.
  { simpl. now rewrite length_map. }
  unfold observe at 1. rewrite (bind_Some _ _ _ _ _ _ _ Ey0).
  match type of Ey0 with _ = Some (_, ?t) => set (tr12 := t) in * end.
  apply Hy0shape in Hy0. destruct (has_shape_vec _ _ Hy0) as (y0v & -> & Ly0).
  (* the observed period *)
  destruct (SEIR_dynamics_hierarchical_runs T beta0
              (amap (Rdiv 1) E_duration) (amap (Rdiv 1) I_duration) det_rate
              det_scale rw_scale 0 xs obs1 "" h tr12 p HT Hb0 Hsigma Hgamma
              Hdr Lseed)
    as (beta & x & y & loc & walk & rest & Edyn & Ewalk & Hbeta & Hx & Hy).
  rewrite (bind_Some _ _ _ _ _ _ _ Edyn).
  match type of Edyn with _ = Some (_, ?t) => set (tr13 := t) in * end.
  apply Hyshape in Hy. destruct (has_shape_mat _ _ _ Hy) as (ym & -> & Ly & Fy).
  destruct Hx as [Lx Fx]. destruct Hbeta as [Lbeta Fbeta].
  erewrite bind_Some by reflexivity.
  destruct (concat1_shape (map (fun s => [s]) xs) x p 1 (T - 1))
    as (xall & Exall & Hxall); auto.
  { now rewrite length_map. }
  { rewrite Forall_map. now apply Forall_forall. }
  rewrite (bind_Some _ _ _ _ _ (Mat xall) tr13) by now rewrite Exall.
  erewrite bind_Some by reflexivity.
  destruct (concat1_shape (map (fun s => [s]) y0v) ym p 1 (T - 1))
    as (yall & Eyall & Hyall); auto.
  { now rewrite length_map. }
  { rewrite Forall_map. now apply Forall_forall. }
  rewrite (bind_Some _ _ _ _ _ (Mat yall) tr13) by now rewrite Eyall.
  replace (1 + (T - 1))%nat with T in Hxall, Hyall by lia.
  assert (Hsite : In (mkSite "beta" SampleSite (Some walk) (VReal (Mat beta))
                             false (Scal true)) tr13).
  { subst tr13. apply in_or_app. right. now left. }
  destruct Hxall as [Lxall Fxall]. destruct Hyall as [Lyall Fyall].
  assert (Hpriors : hierarchical_priors h R0_est E_duration_est
                      I_duration_est det_rate_est det_rate_conc
                      place_covariates tr13).
  { assert (Hin : forall s, In s tr8 -> In s tr13).
    { intros s Hs. unfold tr13, tr12, tr11, tr10, tr9.
      do 6 (apply in_or_app; left). exact Hs. }
    split; [|split; [|split]].
    - exists R0_mean, (Gamma s1 r1). split; [exact Em1|]. split; [exact Eg1|].
      eexists. split.
      + apply Hin. unfold tr8, tr7, tr6, tr5. do 3 (apply in_or_app; left).
        apply in_or_app. right. now left.
      + split; reflexivity.
    - exists E_mean, (Gamma s2 r2). split; [exact Em2|]. split; [exact Eg2|].
      eexists. split.
      + apply Hin. unfold tr8, tr7, tr6. do 2 (apply in_or_app; left).
        apply in_or_app. right. now left.
      + split; reflexivity.
    - exists I_mean, (Gamma s3 r3). split; [exact Em3|]. split; [exact Eg3|].
      eexists. split.
      + apply Hin. unfold tr8, tr7. apply in_or_app; left.
        apply in_or_app. right. now left.
      + split; reflexivity.
    - exists det_mean, c1, c0. split; [exact Em4|]. split; [exact Ec1|].
      split; [now rewrite Ecomp|].
      eexists. split.
      + apply Hin. unfold tr8. apply in_or_app. right. now left.
      + split; reflexivity. }
  destruct (Nat.ltb_spec 0 T_future) as [HF|HF].
  - (* the forecast *)
    destruct (sequence_last_rows beta (T - 1) ltac:(lia) Fbeta)
      as (b_last & Eb & Lb).
    destruct (sequence_last_rows xall T ltac:(lia) Fxall)
      as (x_last & Ex & Lxl).
    destruct (SEIR_dynamics_hierarchical_runs (T_future + 1) (Vec b_last)
                (amap (Rdiv 1) E_duration) (amap (Rdiv 1) I_duration)
                det_rate det_scale rw_scale 0 x_last None "_future" h tr13 p
                ltac:(lia)) as (beta_f & x_f & y_f & loc_f & walk_f & rest_f
                                & Ef & Ewf & Hbf & Hxf & Hyf); auto;
      try (simpl; congruence).
    match type of Ef with _ = Some (_, ?t) => set (tr14 := t) in * end.
    simpl in Hyf. destruct (has_shape_mat _ _ _ Hyf) as (yf & -> & Lyf & Fyf).
    replace (T_future + 1 - 1)%nat with T_future in * by lia.
    destruct Hxf as [Lxf Fxf].
    destruct (concat1_shape xall x_f p T T_future)
      as (xfin & Exfin & Hxfin); auto.
    destruct (concat1_shape yall yf p T T_future)
      as (yfin & Eyfin & Hyfin); auto.
    match goal with |- context [bind ?c _ _ _ _] =>
      assert (Einner : c top_context h tr13
                       = Some ((Mat xfin, Mat yfin), tr14))
    end.
    { rewrite (bind_Some _ _ _ _ _ (Vec b_last) tr13)
        by (unfold col_last; now rewrite Eb).
      rewrite (bind_Some _ _ _ _ _ (Vec x_last) tr13)
        by (unfold col_last; now rewrite Ex).
      rewrite (bind_Some _ _ _ _ _ _ _ Ef).
      rewrite (bind_Some _ _ _ _ _ (Mat xfin) tr14) by now rewrite Exfin.
      rewrite (bind_Some _ _ _ _ _ (Mat yfin) tr14) by now rewrite Eyfin.
      reflexivity. }
    rewrite (bind_Some _ _ _ _ _ _ _ Einner).
    exists beta, xfin, yfin, det_rate, tr14.
    split; [reflexivity|]. split; [split; assumption|].
    split; [assumption|]. split; [assumption|]. split; [|split].
    + eexists _, loc, walk.
      split; [subst tr14; apply in_or_app; left; exact Hsite|].
      repeat split; assumption.
    + intros _. eexists _, beta_f, loc_f, walk_f.
      split; [subst tr14; apply in_or_app; right; now left|].
      repeat split; try assumption; apply Hbf.
    + subst tr14. now apply hierarchical_priors_app.
  - assert (T_future = 0)%nat by lia. subst T_future.
    erewrite bind_Some by reflexivity.
    exists beta, xall, yall, det_rate, tr13.
    rewrite Nat.add_0_r.
    split; [reflexivity|]. split; [split; assumption|].
    split; [split; assumption|]. split; [split; assumption|].
    split; [|split].
    + eexists _, loc, walk. split; [exact Hsite|].
      repeat split; assumption.
    + lia.
    + exact Hpriors.
Qed.

(** C10.  For [T >= 2] the transmission rates [SEIR_stochastic] returns are
    [T - 1] in number whatever the forecast horizon, and so are those of
    each place in [SEIR_hierarchical]: the rates of the forecast are recorded
    at the site ["beta_future"], [T_future] of them, and are not appended,
    while the trajectory and the observations are extended to
    [T + T_future] time steps. *)
Theorem transmission_rates_not_extended T N T_future E_duration_est
  I_duration_est R0_est beta_shape sigma_shape gamma_shape det_rate_est
  det_rate_conc det_noise_scale rw_scale drift_scale obs use_hosp
  hosp_rate_est hosp_rate_conc hosp_noise_scale hosp
  p Np det_scale place_covariates obs_p h :
  (2 <= T)%nat -> aligned obs T -> (use_hosp = true -> splittable hosp) ->
  frame_ok place_covariates p -> population_ok Np p ->
  aligned_places obs_p p T ->
  (exists beta x y z det_rate hosp_rate tr,
     SEIR_stochastic T N T_future E_duration_est I_duration_est R0_est
       beta_shape sigma_shape gamma_shape det_rate_est det_rate_conc
       det_noise_scale rw_scale drift_scale obs use_hosp hosp_rate_est
       hosp_rate_conc hosp_noise_scale hosp top_context h []
     = Some ((Vec beta, Vec x, Vec y, z, det_rate, hosp_rate), tr) /\
     length beta = (T - 1)%nat /\
     length x = (T + T_future)%nat /\
     length y = (T + T_future)%nat /\
     ((0 < T_future)%nat ->
      exists s beta_f, In s tr /\ s_name s = "beta_future"
                       /\ s_value s = VReal (Vec beta_f)
                       /\ length beta_f = T_future)) /\
  (exists beta x y det_rate tr,
     SEIR_hierarchical p T Np T_future E_duration_est I_duration_est R0_est
       det_rate_est det_rate_conc rw_scale det_scale place_covariates
       drift_scale obs_p top_context h []
     = Some ((Mat beta, Mat x, Mat y, det_rate), tr) /\
     has_shape (Mat beta) [p; (T - 1)%nat] /\
     has_shape (Mat x) [p; (T + T_future)%nat] /\
     has_shape (Mat y) [p; (T + T_future)%nat] /\
     ((0 < T_future)%nat ->
      exists s beta_f, In s tr /\ s_name s = "beta_future"
                       /\ s_value s = VReal (Mat beta_f)
                       /\ has_shape (Mat beta_f) [p; T_future])).
Proof.
  intros HT Hobs Hhosp HX HN Hobs_p. split.
  - destruct (SEIR_stochastic_runs T N T_future E_duration_est I_duration_est
                R0_est beta_shape sigma_shape gamma_shape det_rate_est
                det_rate_conc det_noise_scale rw_scale drift_scale obs use_hosp
                hosp_rate_est hosp_rate_conc hosp_noise_scale hosp h HT
                (aligned_splittable obs T HT Hobs) Hhosp)
      as (beta & x & y & z & dr & hr & tr & E & Hb & Hx & Hy & _ & _ & Hf).
    rewrite (aligned_series_length obs T Hobs) in Hy.
    exists beta, x, y, (Vec z), (Scal dr), (Scal hr), tr. auto.
  - destruct (SEIR_hierarchical_runs p T Np T_future E_duration_est
                I_duration_est R0_est det_rate_est det_rate_conc rw_scale
                det_scale place_covariates drift_scale obs_p h HT HX HN Hobs_p)
      as (beta & x & y & det_rate & tr & E & Hb & Hx & Hy & _ & Hf & _).
    exists beta, x, y, det_rate, tr. repeat (split; [assumption|]).
    intros HF. destruct (Hf HF) as (s & bf & loc & walk & Hin & Hn & Hv & Hs
                                    & _).
    exists s, bf. auto.
Qed.

End ModelProperties.

(** ** The distributions *)

Lemma zip_with_constant {A B C} (f : A -> B -> C) (c : C) la lb n :
  length la = n -> length lb = n ->
  (forall a b, In a la -> In b lb -> f a b = c) ->
  zip_with f la lb = repeat c n.
Proof.
  revert lb n; induction la as [|a la IH]; intros [|b lb] n; simpl;
    intros Ha Hb H; subst; try discriminate; auto.
  simpl. rewrite H by auto. f_equal. apply IH; auto.
Qed.

Lemma cumsum_zero_innovations s acc z :
  Forall (fun e => s * e = 0) z -> acc * s = 0 ->
  map (fun a => a * s) (cumsum_from acc z) = repeat 0 (length z).
Proof.
  intros H; revert acc; induction H as [|e z He _ IH]; intros acc Hacc;
    simpl; auto.
  assert (E : (acc + e) * s = 0) by lra.
  now rewrite E, (IH _ E).
Qed.

(** The walk with no drift whose innovations all vanish: constant at
    [log(loc)] in the log domain, constant at [loc] after the exponential. *)
Lemma ExponentialRandomWalk_still loc s k z :
  0 < loc -> (0 < k)%nat -> length z = k ->
  Forall (fun e => s * e = 0) z ->
  exists log_loc,
    ExponentialRandomWalk (Scal loc) (Scal s) (Scal 0) k
    = Some (TransformedDistribution (GaussianRandomWalk (Scal s) k)
              [AffineTransform log_loc (Scal 1); ExpTransform]) /\
    obind (dist_sample (GaussianRandomWalk (Scal s) k) (Vec z))
          (apply_transform (AffineTransform log_loc (Scal 1)))
    = Some (Vec (repeat (ln loc) k)) /\
    dist_sample (TransformedDistribution (GaussianRandomWalk (Scal s) k)
                   [AffineTransform log_loc (Scal 1); ExpTransform]) (Vec z)
    = Some (Vec (repeat loc k)).
Proof.
  intros Hloc Hk Hz Hs.
  set (L := map (Rplus (ln loc)) (map (Rmult 0) (map INR (seq 0 k)))).
  exists (Vec L).
  assert (Ewalk : dist_sample (GaussianRandomWalk (Scal s) k) (Vec z)
                  = Some (Vec (repeat 0 k))).
  { cbn [dist_sample expand_dims obind cumsum mul map2 omap].
    rewrite bzip_singleton_r. cbn [omap].
    rewrite (cumsum_zero_innovations s 0 z Hs) by lra. now rewrite Hz. }
  assert (Elog : apply_transform (AffineTransform (Vec L) (Scal 1))
                                 (Vec (repeat 0 k))
                 = Some (Vec (repeat (ln loc) k))).
  { cbn [apply_transform mul map2 amap obind add omap].
    rewrite bzip_same
      by (subst L; now rewrite !length_map, length_seq, repeat_length).
    cbn [omap]. do 2 f_equal. apply zip_with_constant.
    - subst L. now rewrite !length_map, length_seq.
    - now rewrite length_map, repeat_length.
    - intros a b Ha Hb. subst L.
      apply in_map_iff in Ha. destruct Ha as (a' & <- & Ha).
      apply in_map_iff in Ha. destruct Ha as (i & <- & _).
      apply in_map_iff in Hb. destruct Hb as (b' & <- & Hb).
      apply repeat_spec in Hb. subst b'. lra. }
  split; [|split].
  - reflexivity.
  - rewrite Ewalk. exact Elog.
  - cbn [dist_sample] in *. rewrite Ewalk.
    cbn [obind apply_transforms] in *. rewrite Elog.
    cbn [obind apply_transform amap]. rewrite map_repeat.
    now rewrite exp_ln.
Qed.

(** C4.  [ExponentialRandomWalk(loc, scale=0, drift=0, num_steps=k)] with
    [loc > 0] and [k >= 1] yields the constant sequence [[loc]*k] for every
    draw the host can make; and with any scale, when every innovation is 0,
    the walk is constant at [log(loc)] in the log domain and at [loc] after
    the exponential. *)
Theorem ExponentialRandomWalk_constant loc k :
  0 < loc -> (1 <= k)%nat ->
  (exists d,
     ExponentialRandomWalk (Scal loc) (Scal 0) (Scal 0) k = Some d /\
     (forall z, length z = k ->
                dist_sample d (Vec z) = Some (Vec (repeat loc k))) /\
     (forall name h tr,
        exists tr', sample name d None [] top_context h tr
                    = Some (Vec (repeat loc k), tr'))) /\
  (forall scale,
     exists walk log_loc,
       ExponentialRandomWalk (Scal loc) (Scal scale) (Scal 0) k
       = Some (TransformedDistribution walk
                 [AffineTransform log_loc (Scal 1); ExpTransform]) /\
       obind (dist_sample walk (Vec (repeat 0 k)))
             (apply_transform (AffineTransform log_loc (Scal 1)))
       = Some (Vec (repeat (ln loc) k)) /\
       dist_sample (TransformedDistribution walk
                      [AffineTransform log_loc (Scal 1); ExpTransform])
                   (Vec (repeat 0 k))
       = Some (Vec (repeat loc k))).
Proof.
  intros Hloc Hk.
  assert (Hzero : forall z : list R, Forall (fun e => 0 * e = 0) z).
  { intros z. apply Forall_forall. intros; lra. }
  split.
  - destruct (ExponentialRandomWalk_still loc 0 k (repeat 0 k) Hloc
                ltac:(lia) (repeat_length _ _) (Hzero _))
      as (log_loc & Ed & _ & _).
    eexists. split; [exact Ed|]. split.
    + intros z Hz.
      destruct (ExponentialRandomWalk_still loc 0 k z Hloc
                  ltac:(lia) Hz (Hzero _)) as (log_loc' & Ed' & _ & Es).
      rewrite Ed in Ed'. injection Ed' as <-. exact Es.
    + intros name h tr.
      set (z := map (fun i => h name [i]) (seq 0 k)).
      destruct (ExponentialRandomWalk_still loc 0 k z Hloc ltac:(lia))
        as (log_loc' & Ed' & _ & Es); auto.
      { subst z. now rewrite length_map, length_seq. }
      rewrite Ed in Ed'. injection Ed' as <-.
      unfold sample, draw_shape.
      cbn [batch_shape event_shape ashape obind cx_plate top_context app
           tabulate].
      fold z. rewrite Es. cbn [obind]. eauto.
  - intros scale.
    destruct (ExponentialRandomWalk_still loc scale k (repeat 0 k) Hloc
                ltac:(lia) (repeat_length _ _)) as (log_loc & Ed & El & Es).
    { apply Forall_forall. intros e He. apply repeat_spec in He. subst. lra. }
    eauto.
Qed.

Lemma ExponentialRandomWalk_constant_witness :
  (exists d,
     ExponentialRandomWalk (Scal 2) (Scal 0) (Scal 0) 3 = Some d /\
     (forall z, length z = 3%nat ->
                dist_sample d (Vec z) = Some (Vec (repeat 2 3))) /\
     (forall name h tr,
        exists tr', sample name d None [] top_context h tr
                    = Some (Vec (repeat 2 3), tr'))) /\
  (forall scale,
     exists walk log_loc,
       ExponentialRandomWalk (Scal 2) (Scal scale) (Scal 0) 3
       = Some (TransformedDistribution walk
                 [AffineTransform log_loc (Scal 1); ExpTransform]) /\
       obind (dist_sample walk (Vec (repeat 0 3)))
             (apply_transform (AffineTransform log_loc (Scal 1)))
       = Some (Vec (repeat (ln 2) 3)) /\
       dist_sample (TransformedDistribution walk
                      [AffineTransform log_loc (Scal 1); ExpTransform])
                   (Vec (repeat 0 3))
       = Some (Vec (repeat 2 3))).
Proof. apply (ExponentialRandomWalk_constant 2 3); [lra|lia]. Defined.

(** C5.  [GammaMeanDispersion(mean, dispersion)] with [mean > 0] and
    [dispersion > 0] is the Gamma distribution of shape [1 / dispersion] and
    rate [shape / mean]; its mean [shape / rate] is [mean] and its variance
    [shape / rate^2] is [mean^2 * dispersion]. *)
Theorem GammaMeanDispersion_moments mu dispersion :
  0 < mu -> 0 < dispersion ->
  exists d,
    GammaMeanDispersion (Scal mu) (Scal dispersion) = Some d /\
    d = Gamma (Scal (1 / dispersion)) (Scal (1 / dispersion / mu)) /\
    Gamma_mean d = Some (Scal mu) /\
    Gamma_variance d = Some (Scal (mu ^ 2 * dispersion)).
Proof.
  intros Hmu Hd. eexists. split; [reflexivity|]. split; [reflexivity|].
  split; simpl; do 2 f_equal; field; lra.
Qed.

Lemma GammaMeanDispersion_moments_witness :
  exists d,
    GammaMeanDispersion (Scal 3) (Scal (1 / 2)) = Some d /\
    d = Gamma (Scal (1 / (1 / 2))) (Scal (1 / (1 / 2) / 3)) /\
    Gamma_mean d = Some (Scal 3) /\
    Gamma_variance d = Some (Scal (3 ^ 2 * (1 / 2))).
Proof. apply (GammaMeanDispersion_moments 3 (1 / 2)); lra. Defined.

(** ** The means of the hierarchical priors *)

Lemma dot_row_update row : forall theta theta' j,
  length theta = length row -> length theta' = length row ->
  (j < length row)%nat ->
  (forall k, k <> j -> nth k theta' 0 = nth k theta 0) ->
  dot_row row theta'
  = dot_row row theta + nth j row 0 * (nth j theta' 0 - nth j theta 0).
Proof.
  induction row as [|x row IH]; intros [|t theta] [|t' theta'] j; simpl;
    try discriminate; try lia.
  intros [= Ht] [= Ht'] Hj Hk. destruct j as [|j].
  - assert (E : theta' = theta).
    { apply (nth_ext _ _ 0 0); [congruence|].
      intros n _. apply (Hk (S n)). discriminate. }
    subst. lra.
  - rewrite (IH theta theta' j Ht Ht') by
      (try lia; intros k Hkj; apply (Hk (S k)); congruence).
    pose proof (Hk 0%nat ltac:(discriminate)) as E0. simpl in E0. subst. lra.
Qed.

Lemma expit_increasing x y : x < y -> expit x < expit y.
Proof.
  intros H. unfold expit.
  assert (Hx := exp_pos (- x)). assert (Hy := exp_pos (- y)).
  assert (Hxy : exp (- y) < exp (- x)) by (apply exp_increasing; lra).
  unfold Rdiv. rewrite !Rmult_1_l.
  apply Rinv_lt_contravar; [|lra].
  apply Rmult_lt_0_compat; lra.
Qed.

Lemma expit_logit p : 0 < p < 1 -> expit (logit p) = p.
Proof.
  intros [H0 H1]. unfold expit, logit.
  assert (Hq : 0 < p / (1 - p)).
  { apply Rdiv_lt_0_compat; lra. }
  rewrite exp_Ropp, exp_ln by assumption. field. lra.
Qed.

(** ** The alternate observation link *)

Lemma reals_of_azip {A B} (f : A -> B -> fl) (g : A -> B -> R) a b :
  (forall x y, real_of (f x y) = Some (g x y)) ->
  reals_of (azip f a b) = Some (azip g a b).
Proof.
  intros H.
  assert (Hrow : forall u v, sequence (map real_of (zip_with f u v))
                             = Some (zip_with g u v)).
  { induction u as [|x u IH]; intros [|y v]; simpl; auto.
    now rewrite H, IH. }
  destruct a as [x|u|m]; destruct b as [y|v|n]; simpl; auto.
  - now rewrite H.
  - now rewrite Hrow.
  - replace (sequence _) with (Some (zip_with (zip_with g) m n)); auto.
    symmetry. revert n. induction m as [|r m IH]; intros [|r' n]; simpl; auto.
    now rewrite Hrow, IH.
Qed.

Lemma amap_const_same_shape {A B C} (c : C) (a : arr A) (b : arr B) sh :
  has_shape a sh -> has_shape b sh ->
  amap (fun _ => c) a = amap (fun _ => c) b.
Proof.
  destruct a as [x|u|m]; destruct b as [y|v|n];
    destruct sh as [|p [|k [|? ?]]]; simpl; try tauto.
  - intros <- Hv. now rewrite !map_const_repeat, Hv.
  - intros [<- Hm] [Hn HFn]. f_equal. revert n Hn HFn.
    induction Hm as [|r m Hr _ IH]; intros [|r' n]; simpl; try discriminate;
      auto.
    intros [= Hn] HFn. inversion HFn; subst.
    rewrite !map_const_repeat. f_equal; [congruence|]. now apply IH.
Qed.

(** The alternate link with one detection rate and one concentration for
    all entries: the count, the rate and the concentration it passes to
    [BinomialApprox]. *)
Lemma observe_binom_approx_runs name latent r c obs sh cx h tr :
  has_shape latent sh -> cx_plate cx = None ->
  match obs with Some o => has_shape o sh | None => True end ->
  exists n p d y site,
    _observe_binom_approx name latent (Scal r) (Scal c) obs cx h tr
    = Some (y, tr ++ [site]) /\
    s_name site = name /\ s_fn site = Some d /\
    n = amap (fun x => x + 0.5 / r + 0.5 / r) latent /\
    p = amap (fun _ => r) latent /\
    BinomialApprox n p
      (Some (amap (fun x => Rmin c (x + 0.5 / r)) latent)) = Some d.
Proof.
  intros HL Hcx Hobs.
  set (latent' := amap (fun x => x + 0.5 / r) latent).
  assert (HL' : has_shape latent' sh) by now apply has_shape_amap.
  destruct (broadcast_to_shape (Scal r) latent' [] sh I HL'
              (broadcast_shapes_nil_l sh)) as (p & Ep & Hp).
  assert (Ep' : p = amap (fun _ => r) latent').
  { revert Ep. unfold broadcast_to.
    destruct (has_shape_full latent' sh HL') as (like & -> & Hlike).
    cbn [obind map2]. destruct (list_eq_dec _ _ _); [|discriminate].
    intros [= <-]. exact (amap_const_same_shape r like latent' sh Hlike HL'). }
  set (conc := amap (Rmin c) latent').
  set (n := amap (fun x => x + 0.5 / r) latent').
  assert (Hn : add latent' (amap (Rdiv 0.5) p) = Some n).
  { subst p n. rewrite amap_amap. unfold add.
    rewrite (map2_same _ _ _ sh) by auto using has_shape_amap.
    now rewrite azip_amap_r, azip_diag. }
  assert (Hconc : has_shape conc sh) by now apply has_shape_amap.
  assert (HnS : has_shape n sh) by now apply has_shape_amap.
  destruct (map2_shape Rmult conc p sh sh sh Hconc Hp
              (broadcast_shapes_refl _ _ HL)) as (a & Ea & Ha).
  destruct (map2_shape Rmult conc (amap (Rminus 1) p) sh sh sh Hconc
              (has_shape_amap _ _ _ Hp) (broadcast_shapes_refl _ _ HL))
    as (b & Eb & Hb).
  set (d := TransformedDistribution (Beta a b) [AffineTransform (Scal 0) n]).
  assert (Ed : BinomialApprox n p (Some conc) = Some d).
  { unfold BinomialApprox, mul. rewrite Ea. cbn [obind sub map2].
    now rewrite Eb. }
  assert (Hobs' : exists mask o',
    match obs with
    | Some obs =>
        let mask := amap isfinite obs in
        half <- lift (mul (Scal 0.5) latent') ;;
        obs <- lift (where_ mask obs (amap Fin half)) ;;
        obs <- lift (reals_of obs) ;;
        obs <- lift (add obs (Scal 0.5)) ;;
        ret (mask, Some obs)
    | None => ret (Scal true, None)
    end cx h tr = Some ((mask, o'), tr)).
  { destruct obs as [o|]; [|now exists (Scal true), None].
    do 2 eexists. erewrite bind_Some by reflexivity.
    erewrite bind_Some.
    2:{ unfold where_. rewrite map2_amap_diag. cbn [obind].
        rewrite (map2_same _ _ _ sh) by auto using has_shape_amap.
        reflexivity. }
    erewrite bind_Some.
    2:{ rewrite azip_amap_l, !azip_amap_r. cbn [fst snd].
        rewrite (reals_of_azip _ (fun e x => match e with
                                             | Fin v => v
                                             | _ => 0.5 * x
                                             end)); [reflexivity|].
        now intros []. }
    erewrite bind_Some by (unfold add; rewrite map2_scal_r; reflexivity).
    reflexivity. }
  destruct Hobs' as (mask & o' & Eobs).
  assert (Hy : exists y,
    with_mask (Some mask) (Scal true) (sample name d o' []) cx h tr
    = Some (y, tr ++ [mkSite name SampleSite (Some d) (VReal y)
                             (match o' with Some _ => true | None => false end)
                             (Scal true)])).
  { destruct o' as [v|]; [eexists; reflexivity|].
    unfold with_mask, sample, draw_shape, d.
    cbn [batch_shape event_shape cx_plate obind]. rewrite Hcx.
    rewrite (has_shape_ashape b a sh Hb Ha).
    assert (Hbc : broadcast_shapes (ashape a) (ashape a) = Some (ashape a)).
    { clear - Ha. destruct a as [x|v|m]; unfold broadcast_shapes;
        simpl; now rewrite ?broadcast_dim_refl. }
    rewrite Hbc. cbn [obind app]. rewrite app_nil_r.
    destruct (tabulate_shape a sh (h name) Ha) as (raw & -> & Hraw).
    cbn [obind dist_sample apply_transforms apply_transform].
    destruct (map2_shape Rmult n raw sh sh sh HnS Hraw
                (broadcast_shapes_refl _ _ HnS)) as (nr & Enr & Hnr).
    unfold mul. rewrite Enr. unfold add. cbn [map2 obind cx_mask].
    eexists; reflexivity. }
  destruct Hy as (y & Ey).
  exists n, p, d, y. eexists. split.
  - unfold _observe_binom_approx.
    erewrite bind_Some by reflexivity. cbn [amap].
    rewrite (bind_Some _ _ _ _ _ latent' tr)
      by (unfold add; now rewrite map2_scal_r).
    rewrite (bind_Some _ _ _ _ _ _ _ Eobs).
    rewrite (bind_Some _ _ _ _ _ p tr) by now rewrite Ep.
    rewrite (bind_Some _ _ _ _ _ conc tr) by reflexivity.
    rewrite (bind_Some _ _ _ _ _ (amap (Rdiv 0.5) p) tr) by reflexivity.
    rewrite (bind_Some _ _ _ _ _ n tr) by now rewrite Hn.
    rewrite (bind_Some _ _ _ _ _ d tr) by now rewrite Ed.
    rewrite (bind_Some _ _ _ _ _ _ _ Ey). reflexivity.
  - split; [reflexivity|]. split; [reflexivity|].
    split; [|split].
    + subst n latent'. now rewrite amap_amap.
    + rewrite Ep'. subst latent'. now rewrite amap_amap.
    + subst conc latent'. rewrite amap_amap in Ed. exact Ed.
Qed.

(** C8, as the code has it.  In the alternate link the concentration passed
    to [BinomialApprox] is [min(det_conc, latent + 0.5 / det_rate)], the
    minimum taken on the latent count after the regulariser is added to it;
    the count passed with it has the regulariser added once more. *)
Theorem observe_binom_approx_concentration name latent r c obs sh cx h tr :
  has_shape latent sh -> cx_plate cx = None ->
  match obs with Some o => has_shape o sh | None => True end ->
  exists n p d y site,
    _observe_binom_approx name latent (Scal r) (Scal c) obs cx h tr
    = Some (y, tr ++ [site]) /\
    s_name site = name /\ s_fn site = Some d /\
    BinomialApprox n p
      (Some (amap (fun x => Rmin c (x + 0.5 / r)) latent)) = Some d /\
    n = amap (fun x => x + 0.5 / r + 0.5 / r) latent /\
    p = amap (fun _ => r) latent.
Proof.
  intros HL Hcx Hobs.
  destruct (observe_binom_approx_runs name latent r c obs sh cx h tr
              HL Hcx Hobs) as (n & p & d & y & site & E & Hn & Hd & En & Ep
                               & Eb).
  exists n, p, d, y, site. repeat split; assumption.
Qed.

Lemma observe_binom_approx_concentration_witness :
  exists n p d y site,
    _observe_binom_approx "y" (Vec [1]) (Scal (1 / 2)) (Scal 100) None
                          top_context (fun _ _ => 0) []
    = Some (y, [] ++ [site]) /\
    s_name site = "y" /\ s_fn site = Some d /\
    BinomialApprox n p
      (Some (amap (fun x => Rmin 100 (x + 0.5 / (1 / 2))) (Vec [1])))
    = Some d /\
    n = amap (fun x => x + 0.5 / (1 / 2) + 0.5 / (1 / 2)) (Vec [1]) /\
    p = amap (fun _ => 1 / 2) (Vec [1]).
Proof.
  apply (observe_binom_approx_concentration "y" (Vec [1]) (1 / 2) 100 None
           [1%nat]); [reflexivity|reflexivity|exact I].
Defined.

(** C8, as claimed, fails: with latent count 1, detection rate 1/2 and
    [det_conc = 100] the link records a distribution that no call of
    [BinomialApprox] with the concentration [min(100, 1)] of the raw count
    returns; the concentration passed is [min(100, 1 + 0.5 / (1/2)) = 2]. *)
Lemma observe_binom_approx_raw_cap_fails :
  exists y site d,
    _observe_binom_approx "y" (Vec [1]) (Scal (1 / 2)) (Scal 100) None
                          top_context (fun _ _ => 0) []
    = Some (y, [site]) /\
    s_fn site = Some d /\
    forall n p,
      BinomialApprox n p (Some (amap (Rmin 100) (Vec [1]))) <> Some d.
Proof.
  destruct (observe_binom_approx_runs "y" (Vec [1]) (1 / 2) 100 None
              [1%nat] top_context (fun _ _ => 0) [] eq_refl eq_refl I)
    as (n & p & d & y & site & E & _ & Hd & -> & -> & Eb).
  exists y, site, d. split; [exact E|]. split; [exact Hd|].
  cbn in Eb. injection Eb as <-.
  assert (E1 : Rmin 100 1 = 1) by (apply Rmin_right; lra).
  assert (E2 : Rmin 100 (1 + 0.5 / (1 / 2)) = 2).
  { replace (1 + 0.5 / (1 / 2)) with 2 by lra. apply Rmin_right; lra. }
  intros n' p'. unfold BinomialApprox. cbn [amap map].
  rewrite E1, E2.
  destruct p' as [q|[|q [|q' l]]|m]; cbn; try discriminate.
  - intros [= Ha Hb _]. lra.
  - intros [= Ha Hb _]. lra.
  - destruct (sequence _); cbn; [|discriminate].
    destruct (sequence _); cbn; discriminate.
Qed.

(** ** The theorems at the reference compartment model *)

Lemma SEIR_stochastic_lengths_witness :
  exists beta x y z det_rate hosp_rate tr,
    @SEIR_stochastic EulerSEIR 10 100000 5 4 2 3 1 5 5 0.3 50 0.15 0.1 None
      None false 0.15 30 0.3 None top_context (fun _ _ => 1) []
    = Some ((beta, Vec x, Vec y, z, det_rate, hosp_rate), tr) /\
    length x = (10 + 5)%nat /\
    length y = (10 + 5)%nat /\
    (5%nat = 0%nat -> length y = 10%nat).
Proof.
  apply (@SEIR_stochastic_lengths EulerSEIR 10 100000 5 4 2 3 1 5 5 0.3 50
           0.15 0.1 None None false 0.15 30 0.3 None (fun _ _ => 1)).
  - lia.
  - exact I.
  - discriminate.
Defined.

Lemma SEIR_stochastic_no_hosp_witness :
  (exists beta x y det_rate tr,
     @SEIR_stochastic EulerSEIR 10 100000 0 4 2 3 1 5 5 0.3 50 0.15 0.1 None
       None false 0.15 30 0.3 (Some (Vec [NaN])) top_context (fun _ _ => 1) []
     = Some ((beta, x, Vec y, Vec (repeat 0 (length y)), det_rate, Scal 0),
             tr)) /\
  (forall hosp_rate_est' hosp_rate_conc' hosp_noise_scale' hosp',
     @SEIR_stochastic EulerSEIR 10 100000 0 4 2 3 1 5 5 0.3 50 0.15 0.1 None
       None false hosp_rate_est' hosp_rate_conc' hosp_noise_scale' hosp'
       top_context (fun _ _ => 1) []
     = @SEIR_stochastic EulerSEIR 10 100000 0 4 2 3 1 5 5 0.3 50 0.15 0.1
         None None false 0.15 30 0.3 (Some (Vec [NaN])) top_context
         (fun _ _ => 1) []).
Proof.
  apply (@SEIR_stochastic_no_hosp EulerSEIR 10 100000 0 4 2 3 1 5 5 0.3 50
           0.15 0.1 None None 0.15 30 0.3 (Some (Vec [NaN])) (fun _ _ => 1)).
  - lia.
  - exact I.
Defined.


Lemma transmission_rates_not_extended_witness :
  (exists beta x y z det_rate hosp_rate tr,
     @SEIR_stochastic EulerSEIR 10 100000 5 4 2 3 1 5 5 0.3 50 0.15 0.1 None
       None false 0.15 30 0.3 None top_context (fun _ _ => 1) []
     = Some ((Vec beta, Vec x, Vec y, z, det_rate, hosp_rate), tr) /\
     length beta = (10 - 1)%nat /\
     length x = (10 + 5)%nat /\
     length y = (10 + 5)%nat /\
     ((0 < 5)%nat ->
      exists s beta_f, In s tr /\ s_name s = "beta_future"
                       /\ s_value s = VReal (Vec beta_f)
                       /\ length beta_f = 5%nat)) /\
  (exists beta x y det_rate tr,
     @SEIR_hierarchical EulerSEIR 2 10 (Scal 100000) 5 4 2 3 0.3 50 0.1 0.2
       two_places None None top_context (fun _ _ => 1) []
     = Some ((Mat beta, Mat x, Mat y, det_rate), tr) /\
     has_shape (Mat beta) [2%nat; (10 - 1)%nat] /\
     has_shape (Mat x) [2%nat; (10 + 5)%nat] /\
     has_shape (Mat y) [2%nat; (10 + 5)%nat] /\
     ((0 < 5)%nat ->
      exists s beta_f, In s tr /\ s_name s = "beta_future"
                       /\ s_value s = VReal (Mat beta_f)
                       /\ has_shape (Mat beta_f) [2%nat; 5%nat])).
Proof.
  apply (@transmission_rates_not_extended EulerSEIR 10 100000 5 4 2 3 1 5 5
           0.3 50 0.15 0.1 None None false 0.15 30 0.3 None 2 (Scal 100000)
           0.2 two_places None (fun _ _ => 1)).
  - lia.
  - exact I.
  - discriminate.
  - split; [reflexivity|]. repeat constructor.
  - exact I.
  - exact I.
Defined.

(** A series shorter than the [T] time steps is returned as it is: the
    confirmed cases are then as many as the observations, not [T]. *)
Example SEIR_stochastic_short_series :
  exists beta x y z det_rate hosp_rate tr,
    @SEIR_stochastic EulerSEIR 10 100000 0 4 2 3 1 5 5 0.3 50 0.15 0.1 None
      (Some (Vec [Fin 1; Fin 2])) false 0.15 30 0.3 None top_context
      (fun _ _ => 1) []
    = Some ((Vec beta, Vec x, Vec y, Vec z, Scal det_rate, Scal hosp_rate),
            tr) /\
    length x = 10%nat /\ length y = 2%nat.
Proof.
  destruct (@SEIR_stochastic_runs EulerSEIR 10 100000 0 4 2 3 1 5 5 0.3 50
              0.15 0.1 None (Some (Vec [Fin 1; Fin 2])) false 0.15 30 0.3 None
              (fun _ _ => 1) ltac:(lia) I ltac:(discriminate))
    as (beta & x & y & z & dr & hr & tr & E & _ & Hx & Hy & _).
  exists beta, x, y, z, dr, hr, tr. simpl in Hx, Hy. auto.
Qed.

(** * Further properties *)

(** ** What a statement adds to the trace *)

Lemma sample_inv name d obs ss cx h tr v tr' :
  sample name d obs ss cx h tr = Some (v, tr') ->
  tr' = tr ++ [sample_site name d v (is_some obs) (cx_mask cx)]
  /\ (forall o, obs = Some o -> v = o).
Proof.
  unfold sample. destruct obs as [o|].
  - intros [= <- <-]. split; [reflexivity|]. now intros ? [= <-].
  - destruct (draw_shape cx d ss) as [sh|]; [|discriminate]. cbn [obind].
    destruct (tabulate sh (h name)) as [raw|]; [|discriminate]. cbn [obind].
    destruct (dist_sample d raw) as [w|]; [|discriminate]. cbn [obind].
    intros [= <- <-]. split; [reflexivity|discriminate].
Qed.

Lemma sample_drawn name d ss cx h tr v tr' :
  sample name d None ss cx h tr = Some (v, tr') -> drawn cx h name d ss v.
Proof.
  unfold sample, drawn.
  destruct (draw_shape cx d ss) as [sh|] eqn:E1; [|discriminate].
  cbn [obind].
  destruct (tabulate sh (h name)) as [raw|] eqn:E2; [|discriminate].
  cbn [obind].
  destruct (dist_sample d raw) as [w|] eqn:E3; [|discriminate].
  cbn [obind]. intros [= <- <-]. exists sh, raw. auto.
Qed.

(** Inversion of the [bind]s, [lift]s and [ret]s of a hypothesis, one
    statement at a time. *)
Ltac minv_step :=
  match goal with
  | H : bind _ _ _ _ _ = Some _ |- _ =>
      let a := fresh "a" in
      let t := fresh "t" in
      let E := fresh "E" in
      apply bind_inv in H; destruct H as (a & t & E & H); cbv beta in H
  | H : lift _ _ _ _ = Some _ |- _ =>
      let E := fresh "L" in
      apply lift_inv in H; destruct H as [E ?]; subst
  | H : ret _ _ _ _ = Some _ |- _ =>
      let E := fresh "E" in
      apply ret_inv in H; destruct H as [E ?];
      first [ injection E; clear E; intros; subst | subst ]
  | H : (let (_, _) := ?p in _) _ _ _ = Some _ |- _ => destruct p
  end.

Ltac minv := repeat minv_step.

(** [observe] adds the site of the mean and the link site, in this order;
    with observations it returns them cleaned. *)
Lemma observe_inv name latent det_rate dns obs cx h tr y tr' :
  observe name latent det_rate dns obs cx h tr = Some (y, tr') ->
  exists mean scale,
    link_mean latent det_rate = Some mean /\
    link_scale dns mean = Some scale /\
    tr' = tr ++ [mean_site name mean; link_site name mean scale y obs] /\
    (forall o, obs = Some o -> y = cleaned o).
Proof.
  unfold observe, _observe_normal. intros H. minv.
  assert (Hobs : a1 = link_mask obs /\
                 o = match obs with
                     | Some o => Some (cleaned o)
                     | None => None
                     end /\ t1 = tr).
  { destruct obs as [ob|]; minv; [|auto].
    match goal with H : where_ _ _ _ = Some _ |- _ =>
      rewrite where_isfinite in H; injection H as <- end.
    match goal with H : reals_of _ = Some _ |- _ =>
      rewrite reals_of_replaced in H; injection H as <- end.
    match goal with H : add _ (Scal 0.5) = Some _ |- _ =>
      unfold add in H; rewrite map2_scal_r in H; injection H as <- end.
    unfold cleaned. rewrite amap_amap. auto. }
  destruct Hobs as (-> & -> & ->).
  unfold deterministic in *.
  match goal with H : Some _ = Some (_, _) |- _ => injection H as <- <- end.
  match goal with H : with_mask _ _ _ _ _ _ = Some _ |- _ =>
    unfold with_mask in H; apply sample_inv in H; destruct H as [-> Hy] end.
  exists a3, a5. split; [|split; [|split]].
  - unfold link_mean.
    repeat (match goal with H : _ = Some _ |- _ => rewrite H; clear H end;
            cbn [obind]).
    reflexivity.
  - unfold link_scale.
    repeat (match goal with H : _ = Some _ |- _ => rewrite H; clear H end;
            cbn [obind]).
    reflexivity.
  - rewrite <- app_assoc. cbn [app cx_mask]. unfold link_site, sample_site.
    now destruct obs.
  - intros ob ->. now apply Hy.
Qed.

(** ** Arrays, entry by entry *)

Lemma amap_ext_entries {A B} (f g : A -> B) (a : arr A) :
  all_entries (fun x => f x = g x) a -> amap f a = amap g a.
Proof.
  unfold all_entries. destruct a as [x|v|m]; simpl; intros H.
  - inversion H; subst. now f_equal.
  - f_equal. apply map_ext_in. now apply Forall_forall.
  - f_equal. apply map_ext_in. intros r Hr. apply map_ext_in. intros x Hx.
    rewrite Forall_forall in H. apply H. apply in_concat. eauto.
Qed.

Lemma all_entries_amap {A B} (P : B -> Prop) (f : A -> B) (a : arr A) :
  all_entries (fun x => P (f x)) a -> all_entries P (amap f a).
Proof.
  unfold all_entries. destruct a as [x|v|m]; simpl; intros H.
  - inversion H; subst. auto.
  - now apply Forall_map.
  - rewrite <- concat_map. now apply Forall_map.
Qed.

Lemma all_entries_impl {A} (P Q : A -> Prop) (a : arr A) :
  (forall x, P x -> Q x) -> all_entries P a -> all_entries Q a.
Proof. intros HPQ. unfold all_entries. apply Forall_impl. exact HPQ. Qed.

Lemma map2_amap_amap {A B C D} (f : B -> C -> D) (g : A -> B) (k : A -> C)
  (a : arr A) :
  map2 f (amap g a) (amap k a) = Some (amap (fun x => f (g x) (k x)) a).
Proof.
  destruct a as [x|v|m]; simpl; auto.
  - rewrite bzip_same by now rewrite !length_map.
    now rewrite zip_with_map_l, zip_with_map_r, zip_with_diag.
  - rewrite bzip_same by now rewrite !length_map.
    rewrite zip_with_map_l, zip_with_map_r, zip_with_diag. simpl.
    rewrite (map_ext _ (fun r => Some (map (fun x => f (g x) (k x)) r))).
    + now rewrite sequence_map_Some.
    + intros r. rewrite bzip_same by now rewrite !length_map.
      now rewrite zip_with_map_l, zip_with_map_r, zip_with_diag.
Qed.

Lemma map2_amap_self_r {A B C} (f : A -> B -> C) (k : A -> B) (a : arr A) :
  map2 f a (amap k a) = Some (amap (fun x => f x (k x)) a).
Proof.
  rewrite <- (amap_id a) at 1. apply map2_amap_amap.
Qed.

Lemma map2_self {A C} (f : A -> A -> C) (a : arr A) :
  map2 f a a = Some (amap (fun x => f x x) a).
Proof.
  rewrite <- (amap_id a) at 2. apply map2_amap_self_r.
Qed.

(** ** Distributions by their moments *)

(** X1. [GammaMeanVar] of an array of means without a zero entry and one
    variance other than zero is a Gamma distribution with these means and,
    for each of them, this variance. *)
Theorem GammaMeanVar_moments (mu : arr R) (var : R) :
  all_entries (fun m => m <> 0) mu -> var <> 0 ->
  exists d,
    GammaMeanVar mu (Scal var) = Some d /\
    d = Gamma (amap (fun m => m * m / var) mu)
              (amap (fun m => m * m / var / m) mu) /\
    Gamma_mean d = Some mu /\
    Gamma_variance d = Some (amap (fun _ => var) mu).
Proof.
  intros Hmu Hvar. unfold GammaMeanVar, mul at 1.
  rewrite map2_self. cbn [obind]. unfold div at 1.
  rewrite map2_scal_r, amap_amap. cbn [obind]. unfold div at 1.
  rewrite map2_amap_diag. cbn [obind].
  eexists. split; [reflexivity|]. split; [reflexivity|].
  cbn [Gamma_mean Gamma_variance]. unfold div, mul.
  rewrite !map2_amap_amap. cbn [obind].
  rewrite map2_amap_amap. split; f_equal.
  - rewrite <- (amap_id mu) at 2. apply amap_ext_entries.
    revert Hmu. apply all_entries_impl. intros m Hm. now field.
  - apply amap_ext_entries. revert Hmu. apply all_entries_impl.
    intros m Hm. now field.
Qed.

Lemma GammaMeanVar_moments_witness :
  exists d,
    GammaMeanVar (Vec [3; 4.5]) (Scal 0.1) = Some d /\
    d = Gamma (amap (fun m => m * m / 0.1) (Vec [3; 4.5]))
              (amap (fun m => m * m / 0.1 / m) (Vec [3; 4.5])) /\
    Gamma_mean d = Some (Vec [3; 4.5]) /\
    Gamma_variance d = Some (amap (fun _ => 0.1) (Vec [3; 4.5])).
Proof.
  apply (GammaMeanVar_moments (Vec [3; 4.5]) 0.1).
  - repeat constructor; simpl; lra.
  - lra.
Defined.

(** X2. [BinomialApprox n p conc] is [n] times a Beta distribution whose two
    concentrations are positive and add up to [conc], whose mean is [p] and
    whose variance is [p (1 - p) / (conc + 1)]: the smaller [conc], the
    wider the distribution.  Without [conc] the concentration is [n]. *)
Theorem BinomialApprox_moments (n p conc : R) :
  0 < p < 1 -> 0 < conc ->
  exists a b,
    BinomialApprox (Scal n) (Scal p) (Some (Scal conc))
    = Some (TransformedDistribution (Beta (Scal a) (Scal b))
              [AffineTransform (Scal 0) (Scal n)]) /\
    0 < a /\ 0 < b /\ a + b = conc /\
    Beta_mean (Beta (Scal a) (Scal b)) = Some (Scal p) /\
    Beta_variance (Beta (Scal a) (Scal b))
    = Some (Scal (p * (1 - p) / (conc + 1))) /\
    (forall conc', conc < conc' ->
       p * (1 - p) / (conc' + 1) < p * (1 - p) / (conc + 1)) /\
    BinomialApprox (Scal n) (Scal p) None
    = BinomialApprox (Scal n) (Scal p) (Some (Scal n)).
Proof.
  intros [Hp0 Hp1] Hc. exists (conc * p), (conc * (1 - p)).
  split; [reflexivity|].
  split; [apply Rmult_lt_0_compat; lra|].
  split; [apply Rmult_lt_0_compat; lra|].
  split; [ring|].
  split; [cbn; do 2 f_equal; field; lra|].
  split; [cbn; do 2 f_equal; field; lra|].
  split; [|reflexivity].
  intros conc' Hlt. unfold Rdiv. apply Rmult_lt_compat_l.
  - apply Rmult_lt_0_compat; lra.
  - apply Rinv_lt_contravar; [apply Rmult_lt_0_compat|]; lra.
Qed.

Lemma BinomialApprox_moments_witness :
  exists a b,
    BinomialApprox (Scal 100) (Scal 0.3) (Some (Scal 50))
    = Some (TransformedDistribution (Beta (Scal a) (Scal b))
              [AffineTransform (Scal 0) (Scal 100)]) /\
    0 < a /\ 0 < b /\ a + b = 50 /\
    Beta_mean (Beta (Scal a) (Scal b)) = Some (Scal 0.3) /\
    Beta_variance (Beta (Scal a) (Scal b))
    = Some (Scal (0.3 * (1 - 0.3) / (50 + 1))) /\
    (forall conc', 50 < conc' ->
       0.3 * (1 - 0.3) / (conc' + 1) < 0.3 * (1 - 0.3) / (50 + 1)) /\
    BinomialApprox (Scal 100) (Scal 0.3) None
    = BinomialApprox (Scal 100) (Scal 0.3) (Some (Scal 100)).
Proof.
  apply (BinomialApprox_moments 100 0.3 50); lra.
Defined.

(** ** The walk as a recurrence *)

Lemma walk_from_length x d s z : length (walk_from x d s z) = length z.
Proof. revert x; induction z as [|e z IH]; intros x; simpl; auto. Qed.

Lemma walk_from_positive x d s z :
  0 < x -> Forall (fun y => 0 < y) (walk_from x d s z).
Proof.
  revert x; induction z as [|e z IH]; intros x Hx; simpl; constructor.
  - apply Rmult_lt_0_compat; [exact Hx|apply exp_pos].
  - apply IH. apply Rmult_lt_0_compat; [exact Hx|apply exp_pos].
Qed.

(** The entries of a walk after its first: the exponential of the log of the
    location plus the drift so far plus the scaled running sum. *)
Lemma walk_entries_from lnloc d s z j acc x :
  x = exp (lnloc + d * INR j + s * acc) ->
  map exp
    (zip_with Rplus
       (map (Rplus lnloc) (map (Rmult d) (map INR (seq (S j) (length z)))))
       (map (Rmult 1) (map (fun c => c * s) (cumsum_from acc z))))
  = walk_from x d s z.
Proof.
  revert j acc x.
  induction z as [|e z IH]; intros j acc x Hx; [reflexivity|].
  cbn [length seq map cumsum_from zip_with walk_from].
  assert (E : exp (lnloc + d * INR (S j) + 1 * ((acc + e) * s))
              = x * exp (d + s * e)).
  { rewrite Hx, <- exp_plus. f_equal. rewrite S_INR. ring. }
  rewrite E. f_equal. apply IH. rewrite Hx, <- exp_plus. f_equal.
  rewrite S_INR. ring.
Qed.

Lemma walk_from_step x d s z t a b :
  nth_error (x :: walk_from x d s z) t = Some a ->
  nth_error (x :: walk_from x d s z) (S t) = Some b ->
  exists e, nth_error z t = Some e /\ b = a * exp (d + s * e).
Proof.
  revert x t. induction z as [|e z IH]; intros x t Ha Hb.
  - destruct t; simpl in Hb; discriminate.
  - destruct t as [|t].
    + cbn [walk_from nth_error] in Ha, Hb |- *.
      injection Ha as <-. injection Hb as <-. eauto.
    + cbn [walk_from nth_error] in Ha, Hb |- *.
      apply (IH (x * exp (d + s * e)) t); assumption.
Qed.

Lemma ExponentialRandomWalk_sample loc s d k z :
  0 < loc -> (1 <= k)%nat -> length z = k ->
  exists walk,
    ExponentialRandomWalk (Scal loc) (Scal s) (Scal d) k = Some walk /\
    batch_shape walk = Some [] /\ event_shape walk = [k] /\
    dist_sample walk (Vec z) = Some (Vec (walk_path loc d s z)).
Proof.
  intros Hloc Hk Hz. unfold ExponentialRandomWalk.
  cbn [mul map2 amap arange obind add].
  eexists. split; [reflexivity|]. split; [reflexivity|].
  split; [reflexivity|].
  cbn [dist_sample expand_dims obind cumsum mul map2 omap].
  rewrite bzip_singleton_r.
  cbn [omap obind apply_transforms apply_transform mul map2 amap add].
  rewrite bzip_same
    by now rewrite !length_map, length_seq, cumsum_from_length.
  cbn [omap obind amap]. do 2 f_equal.
  destruct z as [|e z]; [simpl in Hz; lia|]. subst k.
  cbn [length seq map cumsum_from zip_with walk_path].
  f_equal.
  - replace (ln loc + d * INR 0 + 1 * ((0 + e) * s)) with (ln loc + s * e)
      by (simpl; ring).
    rewrite exp_plus, exp_ln by exact Hloc. reflexivity.
  - apply walk_entries_from.
    replace (ln loc + d * INR 0 + s * (0 + e)) with (ln loc + s * e)
      by (simpl; ring).
    rewrite exp_plus, exp_ln by exact Hloc. reflexivity.
Qed.

(** The draw of a walk from a positive location, as a statement of a model
    body. *)
Lemma sample_walk_path loc scale drift k name h tr walk :
  0 < loc -> (1 <= k)%nat ->
  ExponentialRandomWalk (Scal loc) (Scal scale) (Scal drift) k = Some walk ->
  sample name walk None [] top_context h tr
  = Some (Vec (walk_path loc drift scale
                         (map (fun i => h name [i]) (seq 0 k))),
          tr ++ [sample_site name walk
                   (Vec (walk_path loc drift scale
                                   (map (fun i => h name [i]) (seq 0 k))))
                   false (Scal true)]).
Proof.
  intros Hloc Hk Ew.
  set (z := map (fun i => h name [i]) (seq 0 k)).
  assert (Hz : length z = k) by (subst z; now rewrite length_map, length_seq).
  destruct (ExponentialRandomWalk_sample loc scale drift k z Hloc Hk Hz)
    as (walk' & Ew' & Hb & He & Es).
  rewrite Ew in Ew'. injection Ew' as <-.
  unfold sample, draw_shape. rewrite Hb, He.
  cbn [obind cx_plate top_context app tabulate]. fold z. rewrite Es.
  reflexivity.
Qed.

(** X3. A draw of [ExponentialRandomWalk] with a positive location follows
    the recurrence of the walk: every value is the one before it times
    [exp (drift + scale * innovation)].  The first value is the location
    times [exp (scale * innovation)], so it is the location itself only when
    that product is zero.  All values are positive and there is one for each
    step. *)
Theorem ExponentialRandomWalk_recurrence (loc scale drift : R) (k : nat)
  (name : string) (h : host) (tr : trace) :
  0 < loc -> (1 <= k)%nat ->
  let z := map (fun i => h name [i]) (seq 0 k) in
  exists walk,
    ExponentialRandomWalk (Scal loc) (Scal scale) (Scal drift) k
    = Some walk /\
    sample name walk None [] top_context h tr
    = Some (Vec (walk_path loc drift scale z),
            tr ++ [sample_site name walk (Vec (walk_path loc drift scale z))
                               false (Scal true)]) /\
    length (walk_path loc drift scale z) = k /\
    hd_error (walk_path loc drift scale z)
    = Some (loc * exp (scale * h name [0%nat])) /\
    all_entries (fun x => 0 < x) (Vec (walk_path loc drift scale z)) /\
    (forall t x x',
       nth_error (walk_path loc drift scale z) t = Some x ->
       nth_error (walk_path loc drift scale z) (S t) = Some x' ->
       x' = x * exp (drift + scale * h name [S t])).
Proof.
  intros Hloc Hk z.
  assert (Hz : length z = k) by (subst z; now rewrite length_map, length_seq).
  destruct (ExponentialRandomWalk_sample loc scale drift k z Hloc Hk Hz)
    as (walk & Ew & Hb & He & Es).
  exists walk. split; [exact Ew|]. split.
  { unfold sample, draw_shape. rewrite Hb, He.
    cbn [obind cx_plate top_context app tabulate]. fold z. rewrite Es.
    reflexivity. }
  destruct k as [|k]; [lia|].
  subst z. cbn [seq map walk_path] in *.
  set (x0 := loc * exp (scale * h name [0%nat])).
  assert (Hx0 : 0 < x0) by (apply Rmult_lt_0_compat; [lra|apply exp_pos]).
  split; [cbn [length]; rewrite walk_from_length, length_map, length_seq;
          reflexivity|].
  split; [reflexivity|].
  split; [constructor; [exact Hx0|now apply walk_from_positive]|].
  intros t x x' Hx Hx'.
  destruct (walk_from_step _ _ _ _ _ _ _ Hx Hx') as (e & He' & ->).
  rewrite nth_error_map in He'.
  destruct (nth_error (seq 1 k) t) as [i|] eqn:Ei; [|discriminate].
  injection He' as <-. apply nth_error_nth with (d := 0%nat) in Ei.
  assert (Ht : (t < k)%nat).
  { assert (Hlt : (S t < length (x0 :: walk_from x0 drift scale
                         (map (fun i => h name [i]) (seq 1 k))))%nat)
      by (apply nth_error_Some; congruence).
    cbn [length] in Hlt.
    rewrite walk_from_length, length_map, length_seq in Hlt. lia. }
  rewrite seq_nth in Ei by exact Ht. subst i. reflexivity.
Qed.

Lemma ExponentialRandomWalk_recurrence_witness :
  let z := map (fun i => (fun _ _ => 1) "beta" [i]) (seq 0 3) in
  exists walk,
    ExponentialRandomWalk (Scal 2) (Scal 0.1) (Scal 0) 3 = Some walk /\
    sample "beta" walk None [] top_context (fun _ _ => 1) []
    = Some (Vec (walk_path 2 0 0.1 z),
            [] ++ [sample_site "beta" walk (Vec (walk_path 2 0 0.1 z))
                               false (Scal true)]) /\
    length (walk_path 2 0 0.1 z) = 3%nat /\
    hd_error (walk_path 2 0 0.1 z) = Some (2 * exp (0.1 * 1)) /\
    all_entries (fun x => 0 < x) (Vec (walk_path 2 0 0.1 z)) /\
    (forall t x x',
       nth_error (walk_path 2 0 0.1 z) t = Some x ->
       nth_error (walk_path 2 0 0.1 z) (S t) = Some x' ->
       x' = x * exp (0 + 0.1 * 1)).
Proof.
  apply (ExponentialRandomWalk_recurrence 2 0.1 0 3 "beta" (fun _ _ => 1) []).
  - lra.
  - lia.
Defined.

(** ** The observation link *)

Lemma all_entries_amap_same {A B} (P : A -> Prop) (Q : B -> Prop)
  (f : A -> B) (a : arr A) :
  (forall x, P x -> Q (f x)) -> all_entries P a -> all_entries Q (amap f a).
Proof.
  intros HPQ Ha. apply all_entries_amap. revert Ha.
  now apply all_entries_impl.
Qed.

(** X4. With a latent array without a negative entry, a positive detection
    rate and a noise scale that is not negative, the Normal distribution of
    the link is a proper one: every mean is at least the regulariser 0.5 and
    every scale at least 1, whatever is observed. *)
Theorem observe_link_is_proper name latent sh r s obs cx h tr :
  has_shape latent sh -> all_entries (fun x => 0 <= x) latent ->
  0 < r -> 0 <= s -> cx_plate cx = None ->
  exists y mean scale,
    observe name latent (Scal r) (Scal s) obs cx h tr
    = Some (y, tr ++ [mean_site name mean;
                      link_site name mean scale y obs]) /\
    scale = amap (fun m => s * m + 1) mean /\
    all_entries (fun m => 0.5 <= m) mean /\
    all_entries (fun sc => 1 <= sc) scale.
Proof.
  intros HL Hpos Hr Hs Hcx.
  destruct (observe_normal_runs name latent (Scal r) s obs cx h tr sh []
              HL I (broadcast_shapes_nil_r sh) Hcx)
    as (shift & latent' & rate' & mean & y & E1 & E2 & E3 & E4 & _ & Erun & _).
  rewrite (scalar_rate_mean latent sh r shift latent' rate' mean HL E1 E2 E3 E4)
    in Erun.
  assert (Hmean : all_entries (fun m => 0.5 <= m)
                    (amap (fun x => r * (x + 0.5 / r)) latent)).
  { revert Hpos. apply all_entries_amap_same. intros x Hx.
    replace (r * (x + 0.5 / r)) with (r * x + 0.5) by (field; lra).
    assert (0 <= r * x) by (apply Rmult_le_pos; lra). lra. }
  eexists y, _, _. unfold observe. rewrite Erun, <- app_assoc.
  split; [reflexivity|]. split; [reflexivity|]. split; [exact Hmean|].
  revert Hmean. apply all_entries_amap_same. intros m Hm.
  assert (0 <= s * m) by (apply Rmult_le_pos; lra). lra.
Qed.

Lemma observe_link_is_proper_witness :
  exists y mean scale,
    observe "y" (Vec [0; 10]) (Scal 0.3) (Scal 0.15) None top_context
            (fun _ _ => 1) []
    = Some (y, [] ++ [mean_site "y" mean;
                      link_site "y" mean scale y None]) /\
    scale = amap (fun m => 0.15 * m + 1) mean /\
    all_entries (fun m => 0.5 <= m) mean /\
    all_entries (fun sc => 1 <= sc) scale.
Proof.
  apply (observe_link_is_proper "y" (Vec [0; 10]) [2%nat] 0.3 0.15 None
           top_context (fun _ _ => 1) []).
  - reflexivity.
  - repeat constructor; simpl; lra.
  - lra.
  - lra.
  - reflexivity.
Defined.

Lemma bzip_mismatch {A B C} (f : A -> B -> C) la lb :
  length la <> length lb -> length la <> 1%nat -> length lb <> 1%nat ->
  bzip f la lb = None.
Proof.
  intros Hne Ha Hb. unfold bzip.
  destruct (Nat.eqb_spec (length la) (length lb)) as [E|_]; [contradiction|].
  destruct la as [|a [|a' la]]; destruct lb as [|b [|b' lb]];
    simpl in *; congruence.
Qed.

(** X5. Detection rates that come as a vector whose length is neither that
    of the latent vector nor one cannot be broadcast: [observe] fails. *)
Theorem observe_shape_mismatch name (latent rates : list R) dns obs cx h tr :
  length latent <> length rates ->
  length latent <> 1%nat -> length rates <> 1%nat ->
  observe name (Vec latent) (Vec rates) dns obs cx h tr = None.
Proof.
  intros Hne Hl Hr. unfold observe, _observe_normal.
  rewrite (bind_Some _ _ _ _ _ (Vec (map (Rdiv 0.5) rates)) tr)
    by reflexivity.
  unfold bind at 1, lift at 1, add at 1. cbn [map2].
  rewrite bzip_mismatch; [reflexivity| |assumption|];
    now rewrite length_map.
Qed.

Lemma observe_shape_mismatch_witness :
  observe "y" (Vec [1; 2; 3]) (Vec [0.3; 0.4]) (Scal 0.15) None top_context
          (fun _ _ => 1) [] = None.
Proof.
  apply (observe_shape_mismatch "y" [1; 2; 3] [0.3; 0.4] (Scal 0.15) None
           top_context (fun _ _ => 1) []); simpl; lia.
Defined.

(** *** One rate per place *)

Lemma bzip_singleton_l {A B C} (f : A -> B -> C) a lb :
  bzip f [a] lb = Some (map (f a) lb).
Proof. destruct lb as [|b [|b' lb]]; reflexivity. Qed.

Lemma sequence_zip_with_Some {A B C} (g : A -> B -> C) la lb :
  sequence (zip_with (fun a b => Some (g a b)) la lb)
  = Some (zip_with g la lb).
Proof.
  revert lb. induction la as [|a la IH]; intros [|b lb]; simpl; auto.
  now rewrite IH.
Qed.

Lemma map2_mat_col {A B C} (f : A -> B -> C) m c :
  length m = length c ->
  map2 f (Mat m) (Mat (map (fun x => [x]) c))
  = Some (Mat (zip_with (fun row x => map (fun a => f a x) row) m c)).
Proof.
  intros Hlen. cbn [map2]. rewrite bzip_same by now rewrite length_map.
  cbn [obind]. rewrite zip_with_map_r.
  rewrite (zip_with_ext_in _
             (fun row x => Some (map (fun a => f a x) row)))
    by (intros; apply bzip_singleton_r).
  now rewrite sequence_zip_with_Some.
Qed.

Lemma map2_col_mat {A B C} (f : A -> B -> C) c m :
  length c = length m ->
  map2 f (Mat (map (fun x => [x]) c)) (Mat m)
  = Some (Mat (zip_with (fun x row => map (f x) row) c m)).
Proof.
  intros Hlen. cbn [map2]. rewrite bzip_same by now rewrite length_map.
  cbn [obind]. rewrite zip_with_map_l.
  rewrite (zip_with_ext_in _ (fun x row => Some (map (f x) row)))
    by (intros; apply bzip_singleton_l).
  now rewrite sequence_zip_with_Some.
Qed.

Lemma broadcast_shapes_mat_col p n :
  broadcast_shapes [p; n] [p; 1%nat] = Some [p; n].
Proof.
  unfold broadcast_shapes. cbn [rev app broadcast_shapes_rev].
  rewrite broadcast_dim_refl, broadcast_dim_one_r. reflexivity.
Qed.

Lemma zip_with_length_min {A B C} (f : A -> B -> C) la lb :
  length (zip_with f la lb) = Nat.min (length la) (length lb).
Proof.
  revert lb. induction la as [|a la IH]; intros [|b lb]; simpl; auto.
Qed.

Lemma zip_with_repeat_r {A B C} (f : A -> B -> C) la b :
  zip_with f la (repeat b (length la)) = map (fun a => f a b) la.
Proof. induction la as [|a la IH]; simpl; [|rewrite IH]; reflexivity. Qed.

Lemma per_place_rows n rates latent :
  Forall (fun row => length row = n) latent ->
  Forall (fun r => r <> 0) rates ->
  zip_with (zip_with Rmult) (map (fun x => repeat x n) rates)
    (zip_with (fun row r => map (fun a => a + 0.5 / r) row) latent rates)
  = zip_with (fun r row => map (fun x => r * x + 0.5) row) rates latent.
Proof.
  intros Hn Hr. revert latent Hn.
  induction Hr as [|r rates Hr0 Hr IH]; intros [|row latent] Hn;
    try reflexivity.
  inversion Hn as [|? ? Hrow Hn']; subst.
  cbn [map zip_with]. rewrite (IH latent Hn'). f_equal.
  rewrite <- (length_map (fun a => a + 0.5 / r) row).
  rewrite zip_with_repeat_l, map_map. apply map_ext. intros a. now field.
Qed.

(** The mean of the link for a matrix of latent values, one row per place,
    and one rate per place. *)
Lemma column_rate_mean latent rates p n shift latent' rate' mean :
  has_shape (Mat latent) [p; n] -> length rates = p ->
  Forall (fun r => r <> 0) rates ->
  div (Scal 0.5) (Mat (map (fun x => [x]) rates)) = Some shift ->
  add (Mat latent) shift = Some latent' ->
  broadcast_to (Mat (map (fun x => [x]) rates)) (ashape latent')
  = Some rate' ->
  mul rate' latent' = Some mean ->
  mean = Mat (zip_with (fun r row => map (fun x => r * x + 0.5) row)
                       rates latent).
Proof.
  intros [Hp Hn] Hr Hnz. cbn [div map2 amap]. rewrite map_map.
  cbn [map]. intros [= <-].
  change (map (fun x => [0.5 / x]) rates)
    with (map (fun x => [(fun r => 0.5 / r) x]) rates).
  rewrite <- (map_map (fun r => 0.5 / r) (fun x => [x])).
  unfold add. rewrite map2_mat_col by (rewrite length_map; lia).
  intros [= <-]. rewrite zip_with_map_r.
  assert (HLrows : Forall (fun row => length row = n)
                     (zip_with (fun row r => map (fun a => a + 0.5 / r) row)
                               latent rates)).
  { clear Hp Hr Hnz. revert rates.
    induction Hn as [|row latent Hrow Hn IH]; intros [|r rates];
      simpl; constructor; auto. now rewrite length_map. }
  set (L := zip_with (fun row r => map (fun a => a + 0.5 / r) row)
                     latent rates) in *.
  assert (HLlen : length L = length rates)
    by (subst L; rewrite zip_with_length_min; lia).
  unfold broadcast_to. cbn [ashape full obind].
  rewrite <- (repeat_length (repeat tt (length (hd [] L))) (length L)) at 1.
  rewrite HLlen at 1.
  rewrite map2_col_mat by (now rewrite !repeat_length).
  cbn [obind]. rewrite repeat_length, HLlen, zip_with_repeat_r.
  destruct (list_eq_dec _ _ _) as [_|_]; [|discriminate].
  intros [= <-].
  rewrite (map_ext _ (fun x => repeat x (length (hd [] L))))
    by (intros x; now rewrite map_const_repeat, repeat_length).
  destruct latent as [|row latent].
  { destruct rates; [|simpl in *; lia]. subst L. now intros [= <-]. }
  destruct rates as [|r rates]; [simpl in *; lia|].
  assert (En : length (hd [] L) = n).
  { subst L. cbn [zip_with hd]. rewrite length_map.
    now inversion Hn. }
  rewrite En. unfold mul.
  rewrite (map2_same Rmult _ _ [length (r :: rates); n]).
  - intros [= <-]. cbn [azip]. f_equal. subst L.
    exact (per_place_rows n (r :: rates) (row :: latent) Hn Hnz).
  - split; [now rewrite length_map|]. apply Forall_map.
    apply Forall_forall. intros x _. apply repeat_length.
  - split; [exact HLlen|exact HLrows].
Qed.

(** X6. With a matrix of latent values, one row per place, and the rates of
    the places as a column, the mean of the link at a place is the rate of
    that place times the latent value plus 0.5: the rate of a place acts on
    the row of that place and on no other. *)
Theorem observe_per_place name latent rates p n s obs cx h tr :
  has_shape (Mat latent) [p; n] -> length rates = p ->
  Forall (fun r => r <> 0) rates -> cx_plate cx = None ->
  exists rate_col y mean,
    column (Vec rates) = Some rate_col /\
    observe name (Mat latent) rate_col (Scal s) obs cx h tr
    = Some (y, tr ++ [mean_site name mean;
                      link_site name mean (amap (fun m => s * m + 1) mean)
                                y obs]) /\
    mean = Mat (zip_with (fun r row => map (fun x => r * x + 0.5) row)
                         rates latent).
Proof.
  intros HL Hr Hnz Hcx.
  assert (HD : has_shape (Mat (map (fun x => [x]) rates)) [p; 1%nat])
    by (rewrite <- Hr; apply has_shape_column).
  destruct (observe_normal_runs name (Mat latent)
              (Mat (map (fun x => [x]) rates)) s obs cx h tr [p; n]
              [p; 1%nat] HL HD (broadcast_shapes_mat_col p n) Hcx)
    as (shift & latent' & rate' & mean & y & E1 & E2 & E3 & E4 & _ & Erun & _).
  exists (Mat (map (fun x => [x]) rates)), y, mean.
  split; [reflexivity|]. split.
  - unfold observe. rewrite Erun, <- app_assoc. reflexivity.
  - exact (column_rate_mean latent rates p n shift latent' rate' mean
             HL Hr Hnz E1 E2 E3 E4).
Qed.

Lemma observe_per_place_witness :
  exists rate_col y mean,
    column (Vec [0.5; 0.25]) = Some rate_col /\
    observe "y" (Mat [[1; 2; 3]; [4; 5; 6]]) rate_col (Scal 0.2) None
            top_context (fun _ _ => 1) []
    = Some (y, [] ++ [mean_site "y" mean;
                      link_site "y" mean (amap (fun m => 0.2 * m + 1) mean)
                                y None]) /\
    mean = Mat (zip_with (fun r row => map (fun x => r * x + 0.5) row)
                         [0.5; 0.25] [[1; 2; 3]; [4; 5; 6]]).
Proof.
  apply (observe_per_place "y" [[1; 2; 3]; [4; 5; 6]] [0.5; 0.25] 2 3 0.2
           None top_context (fun _ _ => 1) []).
  - split; [reflexivity|]. repeat constructor.
  - reflexivity.
  - repeat constructor; lra.
  - reflexivity.
Defined.

(** *** The alternate link *)

(** What the alternate link returns and records for observations of the
    shape of the latent array. *)
Lemma observe_binom_approx_inv name latent o sh r c cx h tr y tr' :
  has_shape latent sh -> has_shape o sh ->
  _observe_binom_approx name latent (Scal r) (Scal c) (Some o) cx h tr
  = Some (y, tr') ->
  exists d,
    tr' = tr ++ [sample_site name d y true (Scal true)] /\
    y = azip (fun x e => match e with
                         | Fin v => v + 0.5
                         | _ => 0.5 * (x + 0.5 / r) + 0.5
                         end) latent o.
Proof.
  intros HL Ho. unfold _observe_binom_approx. intros H. minv.
  repeat match goal with
  | H : div (Scal _) (Scal _) = Some _ |- _ => injection H as <-
  | H : add _ (Scal _) = Some _ |- _ =>
      unfold add in H; rewrite map2_scal_r in H; injection H as <-
  | H : mul (Scal _) _ = Some _ |- _ => injection H as <-
  end.
  match goal with H : where_ _ _ _ = Some _ |- _ =>
    unfold where_ in H; rewrite map2_amap_diag in H; cbn [obind] in H;
    rewrite (map2_same _ _ _ sh) in H by auto using has_shape_amap;
    injection H as <- end.
  match goal with H : reals_of _ = Some _ |- _ =>
    rewrite azip_amap_l, !azip_amap_r in H; cbn [fst snd] in H;
    rewrite (reals_of_azip _ (fun e x => match e with
                                         | Fin v => v
                                         | _ => 0.5 * (x + 0.5 / r)
                                         end)) in H by (now intros []);
    injection H as <- end.
  match goal with H : with_mask _ _ _ _ _ _ = Some _ |- _ =>
    unfold with_mask in H; apply sample_inv in H; destruct H as [-> Hy] end.
  eexists. split; [reflexivity|].
  rewrite (Hy _ eq_refl), amap_azip.
  clear. destruct o as [e|v|m]; destruct latent as [x|u|n]; simpl; auto.
  - now destruct e.
  - f_equal. revert u. induction v as [|e v IH]; intros [|x u]; simpl; auto.
    rewrite IH. now destruct e.
  - f_equal. revert n. induction m as [|v m IHm]; intros [|u n]; simpl; auto.
    rewrite IHm. f_equal. revert u.
    induction v as [|e v IH]; intros [|x u]; simpl; auto.
    rewrite IH. now destruct e.
Qed.

(** X7. The alternate link conditions on what it is given, every entry of
    it.  The site is observed and not masked, the mask of the finite entries
    going to the handler as [fn]; a finite entry enters as itself plus 0.5,
    and an entry that is not finite as half the regularised latent value
    plus 0.5, a placeholder that is scored like any entry.  For a latent
    value that is not negative and a rate in (0, 1] the placeholder lies
    strictly between 0 and the scale [x + 0.5 / r + 0.5 / r] of the
    distribution, where a Beta law has a density. *)
Theorem observe_binom_approx_placeholder name latent o sh r c cx h tr :
  has_shape latent sh -> has_shape o sh -> cx_plate cx = None ->
  exists d y,
    BinomialApprox (amap (fun x => x + 0.5 / r + 0.5 / r) latent)
      (amap (fun _ => r) latent)
      (Some (amap (fun x => Rmin c (x + 0.5 / r)) latent)) = Some d /\
    _observe_binom_approx name latent (Scal r) (Scal c) (Some o) cx h tr
    = Some (y, tr ++ [sample_site name d y true (Scal true)]) /\
    y = azip (fun x e => match e with
                         | Fin v => v + 0.5
                         | _ => 0.5 * (x + 0.5 / r) + 0.5
                         end) latent o /\
    (0 < r <= 1 ->
     forall x, 0 <= x ->
       0 < 0.5 * (x + 0.5 / r) + 0.5 < x + 0.5 / r + 0.5 / r).
Proof.
  intros HL Ho Hcx.
  destruct (observe_binom_approx_runs name latent r c (Some o) sh cx h tr
              HL Hcx Ho) as (n & p & d & y & site & Erun & _ & Hfn & -> & ->
                             & Ed).
  destruct (observe_binom_approx_inv name latent o sh r c cx h tr y _
              HL Ho Erun) as (d' & Etr & Hy).
  apply app_inv_head in Etr. injection Etr as ->.
  cbn [s_fn sample_site] in Hfn. injection Hfn as ->.
  exists d, y. split; [exact Ed|]. split; [exact Erun|]. split; [exact Hy|].
  intros [Hr0 Hr1] x Hx.
  assert (Hinv : 1 <= / r).
  { rewrite <- Rinv_1. apply Rinv_le_contravar; lra. }
  unfold Rdiv. nra.
Qed.

Lemma observe_binom_approx_placeholder_witness :
  exists d y,
    BinomialApprox (amap (fun x => x + 0.5 / 0.5 + 0.5 / 0.5) (Vec [10; 20]))
      (amap (fun _ => 0.5) (Vec [10; 20]))
      (Some (amap (fun x => Rmin 50 (x + 0.5 / 0.5)) (Vec [10; 20])))
    = Some d /\
    _observe_binom_approx "y" (Vec [10; 20]) (Scal 0.5) (Scal 50)
      (Some (Vec [Fin 4; NaN])) top_context (fun _ _ => 1) []
    = Some (y, [] ++ [sample_site "y" d y true (Scal true)]) /\
    y = azip (fun x e => match e with
                         | Fin v => v + 0.5
                         | _ => 0.5 * (x + 0.5 / 0.5) + 0.5
                         end) (Vec [10; 20]) (Vec [Fin 4; NaN]) /\
    (0 < 0.5 <= 1 ->
     forall x, 0 <= x ->
       0 < 0.5 * (x + 0.5 / 0.5) + 0.5 < x + 0.5 / 0.5 + 0.5 / 0.5).
Proof.
  apply (observe_binom_approx_placeholder "y" (Vec [10; 20])
           (Vec [Fin 4; NaN]) [2%nat] 0.5 50 top_context (fun _ _ => 1) []);
    reflexivity.
Defined.

Section FurtherModelProperties.

Context {SEIRModel : CompartmentModel}.

(** ** The single-region model, statement by statement *)

(** One segment of the dynamics: the walk it draws, the trajectory it runs,
    and the sites it records, in their order. *)
Lemma SEIR_dynamics_inv T beta0 sigma gamma rw drift dr dn hr hn x0 obs hosp
  use_hosp suffix cx h tr beta x y z tr' :
  SEIR_dynamics T (beta0, sigma, gamma, rw, drift, dr, dn, hr, hn)
                x0 obs hosp use_hosp suffix cx h tr
  = Some ((beta, x, y, z), tr') ->
  exists walk bt sg gm xs my sy zsites,
    ExponentialRandomWalk beta0 rw drift (T - 1) = Some walk /\
    beta = Vec bt /\ sigma = Scal sg /\ gamma = Scal gm /\
    xs = tl (run T x0 (bt, sg, gm)) /\ x = Vec xs /\
    link_mean (Vec (map comp_C xs)) dr = Some my /\
    link_scale dn my = Some sy /\
    (forall o, obs = Some o -> y = cleaned o) /\
    tr' = tr ++ [sample_site ("beta" ++ suffix) walk beta false (cx_mask cx);
                 deterministic_site ("x" ++ suffix) (VState x);
                 mean_site ("y" ++ suffix) my;
                 link_site ("y" ++ suffix) my sy y obs] ++ zsites /\
    if use_hosp
    then exists mz sz,
           link_mean (Vec (map comp_C xs)) hr = Some mz /\
           link_scale hn mz = Some sz /\
           (forall o, hosp = Some o -> z = cleaned o) /\
           zsites = [mean_site ("z" ++ suffix) mz;
                     link_site ("z" ++ suffix) mz sz z hosp]
    else zsites = [] /\ z = zeros_like y.
Proof.
  unfold SEIR_dynamics. intros H. minv.
  match goal with H : obind (walk_steps _) _ = Some _ |- _ =>
    apply walk_steps_inv in H end.
  match goal with H : sample _ ?w None _ _ _ _ = Some (?b, _) |- _ =>
    apply sample_inv in H; destruct H as [-> _]; rename w into walk;
    rename b into beta end.
  unfold deterministic in *.
  match goal with H : Some _ = Some (_, _) |- _ => injection H as <- <- end.
  match goal with H : observe _ _ _ _ obs _ _ _ = Some (?v, _) |- _ =>
    apply observe_inv in H; destruct H as (my & sy & Em & Es & -> & Hy);
    rename v into y end.
  destruct beta as [?|bt|?]; try discriminate.
  destruct sigma as [sg|?|?]; try discriminate.
  destruct gamma as [gm|?|?]; try discriminate.
  repeat match goal with
         | H : as_vector _ = Some _ |- _ => injection H as <-
         | H : as_scalar _ = Some _ |- _ => injection H as <-
         end.
  match goal with H : _ _ _ ?t = Some (?v, ?t') |- _ =>
    rename v into z; rename t' into tz end.
  assert (Hz : exists zsites,
    tz = (tr ++ [sample_site ("beta" ++ suffix) walk (Vec bt) false
                             (cx_mask cx)]
             ++ [deterministic_site ("x" ++ suffix)
                   (VState (Vec (tl (run T x0 (bt, sg, gm)))))]
             ++ [mean_site ("y" ++ suffix) my;
                 link_site ("y" ++ suffix) my sy y obs]) ++ zsites /\
    if use_hosp
    then exists mz sz,
           link_mean (Vec (map comp_C (tl (run T x0 (bt, sg, gm))))) hr
           = Some mz /\
           link_scale hn mz = Some sz /\
           (forall o, hosp = Some o -> z = cleaned o) /\
           zsites = [mean_site ("z" ++ suffix) mz;
                     link_site ("z" ++ suffix) mz sz z hosp]
    else zsites = [] /\ z = zeros_like y).
  { destruct use_hosp.
    - match goal with H : observe _ _ _ _ hosp _ _ _ = Some _ |- _ =>
        apply observe_inv in H; destruct H as (mz & sz & Emz & Esz & -> & Hzz)
      end.
      eexists. split; [|exists mz, sz; repeat split; eauto].
      rewrite <- !app_assoc. reflexivity.
    - minv. exists []. rewrite app_nil_r, <- !app_assoc. auto. }
  destruct Hz as (zsites & -> & Hz).
  exists walk, bt, sg, gm, (tl (run T x0 (bt, sg, gm))), my, sy, zsites.
  repeat (split; [first [assumption | reflexivity]|]).
  split; [|exact Hz]. now rewrite <- !app_assoc.
Qed.

Lemma sample_scalar_inv name d cx h tr v tr' :
  batch_shape d = Some [] -> event_shape d = [] ->
  (forall raw, dist_sample d raw = Some raw) -> cx_plate cx = None ->
  sample name d None [] cx h tr = Some (v, tr') ->
  v = Scal (h name []) /\
  tr' = tr ++ [sample_site name d (Scal (h name [])) false (cx_mask cx)].
Proof.
  intros Hb He Hd Hcx. rewrite (sample_scalar name d cx h tr Hb He Hd Hcx).
  now intros [= <- <-].
Qed.

Lemma split_first_inv obs cx h tr obs0 obs1 tr' :
  split_first obs cx h tr = Some ((obs0, obs1), tr') ->
  split_of obs obs0 obs1 /\ tr' = tr.
Proof.
  unfold split_first, split_of. destruct obs as [o|]; intros H; minv; eauto 7.
Qed.

(** The single-region model, step by step: the priors, the first
    observation, the dynamics of the observed period, and for a forecast the
    dynamics from the last transmission rate and the last state. *)
Lemma SEIR_stochastic_inv T N T_future E_duration_est I_duration_est R0_est
  beta_shape sigma_shape gamma_shape det_rate_est det_rate_conc
  det_noise_scale rw_scale drift_scale obs use_hosp hosp_rate_est
  hosp_rate_conc hosp_noise_scale hosp h out tr :
  SEIR_stochastic T N T_future E_duration_est I_duration_est R0_est
    beta_shape sigma_shape gamma_shape det_rate_est det_rate_conc
    det_noise_scale rw_scale drift_scale obs use_hosp hosp_rate_est
    hosp_rate_conc hosp_noise_scale hosp top_context h [] = Some (out, tr) ->
  let x0 := seed N (h "I0" []) (h "E0" []) in
  let det := h "det_rate" [] in
  let hr := stochastic_hosp_rate use_hosp h in
  let priors :=
    stochastic_prior_sites N E_duration_est I_duration_est R0_est beta_shape
      sigma_shape gamma_shape det_rate_est det_rate_conc drift_scale use_hosp
      hosp_rate_est hosp_rate_conc x0 h in
  let params b :=
    (b, Scal (h "sigma" []), Scal (h "gamma" []), Scal rw_scale,
     Scal (stochastic_drift drift_scale h), Scal det, Scal det_noise_scale,
     Scal hr, Scal hosp_noise_scale) in
  exists obs0 obs1 hosp0 hosp1 y0 z0 tr0 tr1 tr2 beta x1 y1 z1 x_hist,
    split_of obs obs0 obs1 /\
    (if use_hosp then split_of hosp hosp0 hosp1 else hosp1 = hosp) /\
    observe "y0" (Scal (comp_C x0)) (Scal det) (Scal det_noise_scale) obs0
            top_context h priors = Some (y0, tr0) /\
    (if use_hosp
     then observe "z0" (Scal (comp_C x0)) (Scal hr) (Scal hosp_noise_scale)
                  hosp0 top_context h tr0 = Some (z0, tr1)
     else z0 = Scal 0 /\ tr1 = tr0) /\
    SEIR_dynamics T (params (Scal (h "beta0" []))) x0 obs1 hosp1 use_hosp ""
                  top_context h tr1 = Some ((beta, x1, y1, z1), tr2) /\
    vstack (Scal x0) x1 = Some x_hist /\
    if Nat.ltb 0 T_future
    then exists beta_last x_last beta_f x_f y_f z_f x_all,
           last_ beta = Some beta_last /\
           obind (last_ x_hist) as_scalar = Some x_last /\
           SEIR_dynamics (T_future + 1) (params beta_last) x_last None None
                         use_hosp "_future" top_context h tr2
           = Some ((beta_f, x_f, y_f, z_f), tr) /\
           vstack x_hist x_f = Some x_all /\
           out = (beta, x_all, append (append y0 y1) y_f,
                  append (append z0 z1) z_f, Scal det, Scal hr)
    else tr = tr2 /\
         out = (beta, x_hist, append y0 y1, append z0 z1, Scal det, Scal hr).
Proof.
  unfold SEIR_stochastic. intros H.
  destruct use_hosp, drift_scale as [ds|];
    destruct (Nat.ltb 0 T_future); minv;
    repeat match goal with
    | H : sample _ _ None [] top_context _ _ = Some _ |- _ =>
        apply sample_scalar_inv in H; [destruct H as [-> ->]|reflexivity..]
    | H : as_scalar (Scal _) = Some _ |- _ => injection H as <-
    | H : mul (Scal _) (Scal _) = Some _ |- _ => injection H as <-
    | H : split_first _ _ _ _ = Some _ |- _ =>
        apply split_first_inv in H; destruct H as [? ->]
    | H : deterministic _ _ _ _ _ = Some _ |- _ =>
        unfold deterministic in H; injection H as <-
    end;
    subst;
    repeat match goal with |- exists _, _ => eexists end.
  all: try ((split; [eassumption|]);
    (split; [first [eassumption|reflexivity]|]);
    (split; [eassumption|]);
    (split; [first [eassumption|split; reflexivity]|]);
    (split; [eassumption|]);
    (split; [eassumption|]);
    try (split; reflexivity);
    repeat match goal with |- exists _, _ => eexists end;
    repeat (split; [eassumption|]); reflexivity).
  all: exact None.
Qed.


Lemma nodupb_sound l : nodupb l = true -> NoDup l.
Proof.
  induction l as [|x l IH]; simpl; [constructor|].
  intros H. apply andb_prop in H. destruct H as [Hx Hl].
  constructor; [|auto]. intros Hin.
  apply negb_true_iff in Hx.
  assert (E : existsb (String.eqb x) l = true).
  { apply existsb_exists. exists x. split; [exact Hin|apply String.eqb_refl]. }
  congruence.
Qed.

(** The pieces of a run, by name. *)
Ltac run_pieces H :=
  apply SEIR_stochastic_inv in H; cbv zeta in H;
  destruct H as (obs0 & obs1 & hosp0 & hosp1 & y0 & z0 & tr0 & tr1 & tr2
                 & beta_h & x1 & y1 & z1 & x_hist
                 & Hsplit & Hsplit2 & Ey0 & Ez0 & Edyn & Evs & Hfut).

(** X8. A run of the single-region model records its sites in the order of
    the statements of the model, each under its own name: the priors, the
    seed state, the first observation, the observed period and, for a
    forecast, the sites with the suffix _future.  No name is recorded
    twice. *)
Theorem SEIR_stochastic_site_names T N T_future E_duration_est
  I_duration_est R0_est beta_shape sigma_shape gamma_shape det_rate_est
  det_rate_conc det_noise_scale rw_scale drift_scale obs use_hosp
  hosp_rate_est hosp_rate_conc hosp_noise_scale hosp h :
  (2 <= T)%nat -> splittable obs -> (use_hosp = true -> splittable hosp) ->
  exists out tr,
    SEIR_stochastic T N T_future E_duration_est I_duration_est R0_est
      beta_shape sigma_shape gamma_shape det_rate_est det_rate_conc
      det_noise_scale rw_scale drift_scale obs use_hosp hosp_rate_est
      hosp_rate_conc hosp_noise_scale hosp top_context h [] = Some (out, tr)
    /\ map s_name tr
       = stochastic_site_names use_hosp (is_some drift_scale)
                               (Nat.ltb 0 T_future)
    /\ NoDup (map s_name tr).
Proof.
  intros HT Hobs Hhosp.
  destruct (SEIR_stochastic_runs T N T_future E_duration_est I_duration_est
              R0_est beta_shape sigma_shape gamma_shape det_rate_est
              det_rate_conc det_noise_scale rw_scale drift_scale obs use_hosp
              hosp_rate_est hosp_rate_conc hosp_noise_scale hosp h HT Hobs
              Hhosp)
    as (beta & x & y & z & det_rate & hosp_rate & tr & Erun & _).
  eexists _, tr. split; [exact Erun|].
  assert (Enames : map s_name tr
                   = stochastic_site_names use_hosp (is_some drift_scale)
                                           (Nat.ltb 0 T_future)).
  { run_pieces Erun.
    apply observe_inv in Ey0. destruct Ey0 as (my0 & sy0 & _ & _ & -> & _).
    apply SEIR_dynamics_inv in Edyn.
    destruct Edyn as (walk & bt & sg & gm & xs & my & sy & zsites & _ & _ & _
                      & _ & _ & _ & _ & _ & _ & -> & Hz).
    destruct use_hosp.
    - apply observe_inv in Ez0. destruct Ez0 as (mz0 & sz0 & _ & _ & -> & _).
      destruct Hz as (mz & sz & _ & _ & _ & ->).
      destruct (Nat.ltb 0 T_future).
      + destruct Hfut as (bl & xl & bf & xf & yf & zf & xa & _ & _ & Ef & _).
        apply SEIR_dynamics_inv in Ef.
        destruct Ef as (walkf & btf & sgf & gmf & xsf & myf & syf & zsf & _
                        & _ & _ & _ & _ & _ & _ & _ & _ & -> & Hzf).
        destruct Hzf as (mzf & szf & _ & _ & _ & ->).
        destruct drift_scale; reflexivity.
      + destruct Hfut as [-> _]. destruct drift_scale; reflexivity.
    - destruct Ez0 as [_ ->]. destruct Hz as [-> _].
      destruct (Nat.ltb 0 T_future).
      + destruct Hfut as (bl & xl & bf & xf & yf & zf & xa & _ & _ & Ef & _).
        apply SEIR_dynamics_inv in Ef.
        destruct Ef as (walkf & btf & sgf & gmf & xsf & myf & syf & zsf & _
                        & _ & _ & _ & _ & _ & _ & _ & _ & -> & Hzf).
        destruct Hzf as [-> _].
        destruct drift_scale; reflexivity.
      + destruct Hfut as [-> _]. destruct drift_scale; reflexivity. }
  split; [exact Enames|]. rewrite Enames. apply nodupb_sound.
  destruct use_hosp, drift_scale, (Nat.ltb 0 T_future); vm_compute;
    reflexivity.
Qed.


Lemma split_of_functional obs a b a' b' :
  split_of obs a b -> split_of obs a' b' -> a = a' /\ b = b'.
Proof.
  unfold split_of. destruct obs as [o|].
  - intros (f & r & Ef & Er & -> & ->) (f' & r' & Ef' & Er' & -> & ->).
    split; congruence.
  - intros [-> ->] [-> ->]. auto.
Qed.

(** A run with a forecast against the run without, on the same draws. *)
Lemma SEIR_stochastic_forecast_appends_aux T N T_future E_duration_est
  I_duration_est R0_est beta_shape sigma_shape gamma_shape det_rate_est
  det_rate_conc det_noise_scale rw_scale drift_scale obs use_hosp
  hosp_rate_est hosp_rate_conc hosp_noise_scale hosp h :
  (2 <= T)%nat -> splittable obs -> (use_hosp = true -> splittable hosp) ->
  exists beta x y z det_rate hosp_rate tr x_f y_f z_f ext,
    SEIR_stochastic T N 0 E_duration_est I_duration_est R0_est
      beta_shape sigma_shape gamma_shape det_rate_est det_rate_conc
      det_noise_scale rw_scale drift_scale obs use_hosp hosp_rate_est
      hosp_rate_conc hosp_noise_scale hosp top_context h []
    = Some ((beta, Vec x, Vec y, Vec z, det_rate, hosp_rate), tr) /\
    SEIR_stochastic T N T_future E_duration_est I_duration_est R0_est
      beta_shape sigma_shape gamma_shape det_rate_est det_rate_conc
      det_noise_scale rw_scale drift_scale obs use_hosp hosp_rate_est
      hosp_rate_conc hosp_noise_scale hosp top_context h []
    = Some ((beta, Vec (x ++ x_f), Vec (y ++ y_f), Vec (z ++ z_f),
             det_rate, hosp_rate), tr ++ ext) /\
    length x_f = T_future /\ length y_f = T_future /\
    length z_f = T_future /\
    map s_name ext = if Nat.ltb 0 T_future
                     then dynamics_site_names use_hosp "_future"
                     else [].
Proof.
  intros HT Hobs Hhosp.
  destruct (SEIR_stochastic_runs T N 0 E_duration_est I_duration_est
              R0_est beta_shape sigma_shape gamma_shape det_rate_est
              det_rate_conc det_noise_scale rw_scale drift_scale obs use_hosp
              hosp_rate_est hosp_rate_conc hosp_noise_scale hosp h HT Hobs
              Hhosp)
    as (beta & x & y & z & det_rate & hosp_rate & tr & Erun & _).
  exists (Vec beta), x, y, z, (Scal det_rate), (Scal hosp_rate), tr.
  destruct (Nat.ltb_spec 0 T_future) as [HF|HF].
  2:{ assert (T_future = 0)%nat by lia. subst T_future.
      exists [], [], [], []. rewrite !app_nil_r. repeat split; auto. }
  destruct (SEIR_stochastic_runs T N T_future E_duration_est I_duration_est
              R0_est beta_shape sigma_shape gamma_shape det_rate_est
              det_rate_conc det_noise_scale rw_scale drift_scale obs use_hosp
              hosp_rate_est hosp_rate_conc hosp_noise_scale hosp h HT Hobs
              Hhosp)
    as (beta' & x' & y' & z' & det_rate' & hosp_rate' & tr' & Erun' & _).
  pose proof Erun as E0. pose proof Erun' as EF.
  run_pieces E0. cbn [Nat.ltb Nat.leb] in Hfut.
  destruct Hfut as [-> Eout]. injection Eout as Eb Ex Ey Ez Ed Eh.
  subst beta_h x_hist det_rate hosp_rate.
  apply SEIR_stochastic_inv in EF. cbv zeta in EF.
  destruct EF as (obs0' & obs1' & hosp0' & hosp1' & y0' & z0' & tr0' & tr1'
                  & tr2' & beta_h' & x1' & y1' & z1' & x_hist'
                  & Hsplit' & Hsplit2' & Ey0' & Ez0' & Edyn' & Evs' & Hfut').
  destruct (split_of_functional _ _ _ _ _ Hsplit Hsplit') as [<- <-].
  rewrite Ey0 in Ey0'. injection Ey0' as <- <-.
  assert (Esame : hosp1' = hosp1 /\ z0' = z0 /\ tr1' = tr1).
  { destruct use_hosp.
    - destruct (split_of_functional _ _ _ _ _ Hsplit2 Hsplit2') as [<- <-].
      rewrite Ez0 in Ez0'. injection Ez0' as <- <-. auto.
    - destruct Ez0 as [-> ->], Ez0' as [-> ->]. subst. auto. }
  destruct Esame as (-> & -> & ->).
  rewrite Edyn in Edyn'. injection Edyn' as <- <- <- <- <-.
  rewrite Evs in Evs'. injection Evs' as <-.
  rewrite (proj2 (Nat.ltb_lt 0 T_future) HF) in Hfut'.
  destruct Hfut' as (bl & xl & bf & xf & yf & zf & xa & Ebl & Exl & Ef & Evs2
                     & Eout').
  assert (Hbl : exists b, bl = Scal b).
  { revert Ebl. cbn [last_]. destruct (last (map Some beta) None);
      [|discriminate]. intros [= <-]. eauto. }
  destruct Hbl as (b & ->).
  destruct (SEIR_dynamics_runs (T_future + 1) b (h "sigma" []) (h "gamma" [])
              rw_scale (stochastic_drift drift_scale h) (h "det_rate" [])
              det_noise_scale (stochastic_hosp_rate use_hosp h)
              hosp_noise_scale xl None None use_hosp "_future" top_context h
              tr2 ltac:(lia) eq_refl)
    as (beta_f & x_f & y_f & z_f & walk & rest & E & Hbf & Hxf & Hyf & Hzf).
  rewrite E in Ef. injection Ef as <- <- <- <- <-.
  pose proof E as Einv. apply SEIR_dynamics_inv in Einv.
  destruct Einv as (walk' & bt & sg & gm & xs & my & sy & zsites & _ & _ & _
                    & _ & _ & _ & _ & _ & _ & Etr & Hzs).
  apply app_inv_head in Etr.
  cbn [vstack obind] in Evs2. injection Evs2 as <-.
  injection Eout' as Eb' Ex' Ey' Ez' Ed' Eh'.
  cbn [link_value] in Hyf. destruct y_f as [?|y_f|?]; try contradiction.
  exists x_f, y_f, (ravel z_f). eexists.
  split; [exact Erun|]. split; [|split; [|split; [|split]]].
  - rewrite Erun'. do 2 f_equal; try reflexivity.
    rewrite Eb', Ex', Ey', Ez', Ed', Eh', Ey, Ez. reflexivity.
  - rewrite Hxf. lia.
  - cbn [has_shape] in Hyf. rewrite Hyf. lia.
  - destruct use_hosp.
    + cbn [link_value] in Hzf. destruct z_f as [?|z_f|?]; try contradiction.
      cbn [has_shape ravel] in *. rewrite Hzf. lia.
    + subst z_f. unfold zeros_like. cbn [amap ravel].
      rewrite length_map. cbn [has_shape] in Hyf. rewrite Hyf. lia.
  - etransitivity; [exact (f_equal (map s_name) Etr)|]. destruct use_hosp.
    + destruct Hzs as (mz & sz & _ & _ & _ & ->). reflexivity.
    + destruct Hzs as [-> _]. reflexivity.
Qed.

(** X9. A forecast only appends.  With the same draws, the run with
    [T_future] further steps returns the transmission rates, the detection
    rate and the hospitalisation rate of the run without forecast; its
    trajectory and its two series are those of the run without forecast
    followed by [T_future] further entries; and its trace is the trace of
    the run without forecast followed by the sites of the forecast. *)
Theorem SEIR_stochastic_forecast_appends T N T_future E_duration_est
  I_duration_est R0_est beta_shape sigma_shape gamma_shape det_rate_est
  det_rate_conc det_noise_scale rw_scale drift_scale obs use_hosp
  hosp_rate_est hosp_rate_conc hosp_noise_scale hosp h :
  (2 <= T)%nat -> splittable obs -> (use_hosp = true -> splittable hosp) ->
  exists beta x y z det_rate hosp_rate tr x_f y_f z_f ext,
    SEIR_stochastic T N 0 E_duration_est I_duration_est R0_est
      beta_shape sigma_shape gamma_shape det_rate_est det_rate_conc
      det_noise_scale rw_scale drift_scale obs use_hosp hosp_rate_est
      hosp_rate_conc hosp_noise_scale hosp top_context h []
    = Some ((beta, Vec x, Vec y, Vec z, det_rate, hosp_rate), tr) /\
    SEIR_stochastic T N T_future E_duration_est I_duration_est R0_est
      beta_shape sigma_shape gamma_shape det_rate_est det_rate_conc
      det_noise_scale rw_scale drift_scale obs use_hosp hosp_rate_est
      hosp_rate_conc hosp_noise_scale hosp top_context h []
    = Some ((beta, Vec (x ++ x_f), Vec (y ++ y_f), Vec (z ++ z_f),
             det_rate, hosp_rate), tr ++ ext) /\
    length x_f = T_future /\ length y_f = T_future /\
    length z_f = T_future /\
    map s_name ext = if Nat.ltb 0 T_future
                     then dynamics_site_names use_hosp "_future"
                     else [].
Proof.
  exact (SEIR_stochastic_forecast_appends_aux T N T_future E_duration_est
           I_duration_est R0_est beta_shape sigma_shape gamma_shape
           det_rate_est det_rate_conc det_noise_scale rw_scale drift_scale
           obs use_hosp hosp_rate_est hosp_rate_conc hosp_noise_scale hosp h).
Qed.


Lemma last_map_Some_eq {A} (l : list A) (d : A) :
  l <> [] -> last (map Some l) None = Some (last l d).
Proof.
  induction l as [|a [|b l] IH]; intros Hl; [contradiction|reflexivity|].
  change (last (map Some (a :: b :: l)) None)
    with (last (map Some (b :: l)) None).
  change (last (a :: b :: l) d) with (last (b :: l) d).
  apply IH. discriminate.
Qed.

(** X10. A forecast continues the observed period: its walk of transmission
    rates starts from the last rate of the observed period, with the same
    scale and the same drift; its trajectory is the run of the compartment
    model from the last state of the observed period, with the same sigma
    and gamma; and it is scored against nothing: its link sites are sample
    sites without observation and without mask, whatever observations the
    model was given. *)
Theorem SEIR_stochastic_forecast_continues T N T_future E_duration_est
  I_duration_est R0_est beta_shape sigma_shape gamma_shape det_rate_est
  det_rate_conc det_noise_scale rw_scale drift_scale obs use_hosp
  hosp_rate_est hosp_rate_conc hosp_noise_scale hosp h :
  (2 <= T)%nat -> splittable obs -> (use_hosp = true -> splittable hosp) ->
  (0 < T_future)%nat ->
  let x0 := seed N (h "I0" []) (h "E0" []) in
  exists beta x_hist x_f y z det_rate hosp_rate tr_hist walk beta_f my sy
         y_f zsites,
    SEIR_stochastic T N T_future E_duration_est I_duration_est R0_est
      beta_shape sigma_shape gamma_shape det_rate_est det_rate_conc
      det_noise_scale rw_scale drift_scale obs use_hosp hosp_rate_est
      hosp_rate_conc hosp_noise_scale hosp top_context h []
    = Some ((Vec beta, Vec (x_hist ++ x_f), y, z, Scal det_rate, hosp_rate),
            tr_hist
            ++ [sample_site "beta_future" walk (Vec beta_f) false (Scal true);
                deterministic_site "x_future" (VState (Vec x_f));
                mean_site "y_future" my;
                link_site "y_future" my sy y_f None] ++ zsites) /\
    length x_hist = T /\
    ExponentialRandomWalk (Scal (last beta 0)) (Scal rw_scale)
      (Scal (stochastic_drift drift_scale h)) T_future = Some walk /\
    length beta_f = T_future /\
    x_f = tl (run (T_future + 1) (last x_hist x0)
                  (beta_f, h "sigma" [], h "gamma" [])) /\
    link_mean (Vec (map comp_C x_f)) (Scal det_rate) = Some my /\
    s_is_observed (link_site "y_future" my sy y_f None) = false /\
    s_mask (link_site "y_future" my sy y_f None) = Scal true /\
    Forall (fun s => s_is_observed s = false /\ s_mask s = Scal true) zsites.
Proof.
  intros HT Hobs Hhosp HF x0.
  destruct (SEIR_stochastic_runs T N T_future E_duration_est I_duration_est
              R0_est beta_shape sigma_shape gamma_shape det_rate_est
              det_rate_conc det_noise_scale rw_scale drift_scale obs use_hosp
              hosp_rate_est hosp_rate_conc hosp_noise_scale hosp h HT Hobs
              Hhosp)
    as (beta & x & y & z & det_rate & hosp_rate & tr & Erun & Hbeta & _ & _
        & _ & _ & Hbf).
  destruct (Hbf HF) as (sf & beta_f0 & _ & _ & _ & _). clear Hbf.
  pose proof Erun as E0. run_pieces E0.
  rewrite (proj2 (Nat.ltb_lt 0 T_future) HF) in Hfut.
  destruct Hfut as (bl & xl & bf & xf & yf & zf & xa & Ebl & Exl & Ef & Evs2
                    & Eout).
  injection Eout as Eb Ex Ey Ez Ed Eh. subst beta_h xa det_rate.
  apply SEIR_dynamics_inv in Edyn.
  destruct Edyn as (walk & bt & sg & gm & xs & my & sy & zsites & _ & Ebt
                    & _ & _ & Exs & -> & _ & _ & _ & _ & _).
  injection Ebt as <-.
  cbn [vstack obind] in Evs. injection Evs as <-.
  assert (Hne : beta <> []) by (destruct beta; simpl in *; [lia|discriminate]).
  cbn [last_] in Ebl. rewrite (last_map_Some_eq beta 0 Hne) in Ebl.
  injection Ebl as <-.
  cbn [last_] in Exl. fold x0 in Exl.
  rewrite (last_map_Some_eq (x0 :: xs) x0) in Exl by discriminate.
  cbn [omap obind as_scalar] in Exl. injection Exl as <-.
  destruct (SEIR_dynamics_runs (T_future + 1) (last beta 0) (h "sigma" [])
              (h "gamma" []) rw_scale (stochastic_drift drift_scale h)
              (h "det_rate" []) det_noise_scale
              (stochastic_hosp_rate use_hosp h) hosp_noise_scale
              (last (x0 :: xs) x0) None None use_hosp "_future" top_context h
              tr2 ltac:(lia) eq_refl)
    as (beta_f & x_f' & y_f' & z_f' & walk' & rest & E & Hlenf & _).
  pose proof (eq_trans (eq_sym E) Ef) as Eq. clear Ef.
  injection Eq as <- <- <- <- <-.
  apply SEIR_dynamics_inv in E.
  destruct E as (walkf & btf & sgf & gmf & xsf & myf & syf & zsf & Ewf & Ebtf
                 & Esg & Egm & Exsf & Exf & Emf & _ & _ & Etr & Hzf).
  injection Ebtf as <-. injection Esg as <-. injection Egm as <-.
  injection Exf as ->.
  cbn [vstack obind] in Evs2. injection Evs2 as Ex'.
  replace (T_future + 1 - 1)%nat with T_future in * by lia.
  exists beta, (x0 :: xs), xsf, (Vec y), (Vec z), (h "det_rate" []),
    (Scal hosp_rate), tr2, walkf, beta_f, myf, syf, y_f', zsf.
  split.
  { rewrite Erun, <- Ex'. do 2 f_equal. exact Etr. }
  split.
  { cbn [length]. rewrite Exs. subst x0.
    pose proof (run_length T (seed N (h "I0" []) (h "E0" [])) beta sg gm
                  ltac:(lia) Hbeta) as Hrun.
    destruct (run T _ (beta, sg, gm)); simpl in *; lia. }
  split; [exact Ewf|]. split; [exact Hlenf|]. split; [exact Exsf|].
  split; [exact Emf|]. split; [reflexivity|]. split; [reflexivity|].
  destruct use_hosp.
  - destruct Hzf as (mz & sz & _ & _ & _ & ->). repeat constructor.
  - destruct Hzf as [-> _]. constructor.
Qed.

(** The trace of a run up to the end of the observed period. *)
Lemma SEIR_stochastic_trace T N T_future E_duration_est I_duration_est R0_est
  beta_shape sigma_shape gamma_shape det_rate_est det_rate_conc
  det_noise_scale rw_scale drift_scale obs use_hosp hosp_rate_est
  hosp_rate_conc hosp_noise_scale hosp h out tr :
  SEIR_stochastic T N T_future E_duration_est I_duration_est R0_est
    beta_shape sigma_shape gamma_shape det_rate_est det_rate_conc
    det_noise_scale rw_scale drift_scale obs use_hosp hosp_rate_est
    hosp_rate_conc hosp_noise_scale hosp top_context h [] = Some (out, tr) ->
  let x0 := seed N (h "I0" []) (h "E0" []) in
  let det := h "det_rate" [] in
  let hr := stochastic_hosp_rate use_hosp h in
  exists obs0 obs1 hosp0 hosp1 y0 my0 sy0 z0sites walk beta xs my sy y1
         zsites fsites,
    tr = stochastic_prior_sites N E_duration_est I_duration_est R0_est
           beta_shape sigma_shape gamma_shape det_rate_est det_rate_conc
           drift_scale use_hosp hosp_rate_est hosp_rate_conc x0 h
         ++ [mean_site "y0" my0; link_site "y0" my0 sy0 y0 obs0]
         ++ z0sites
         ++ [sample_site "beta" walk (Vec beta) false (Scal true);
             deterministic_site "x" (VState (Vec xs));
             mean_site "y" my; link_site "y" my sy y1 obs1]
         ++ zsites ++ fsites /\
    split_of obs obs0 obs1 /\
    ExponentialRandomWalk (Scal (h "beta0" [])) (Scal rw_scale)
      (Scal (stochastic_drift drift_scale h)) (T - 1) = Some walk /\
    xs = tl (run T x0 (beta, h "sigma" [], h "gamma" [])) /\
    link_mean (Scal (comp_C x0)) (Scal det) = Some my0 /\
    link_mean (Vec (map comp_C xs)) (Scal det) = Some my /\
    if use_hosp
    then exists mz0 sz0 z0 mz sz z1,
           split_of hosp hosp0 hosp1 /\
           z0sites = [mean_site "z0" mz0; link_site "z0" mz0 sz0 z0 hosp0] /\
           zsites = [mean_site "z" mz; link_site "z" mz sz z1 hosp1] /\
           link_mean (Scal (comp_C x0)) (Scal hr) = Some mz0 /\
           link_mean (Vec (map comp_C xs)) (Scal hr) = Some mz /\
           link_scale (Scal hosp_noise_scale) mz = Some sz /\
           (forall o, hosp1 = Some o -> z1 = cleaned o)
    else z0sites = [] /\ zsites = [].
Proof.
  intros H x0 det hr. run_pieces H.
  assert (Hf : exists fsites, tr = tr2 ++ fsites).
  { destruct (Nat.ltb 0 T_future).
    - destruct Hfut as (bl & xl & bf & xf & yf & zf & xa & _ & _ & Ef & _).
      apply SEIR_dynamics_inv in Ef.
      destruct Ef as (? & ? & ? & ? & ? & ? & ? & ? & _ & _ & _ & _ & _ & _
                      & _ & _ & _ & -> & _).
      eauto.
    - destruct Hfut as [-> _]. exists []. now rewrite app_nil_r. }
  destruct Hf as (fsites & ->).
  apply observe_inv in Ey0. destruct Ey0 as (my0 & sy0 & Em0 & _ & -> & _).
  apply SEIR_dynamics_inv in Edyn.
  destruct Edyn as (walk & bt & sg & gm & xs & my & sy & zsites & Ew & ->
                    & Esg & Egm & Exs & -> & Em & _ & _ & -> & Hz).
  injection Esg as <-. injection Egm as <-.
  destruct use_hosp.
  - apply observe_inv in Ez0. destruct Ez0 as (mz0 & sz0 & Emz0 & _ & -> & _).
    destruct Hz as (mz & sz & Emz & Esz & Hcz & ->).
    exists obs0, obs1, hosp0, hosp1, y0, my0, sy0,
      [mean_site "z0" mz0; link_site "z0" mz0 sz0 z0 hosp0],
      walk, bt, xs, my, sy, y1,
      [mean_site "z" mz; link_site "z" mz sz z1 hosp1], fsites.
    split; [now rewrite <- !app_assoc|].
    repeat (split; [assumption|]).
    exists mz0, sz0, z0, mz, sz, z1. repeat split; auto.
  - destruct Ez0 as [_ ->]. destruct Hz as [-> _].
    exists obs0, obs1, hosp0, hosp1, y0, my0, sy0, [], walk, bt, xs, my, sy,
      y1, [], fsites.
    split; [now rewrite <- !app_assoc|].
    repeat (split; [assumption|]). auto.
Qed.

(** ** What the single-region model returns and records *)

Lemma link_mean_scalar latent sh r my :
  has_shape latent sh -> link_mean latent (Scal r) = Some my ->
  my = amap (fun x => r * (x + 0.5 / r)) latent.
Proof.
  intros HL. unfold link_mean.
  destruct (div (Scal 0.5) (Scal r)) as [shift|] eqn:E1; [|discriminate].
  cbn [obind].
  destruct (add latent shift) as [latent'|] eqn:E2; [|discriminate].
  cbn [obind].
  destruct (broadcast_to (Scal r) (ashape latent')) as [rate'|] eqn:E3;
    [|discriminate].
  cbn [obind]. intros E4.
  exact (scalar_rate_mean latent sh r shift latent' rate' my HL E1 E2 E3 E4).
Qed.

Lemma has_shape_Vec {A} (v : list A) : has_shape (Vec v) [length v].
Proof. reflexivity. Qed.

(** X11. With observations the model returns the data it was given: the
    confirmed series it returns starts with the observations, a finite one
    with 0.5 added and any other replaced by 0.5, whatever the parameters
    and the draws; the entries of a forecast follow. *)
Theorem SEIR_stochastic_returns_observations T N T_future E_duration_est
  I_duration_est R0_est beta_shape sigma_shape gamma_shape det_rate_est
  det_rate_conc det_noise_scale rw_scale drift_scale (v : list fl) use_hosp
  hosp_rate_est hosp_rate_conc hosp_noise_scale hosp h :
  (2 <= T)%nat -> v <> [] -> (use_hosp = true -> splittable hosp) ->
  exists beta x y_f z det_rate hosp_rate tr,
    SEIR_stochastic T N T_future E_duration_est I_duration_est R0_est
      beta_shape sigma_shape gamma_shape det_rate_est det_rate_conc
      det_noise_scale rw_scale drift_scale (Some (Vec v)) use_hosp
      hosp_rate_est hosp_rate_conc hosp_noise_scale hosp top_context h []
    = Some ((beta, x,
             Vec (map (fun e => finite_or_zero e + 0.5) v ++ y_f),
             z, det_rate, hosp_rate), tr) /\
    length y_f = T_future.
Proof.
  intros HT Hv Hhosp.
  assert (Hobs : splittable (Some (Vec v))) by (destruct v; [congruence|exact I]).
  destruct (SEIR_stochastic_forecast_appends_aux T N T_future E_duration_est
              I_duration_est R0_est beta_shape sigma_shape gamma_shape
              det_rate_est det_rate_conc det_noise_scale rw_scale drift_scale
              (Some (Vec v)) use_hosp hosp_rate_est hosp_rate_conc
              hosp_noise_scale hosp h HT Hobs Hhosp)
    as (beta & x & y & z & det_rate & hosp_rate & tr & x_f & y_f & z_f & ext
        & E0 & EF & _ & Hyf & _).
  exists beta, (Vec (x ++ x_f)), y_f, (Vec (z ++ z_f)), det_rate, hosp_rate,
    (tr ++ ext).
  split; [|exact Hyf]. rewrite EF. do 6 f_equal.
  run_pieces E0. cbn [Nat.ltb Nat.leb] in Hfut. destruct Hfut as [_ Eout].
  injection Eout as _ _ -> _ _ _.
  destruct v as [|e v]; [congruence|].
  destruct Hsplit as (f & r & Ef & Er & -> & ->).
  injection Ef as <-. injection Er as <-.
  apply observe_inv in Ey0. destruct Ey0 as (_ & _ & _ & _ & _ & Hy0).
  rewrite (Hy0 _ eq_refl).
  apply SEIR_dynamics_inv in Edyn.
  destruct Edyn as (? & ? & ? & ? & ? & ? & ? & ? & _ & _ & _ & _ & _ & _ & _
                    & _ & Hy1 & _).
  rewrite (Hy1 _ eq_refl). reflexivity.
Qed.

(** X12. With hospitalisations in the model, the hospitalisation rate it
    returns is the detection rate times the fraction drawn at the site
    hosp_rate; the series of hospitalisations is linked to the same
    cumulative cases as the confirmed series; with hospitalisation data its
    site holds the data after the first, 0.5 added to a finite entry and
    0.5 standing for any other, and is not masked, so that every entry is
    scored; and, above the regulariser 0.5, the mean of the hospitalisations
    is that fraction of the mean of the confirmed cases. *)
Theorem SEIR_stochastic_hospitalisations T N T_future E_duration_est
  I_duration_est R0_est beta_shape sigma_shape gamma_shape det_rate_est
  det_rate_conc det_noise_scale rw_scale drift_scale obs hosp_rate_est
  hosp_rate_conc hosp_noise_scale hosp h :
  (2 <= T)%nat -> splittable obs -> splittable hosp ->
  h "det_rate" [] <> 0 -> h "hosp_rate" [] <> 0 ->
  exists beta x y z tr my sy y1 obs1 mz sz z1 hosp0 hosp1,
    SEIR_stochastic T N T_future E_duration_est I_duration_est R0_est
      beta_shape sigma_shape gamma_shape det_rate_est det_rate_conc
      det_noise_scale rw_scale drift_scale obs true hosp_rate_est
      hosp_rate_conc hosp_noise_scale hosp top_context h []
    = Some ((beta, x, y, z, Scal (h "det_rate" []),
             Scal (h "det_rate" [] * h "hosp_rate" [])), tr) /\
    prior_site tr "hosp_rate"
      (Beta (Scal (hosp_rate_est * hosp_rate_conc))
            (Scal ((1 - hosp_rate_est) * hosp_rate_conc))) /\
    In (mean_site "y" my) tr /\ In (link_site "y" my sy y1 obs1) tr /\
    In (mean_site "z" mz) tr /\
    In (mkSite "z" SampleSite (Some (Normal mz sz)) (VReal z1)
               (is_some hosp1) (Scal true)) tr /\
    split_of hosp hosp0 hosp1 /\
    (forall o, hosp1 = Some o -> z1 = cleaned o) /\
    link_scale (Scal hosp_noise_scale) mz = Some sz /\
    mz = amap (fun m => h "hosp_rate" [] * (m - 0.5) + 0.5) my.
Proof.
  intros HT Hobs Hhosp Hdet Hfrac.
  destruct (SEIR_stochastic_runs T N T_future E_duration_est I_duration_est
              R0_est beta_shape sigma_shape gamma_shape det_rate_est
              det_rate_conc det_noise_scale rw_scale drift_scale obs true
              hosp_rate_est hosp_rate_conc hosp_noise_scale hosp h HT Hobs
              (fun _ => Hhosp))
    as (beta & x & y & z & det_rate & hosp_rate & tr & Erun & _).
  pose proof Erun as E2.
  assert (Eout : det_rate = h "det_rate" [] /\
                 hosp_rate = h "det_rate" [] * h "hosp_rate" []).
  { pose proof Erun as E1. run_pieces E1.
    destruct (Nat.ltb 0 T_future).
    - destruct Hfut as (? & ? & ? & ? & ? & ? & ? & _ & _ & _ & _ & Eout).
      injection Eout as _ _ _ _ -> ->. auto.
    - destruct Hfut as [_ Eout]. injection Eout as _ _ _ _ -> ->. auto. }
  destruct Eout as [-> ->].
  apply SEIR_stochastic_trace in E2. cbv zeta in E2.
  destruct E2 as (obs0 & obs1 & hosp0 & hosp1 & y0 & my0 & sy0 & z0sites
                  & walk & bt & xs & my & sy & y1 & zsites & fsites & Etr & _
                  & _ & _ & _ & Emy & mz0 & sz0 & z0 & mz & sz & z1 & Hsp
                  & -> & -> & _ & Emz & Esz & Hcz).
  exists (Vec beta), (Vec x), (Vec y), (Vec z), tr, my, sy, y1, obs1, mz, sz,
    z1, hosp0, hosp1.
  split; [exact Erun|].
  split.
  { exists (sample_site "hosp_rate"
              (Beta (Scal (hosp_rate_est * hosp_rate_conc))
                    (Scal ((1 - hosp_rate_est) * hosp_rate_conc)))
              (Scal (h "hosp_rate" [])) false (Scal true)).
    split; [|split; reflexivity]. rewrite Etr.
    apply in_or_app. left. unfold stochastic_prior_sites.
    apply in_or_app. right. apply in_or_app. left. now left. }
  assert (Hin : forall s,
            In s [mean_site "y" my; link_site "y" my sy y1 obs1;
                  mean_site "z" mz; link_site "z" mz sz z1 hosp1] ->
            In s tr).
  { intros s Hs. rewrite Etr. apply in_or_app. right.
    apply in_or_app. right. apply in_or_app. right.
    rewrite app_assoc. apply in_or_app. left.
    simpl in Hs |- *. intuition. }
  do 3 (split; [apply Hin; simpl; auto|]).
  split.
  { apply (Hin (link_site "z" mz sz z1 hosp1)). simpl. auto. }
  split; [exact Hsp|]. split; [exact Hcz|]. split; [exact Esz|].
  apply (link_mean_scalar _ _ _ _ (has_shape_Vec _)) in Emy, Emz.
  subst my mz. rewrite amap_amap. apply amap_ext_entries.
  apply Forall_forall. intros c _. unfold stochastic_hosp_rate. now field.
Qed.

(** X13. The estimates the model is called with are the means of its
    priors: sigma is drawn around [1 / E_duration_est] and gamma around
    [1 / I_duration_est], the first transmission rate around
    [R0_est / I_duration_est], and the detection rate around [det_rate_est];
    the shape arguments set the variances of the three rates to the square
    of their mean divided by the shape. *)
Theorem SEIR_stochastic_prior_means T N T_future E_duration_est
  I_duration_est R0_est beta_shape sigma_shape gamma_shape det_rate_est
  det_rate_conc det_noise_scale rw_scale drift_scale obs use_hosp
  hosp_rate_est hosp_rate_conc hosp_noise_scale hosp h :
  (2 <= T)%nat -> splittable obs -> (use_hosp = true -> splittable hosp) ->
  0 < E_duration_est -> 0 < I_duration_est -> 0 < R0_est ->
  0 < beta_shape -> 0 < sigma_shape -> 0 < gamma_shape ->
  0 < det_rate_conc ->
  exists out tr d_sigma d_gamma d_beta0 d_det_rate,
    SEIR_stochastic T N T_future E_duration_est I_duration_est R0_est
      beta_shape sigma_shape gamma_shape det_rate_est det_rate_conc
      det_noise_scale rw_scale drift_scale obs use_hosp hosp_rate_est
      hosp_rate_conc hosp_noise_scale hosp top_context h [] = Some (out, tr)
    /\ prior_site tr "sigma" d_sigma
    /\ Gamma_mean d_sigma = Some (Scal (1 / E_duration_est))
    /\ Gamma_variance d_sigma
       = Some (Scal ((1 / E_duration_est) ^ 2 / sigma_shape))
    /\ prior_site tr "gamma" d_gamma
    /\ Gamma_mean d_gamma = Some (Scal (1 / I_duration_est))
    /\ Gamma_variance d_gamma
       = Some (Scal ((1 / I_duration_est) ^ 2 / gamma_shape))
    /\ prior_site tr "beta0" d_beta0
    /\ Gamma_mean d_beta0 = Some (Scal (R0_est / I_duration_est))
    /\ Gamma_variance d_beta0
       = Some (Scal ((R0_est / I_duration_est) ^ 2 / beta_shape))
    /\ prior_site tr "det_rate" d_det_rate
    /\ Beta_mean d_det_rate = Some (Scal det_rate_est).
Proof.
  intros HT Hobs Hhosp HE HI HR Hb Hs Hg Hc.
  destruct (SEIR_stochastic_runs T N T_future E_duration_est I_duration_est
              R0_est beta_shape sigma_shape gamma_shape det_rate_est
              det_rate_conc det_noise_scale rw_scale drift_scale obs use_hosp
              hosp_rate_est hosp_rate_conc hosp_noise_scale hosp h HT Hobs
              Hhosp)
    as (beta & x & y & z & det_rate & hosp_rate & tr & Erun & _).
  pose proof Erun as E2.
  apply SEIR_stochastic_trace in E2. cbv zeta in E2.
  destruct E2 as (obs0 & obs1 & hosp0 & hosp1 & y0 & my0 & sy0 & z0sites
                  & walk & bt & xs & my & sy & y1 & zsites & fsites & Etr & _).
  assert (Hin : forall name d,
            In (sample_site name d (Scal (h name [])) false (Scal true))
               (firstn 6 (stochastic_prior_sites N E_duration_est
                            I_duration_est R0_est beta_shape sigma_shape
                            gamma_shape det_rate_est det_rate_conc
                            drift_scale use_hosp hosp_rate_est hosp_rate_conc
                            (seed N (h "I0" []) (h "E0" [])) h)) ->
            prior_site tr name d).
  { intros name d Hd.
    exists (sample_site name d (Scal (h name [])) false (Scal true)).
    split; [|split; reflexivity].
    rewrite Etr. apply in_or_app. left.
    match goal with |- In _ ?l => rewrite <- (firstn_skipn 6 l) end.
    apply in_or_app. left. exact Hd. }
  cbn [stochastic_prior_sites firstn app] in Hin.
  eexists _, tr, _, _, _, _. split; [exact Erun|].
  split; [apply Hin; simpl; auto 10|].
  split; [cbn; do 2 f_equal; field; lra|].
  split; [cbn; do 2 f_equal; field; lra|].
  split; [apply Hin; simpl; auto 10|].
  split; [cbn; do 2 f_equal; field; lra|].
  split; [cbn; do 2 f_equal; field; lra|].
  split; [apply Hin; simpl; auto 10|].
  split; [cbn; do 2 f_equal; field; lra|].
  split; [cbn; do 2 f_equal; field; lra|].
  split; [apply Hin; simpl; auto 10|].
  cbn; do 2 f_equal; field; lra.
Qed.

(** The rates a segment of the dynamics draws from a positive first rate. *)
Lemma SEIR_dynamics_rates T b0 sigma gamma rw dr det dn hr hn x0 obs hosp
  use_hosp suffix h tr beta x y z tr' :
  0 < b0 -> (2 <= T)%nat ->
  SEIR_dynamics T (Scal b0, sigma, gamma, Scal rw, Scal dr, det, dn, hr, hn)
                x0 obs hosp use_hosp suffix top_context h tr
  = Some ((beta, x, y, z), tr') ->
  beta = Vec (walk_path b0 dr rw
                (map (fun i => h ("beta" ++ suffix)%string [i])
                     (seq 0 (T - 1)))).
Proof.
  intros Hb HT. unfold SEIR_dynamics. intros H.
  apply bind_inv in H. destruct H as (walk & t & Ew & H).
  apply lift_inv in Ew. destruct Ew as [Ew ->].
  apply walk_steps_inv in Ew.
  apply bind_inv in H. destruct H as (b & t & Eb & H).
  rewrite (sample_walk_path b0 rw dr (T - 1) _ h tr walk Hb ltac:(lia) Ew)
    in Eb.
  injection Eb as <- <-. minv. reflexivity.
Qed.

(** X15. The transmission rates of a run follow the recurrence of the walk:
    with a positive draw of the first rate, the rates the model returns are
    the walk from that draw, with the drift of the run (the draw at the site
    drift, or 0 without drift scale), and the rates of a forecast are the
    walk from the last of them with the same drift; all of them are
    positive. *)
Theorem SEIR_stochastic_rates T N T_future E_duration_est I_duration_est
  R0_est beta_shape sigma_shape gamma_shape det_rate_est det_rate_conc
  det_noise_scale rw_scale drift_scale obs use_hosp hosp_rate_est
  hosp_rate_conc hosp_noise_scale hosp h :
  (2 <= T)%nat -> splittable obs -> (use_hosp = true -> splittable hosp) ->
  0 < h "beta0" [] ->
  let drift := stochastic_drift drift_scale h in
  let beta := walk_path (h "beta0" []) drift rw_scale
                (map (fun i => h "beta" [i]) (seq 0 (T - 1))) in
  let beta_f := walk_path (last beta 0) drift rw_scale
                  (map (fun i => h "beta_future" [i]) (seq 0 T_future)) in
  exists x y z det_rate hosp_rate tr,
    SEIR_stochastic T N T_future E_duration_est I_duration_est R0_est
      beta_shape sigma_shape gamma_shape det_rate_est det_rate_conc
      det_noise_scale rw_scale drift_scale obs use_hosp hosp_rate_est
      hosp_rate_conc hosp_noise_scale hosp top_context h []
    = Some ((Vec beta, x, y, z, det_rate, hosp_rate), tr) /\
    all_entries (fun b => 0 < b) (Vec beta) /\
    ((0 < T_future)%nat ->
     (exists s, In s tr /\ s_name s = "beta_future" /\
                s_value s = VReal (Vec beta_f)) /\
     all_entries (fun b => 0 < b) (Vec beta_f)).
Proof.
  intros HT Hobs Hhosp Hb0 drift beta beta_f.
  destruct (SEIR_stochastic_runs T N T_future E_duration_est I_duration_est
              R0_est beta_shape sigma_shape gamma_shape det_rate_est
              det_rate_conc det_noise_scale rw_scale drift_scale obs use_hosp
              hosp_rate_est hosp_rate_conc hosp_noise_scale hosp h HT Hobs
              Hhosp)
    as (bt & x & y & z & det_rate & hosp_rate & tr & Erun & _).
  assert (Hpos : forall loc z0,
            0 < loc -> all_entries (fun b => 0 < b)
                         (Vec (walk_path loc drift rw_scale z0))).
  { intros loc [|e z0] Hloc; [constructor|].
    assert (0 < loc * exp (rw_scale * e))
      by (apply Rmult_lt_0_compat; [lra|apply exp_pos]).
    constructor; [assumption|now apply walk_from_positive]. }
  pose proof Erun as E1. run_pieces E1.
  pose proof (SEIR_dynamics_rates _ _ _ _ _ _ _ _ _ _ _ _ _ _ _ _ _ _ _ _ _ _
                Hb0 HT Edyn) as Eb.
  fold drift in Eb. cbn [append] in Eb. fold beta in Eb. subst beta_h.
  assert (Ebt : bt = beta).
  { destruct (Nat.ltb 0 T_future).
    - destruct Hfut as (? & ? & ? & ? & ? & ? & ? & _ & _ & _ & _ & Eout).
      now injection Eout.
    - destruct Hfut as [_ Eout]. now injection Eout. }
  subst bt.
  exists (Vec x), (Vec y), (Vec z), (Scal det_rate), (Scal hosp_rate), tr.
  split; [exact Erun|]. split; [now apply Hpos|].
  intros HF.
  rewrite (proj2 (Nat.ltb_lt 0 T_future) HF) in Hfut.
  destruct Hfut as (bl & xl & bf & xf & yf & zf & xa & Ebl & _ & Ef & _).
  change (walk_path (h "beta0" []) drift rw_scale
            (map (fun i => h ("beta" ++ "")%string [i]) (seq 0 (T - 1))))
    with beta in Ebl.
  assert (Hne : beta <> []).
  { subst beta. destruct (T - 1)%nat eqn:ET; [exfalso; lia|]. discriminate. }
  cbn [last_] in Ebl. rewrite (last_map_Some_eq beta 0 Hne) in Ebl.
  injection Ebl as <-.
  assert (Hlast : 0 < last beta 0).
  { pose proof (Hpos (h "beta0" []) (map (fun i => h "beta" [i])
                                       (seq 0 (T - 1))) Hb0) as Hall.
    unfold all_entries in Hall. cbn [ravel] in Hall. fold beta in Hall.
    rewrite Forall_forall in Hall. apply Hall.
    destruct (exists_last Hne) as (l & a & E). rewrite E, last_last.
    apply in_or_app. right. now left. }
  pose proof (SEIR_dynamics_rates (T_future + 1) _ _ _ _ _ _ _ _ _ _ _ _ _ _
                _ _ _ _ _ _ _ Hlast ltac:(lia) Ef) as Ebf.
  replace (T_future + 1 - 1)%nat with T_future in Ebf by lia.
  fold drift in Ebf. change ("beta" ++ "_future")%string with "beta_future" in Ebf.
  fold beta_f in Ebf. subst bf.
  split; [|now apply Hpos].
  apply SEIR_dynamics_inv in Ef.
  destruct Ef as (walkf & ? & ? & ? & ? & ? & ? & ? & _ & _ & _ & _ & _ & _
                  & _ & _ & _ & -> & _).
  eexists (sample_site "beta_future" walkf (Vec beta_f) false (Scal true)).
  split; [|split; reflexivity].
  apply in_or_app. right. now left.
Qed.

(** ** The hierarchical model, statement by statement *)

Lemma with_plate_inv {A} name n (body : M A) cx h tr r :
  with_plate name n body cx h tr = Some r ->
  cx_plate cx = None /\
  body (mkContext (Some (name, n)) (cx_mask cx)) h tr = Some r.
Proof.
  unfold with_plate. destruct (cx_plate cx); [discriminate|]. auto.
Qed.

(** One segment of the dynamics of the places: the walks it draws, the
    trajectories it runs, and the sites it records, in their order. *)
Lemma SEIR_dynamics_hierarchical_inv T beta0 sigma gamma det_rate det_conc rw
  drift x0 obs suffix h tr beta x y tr' :
  SEIR_dynamics_hierarchical T
    (beta0, sigma, gamma, det_rate, det_conc, rw, drift) x0 obs suffix
    top_context h tr = Some ((beta, x, y), tr') ->
  exists b0col drcol walk xfull my sy,
    column beta0 = Some b0col /\ column det_rate = Some drcol /\
    ExponentialRandomWalk b0col rw drift (T - 1) = Some walk /\
    vmap_run T x0 beta sigma gamma = Some xfull /\
    col_rest xfull = Some x /\
    link_mean (amap comp_C x) drcol = Some my /\
    link_scale det_conc my = Some sy /\
    (forall o, obs = Some o -> y = cleaned o) /\
    tr' = tr ++ [sample_site ("beta" ++ suffix) walk beta false (Scal true);
                 deterministic_site ("x" ++ suffix) (VState x);
                 mean_site ("y" ++ suffix) my;
                 link_site ("y" ++ suffix) my sy y obs].
Proof.
  unfold SEIR_dynamics_hierarchical. intros H.
  apply bind_inv in H. destruct H as (b0col & t & E1 & H).
  apply lift_inv in E1. destruct E1 as [E1 ->].
  apply bind_inv in H. destruct H as (drcol & t & E2 & H).
  apply lift_inv in E2. destruct E2 as [E2 ->].
  apply bind_inv in H. destruct H as (places & t & E3 & H).
  apply lift_inv in E3. destruct E3 as [E3 ->].
  apply bind_inv in H. destruct H as (b & t & E4 & H).
  apply with_plate_inv in E4. destruct E4 as [_ E4].
  apply bind_inv in E4. destruct E4 as (walk & t' & Ew & E4).
  apply lift_inv in Ew. destruct Ew as [Ew ->].
  apply walk_steps_inv in Ew.
  apply sample_inv in E4. destruct E4 as [-> _]. cbn [cx_mask] in H.
  apply bind_inv in H. destruct H as (xfull & t & E5 & H).
  apply lift_inv in E5. destruct E5 as [E5 ->].
  apply bind_inv in H. destruct H as (x' & t & E6 & H).
  apply lift_inv in E6. destruct E6 as [E6 ->].
  apply bind_inv in H. destruct H as ([] & t & E7 & H).
  unfold deterministic in E7. injection E7 as <-.
  apply bind_inv in H. destruct H as (y' & t & E8 & H).
  apply observe_inv in E8. destruct E8 as (my & sy & Em & Es & -> & Hy).
  apply ret_inv in H. destruct H as [E ->]. injection E as <- <- <-.
  exists b0col, drcol, walk, xfull, my, sy.
  repeat (split; [assumption|]).
  rewrite <- !app_assoc. reflexivity.
Qed.

Lemma split_first_column_inv obs cx h tr obs0 obs1 tr' :
  split_first_column obs cx h tr = Some ((obs0, obs1), tr') ->
  split_of_column obs obs0 obs1 /\ tr' = tr.
Proof.
  unfold split_first_column, split_of_column.
  destruct obs as [o|]; intros H; minv; eauto 7.
Qed.

(** Inversion of the statements of a model body, one at a time. *)
Ltac model_inv_step :=
  first
    [ minv_step
    | match goal with
      | H : sample _ _ None _ _ _ _ = Some _ |- _ =>
          let Hd := fresh "Hdrawn" in
          pose proof (sample_drawn _ _ _ _ _ _ _ _ H) as Hd;
          apply sample_inv in H; destruct H as [-> _]
      | H : deterministic _ _ _ _ _ = Some _ |- _ =>
          unfold deterministic in H; injection H as <-
      | H : with_plate _ _ _ _ _ _ = Some _ |- _ =>
          apply with_plate_inv in H; destruct H as [_ H]
      | H : split_first_column _ _ _ _ = Some _ |- _ =>
          let Hs := fresh "Hsplit" in
          apply split_first_column_inv in H; destruct H as [Hs ->]
      | H : observe _ _ _ _ _ _ _ _ = Some _ |- _ =>
          let my := fresh "my" in
          let sy := fresh "sy" in
          let Em := fresh "Em" in
          let Es := fresh "Es" in
          let Hy := fresh "Hy" in
          apply observe_inv in H; destruct H as (my & sy & Em & Es & -> & Hy)
      end ].

(** The hierarchical model, step by step: the priors of the places, the
    first observation, the dynamics of the observed period and, for a
    forecast, the dynamics from the last rates and the last states. *)
Lemma SEIR_hierarchical_inv p T N T_future E_duration_est I_duration_est
  R0_est det_rate_est det_rate_conc rw_scale det_scale place_covariates
  drift_scale obs h out tr :
  SEIR_hierarchical p T N T_future E_duration_est I_duration_est R0_est
    det_rate_est det_rate_conc rw_scale det_scale place_covariates
    drift_scale obs top_context h [] = Some (out, tr) ->
  let X := values place_covariates in
  let d := df_columns place_covariates in
  exists R0_mean R0_prior R0 E_mean E_prior E_duration I_mean I_prior
         I_duration det_mean conc1 comp conc0 det_rate Nv high I0 E0 x0
         obs0 obs1 y0 my0 sy0 sigma gamma beta0 beta x1 y1 tr2
         x0_col y0_col x_hist y_hist,
    SEIR_dynamics_hierarchical T
      (beta0, sigma, gamma, det_rate, Scal det_scale, Scal rw_scale, Scal 0)
      x0 obs1 "" top_context h
      (hierarchical_head h d R0_prior R0 E_prior E_duration I_prior
         I_duration (Beta conc1 conc0) det_rate high I0 E0 x0
       ++ [mean_site "y0" my0; link_site "y0" my0 sy0 y0 obs0])
    = Some ((beta, x1, y1), tr2) /\
    GammaMeanVar R0_mean (Scal 0.1) = Some R0_prior /\
    GammaMeanVar E_mean (Scal 0.05) = Some E_prior /\
    GammaMeanVar I_mean (Scal 0.05) = Some I_prior /\
    log_link_mean R0_est (Scal (h "bias_R0" [])) X
                  (Vec (coefficients h "theta_R0" d)) = Some R0_mean /\
    log_link_mean E_duration_est (Scal (h "bias_E_duration" [])) X
                  (Vec (coefficients h "theta_E_duration" d)) = Some E_mean /\
    log_link_mean I_duration_est (Scal (h "bias_I_duration" [])) X
                  (Vec (coefficients h "theta_I_duration" d)) = Some I_mean /\
    logit_link_mean det_rate_est (Scal (h "bias_det_rate" [])) X
                    (Vec (coefficients h "theta_det_rate" d))
    = Some det_mean /\
    mul det_mean (Scal det_rate_conc) = Some conc1 /\
    sub (Scal 1) det_mean = Some comp /\
    mul comp (Scal det_rate_conc) = Some conc0 /\
    div (Scal 1) E_duration = Some sigma /\
    div (Scal 1) I_duration = Some gamma /\
    mul R0 gamma = Some beta0 /\
    broadcast_to N [p] = Some Nv /\
    mul (Scal 0.02) Nv = Some high /\
    vmap_seed Nv I0 E0 = Some x0 /\
    split_of_column obs obs0 obs1 /\
    link_mean (amap comp_C x0) det_rate = Some my0 /\
    link_scale (Scal det_scale) my0 = Some sy0 /\
    (forall o, obs0 = Some o -> y0 = cleaned o) /\
    column x0 = Some x0_col /\ concat1 x0_col x1 = Some x_hist /\
    column y0 = Some y0_col /\ concat1 y0_col y1 = Some y_hist /\
    drawn top_context h "R0" R0_prior [] R0 /\
    drawn top_context h "E_duration" E_prior [] E_duration /\
    drawn top_context h "I_duration" I_prior [] I_duration /\
    drawn top_context h "det_rate" (Beta conc1 conc0) [] det_rate /\
    drawn (places_context p) h "I0" (Uniform (Scal 0) high) [] I0 /\
    drawn (places_context p) h "E0" (Uniform (Scal 0) high) [] E0 /\
    if Nat.ltb 0 T_future
    then exists beta_last x_last beta_f x_f y_f x_all y_all,
           col_last beta = Some beta_last /\
           col_last x_hist = Some x_last /\
           SEIR_dynamics_hierarchical (T_future + 1)
             (beta_last, sigma, gamma, det_rate, Scal det_scale,
              Scal rw_scale, Scal 0)
             x_last None "_future" top_context h tr2
           = Some ((beta_f, x_f, y_f), tr) /\
           concat1 x_hist x_f = Some x_all /\
           concat1 y_hist y_f = Some y_all /\
           out = (beta, x_all, y_all, det_rate)
    else tr = tr2 /\ out = (beta, x_hist, y_hist, det_rate).
Proof.
  intros H. cbv zeta. unfold SEIR_hierarchical in H.
  do 4 (apply bind_inv in H; destruct H as (? & ? & E & H);
        apply sample_scalar_inv in E; [destruct E as [-> ->]|reflexivity..]).
  do 4 (apply bind_inv in H; destruct H as (? & ? & E & H);
        rewrite sample_coefficients in E; injection E as <- <-).
  destruct (Nat.ltb 0 T_future); repeat model_inv_step;
    cbn [is_some cx_mask top_context] in *;
    match goal with
    | H : SEIR_dynamics_hierarchical T _ _ _ "" _ _ _ = Some _ |- _ =>
        rewrite <- !app_assoc in H; cbn [app] in H;
        do 35 eexists; split; [exact H|]
    end;
    repeat (split; [eassumption|]).
  - do 7 eexists. repeat (split; [eassumption|]). reflexivity.
  - split; reflexivity.
Qed.

(** ** The places of the hierarchical model *)

Lemma place_draws_length h name p : length (place_draws h name p) = p.
Proof. unfold place_draws. now rewrite length_map, length_seq. Qed.

(** The draw of a distribution without event shape whose batch holds one
    entry per place, outside or under the plate of the places. *)
Lemma drawn_places cx h name d n v :
  batch_shape d = Some [n] -> event_shape d = [] ->
  (forall raw, dist_sample d raw = Some raw) ->
  (cx_plate cx = None \/ cx_plate cx = Some ("num_places", n)) ->
  drawn cx h name d [] v -> v = Vec (place_draws h name n).
Proof.
  intros Hb He Hd Hcx (sh & raw & Esh & Eraw & Ev).
  rewrite Hd in Ev. injection Ev as <-.
  unfold draw_shape in Esh. rewrite Hb, He in Esh. cbn [obind] in Esh.
  assert (E : sh = [n]).
  { destruct Hcx as [Hc|Hc]; rewrite Hc in Esh; cbn [obind app] in Esh.
    - now injection Esh as <-.
    - rewrite broadcast_shapes_vec_refl in Esh. cbn [obind app] in Esh.
      now injection Esh as <-. }
  subst sh. cbn [tabulate] in Eraw. now injection Eraw as <-.
Qed.

Lemma link_mean_column latent rates p n my :
  has_shape (Mat latent) [p; n] -> length rates = p ->
  Forall (fun r => r <> 0) rates ->
  link_mean (Mat latent) (Mat (map (fun x => [x]) rates)) = Some my ->
  my = Mat (zip_with (fun r row => map (fun x => r * x + 0.5) row)
                     rates latent).
Proof.
  intros HL Hr Hnz. unfold link_mean.
  destruct (div (Scal 0.5) (Mat (map (fun x => [x]) rates)))
    as [shift|] eqn:E1; [|discriminate].
  cbn [obind].
  destruct (add (Mat latent) shift) as [latent'|] eqn:E2; [|discriminate].
  cbn [obind].
  destruct (broadcast_to (Mat (map (fun x => [x]) rates)) (ashape latent'))
    as [rate'|] eqn:E3; [|discriminate].
  cbn [obind]. intros E4.
  exact (column_rate_mean latent rates p n shift latent' rate' my HL Hr Hnz
           E1 E2 E3 E4).
Qed.

Lemma zip4_map_tl {A B C D E} (f : A -> B -> C -> D -> list E)
  (g1 : R -> C) (g2 : R -> D) xs bs es is_ :
  map (fun r => tl r) (zip4 f xs bs (map g1 es) (map g2 is_))
  = zip4 (fun x b e i => tl (f x b (g1 e) (g2 i))) xs bs es is_.
Proof.
  revert bs es is_.
  induction xs as [|x xs IH]; intros [|b bs] [|e es] [|i is_]; simpl; auto.
  now rewrite IH.
Qed.

Lemma zip4_Forall {A B C D E} (f : A -> B -> C -> D -> E) (P : B -> Prop)
  (Q : E -> Prop) xs bs cs ds :
  Forall P bs -> (forall x b c d, P b -> Q (f x b c d)) ->
  Forall Q (zip4 f xs bs cs ds).
Proof.
  intros HP HQ. revert xs cs ds.
  induction HP as [|b bs Hb _ IH]; intros [|x xs] [|c cs] [|d ds]; simpl;
    constructor; auto.
Qed.

Lemma zip4_length {A B C D E} (f : A -> B -> C -> D -> E) xs bs cs ds p :
  length xs = p -> length bs = p -> length cs = p -> length ds = p ->
  length (zip4 f xs bs cs ds) = p.
Proof.
  revert xs bs cs ds.
  induction p as [|p IH]; intros [|x xs] [|b bs] [|c cs] [|d ds];
    simpl; try discriminate; auto.
Qed.

(** X16. In the hierarchical model every place runs on its own draws: the
    seed state of a place comes from its population and its draws of I0 and
    E0; its walk of transmission rates starts from its R0 over its
    I_duration; its trajectory is the run of the compartment model from its
    seed with its rates, sigma one over its E_duration and gamma one over
    its I_duration; and the mean of its confirmed cases is its detection
    rate times its cumulative cases plus 0.5. *)
Theorem SEIR_hierarchical_places p T N T_future E_duration_est
  I_duration_est R0_est det_rate_est det_rate_conc rw_scale det_scale
  place_covariates drift_scale obs h :
  (2 <= T)%nat -> frame_ok place_covariates p -> population_ok N p ->
  aligned_places obs p T ->
  (forall i, h "det_rate" [i] <> 0) ->
  let R0 := place_draws h "R0" p in
  let E_duration := place_draws h "E_duration" p in
  let I_duration := place_draws h "I_duration" p in
  let det_rate := place_draws h "det_rate" p in
  exists Ns x0 walk beta x1 x y tr,
    SEIR_hierarchical p T N T_future E_duration_est I_duration_est R0_est
      det_rate_est det_rate_conc rw_scale det_scale place_covariates
      drift_scale obs top_context h []
    = Some ((Mat beta, Mat x, Mat y, Vec det_rate), tr) /\
    broadcast_to N [p] = Some (Vec Ns) /\
    x0 = zip3 seed Ns (place_draws h "I0" p) (place_draws h "E0" p) /\
    In (deterministic_site "x0" (VState (Vec x0))) tr /\
    ExponentialRandomWalk
      (Mat (map (fun b => [b])
                (zip_with (fun r i => r * (1 / i)) R0 I_duration)))
      (Scal rw_scale) (Scal 0) (T - 1) = Some walk /\
    In (sample_site "beta" walk (Mat beta) false (Scal true)) tr /\
    x1 = zip4 (fun s0 b e i => tl (run T s0 (b, 1 / e, 1 / i)))
              x0 beta E_duration I_duration /\
    In (deterministic_site "x" (VState (Mat x1))) tr /\
    map (firstn T) x = zip_with cons x0 x1 /\
    In (mean_site "y"
          (Mat (zip_with (fun r row => map (fun s => r * comp_C s + 0.5) row)
                         det_rate x1))) tr.
Proof.
  intros HT HX HN Hobs Hdet R0 E_duration I_duration det_rate.
  destruct (SEIR_hierarchical_runs p T N T_future E_duration_est
              I_duration_est R0_est det_rate_est det_rate_conc rw_scale
              det_scale place_covariates drift_scale obs h HT HX HN Hobs)
    as (beta & x & y & dr & tr & Erun & Hbeta & Hx & _).
  destruct HX as [HXp HXd].
  pose proof Erun as E. apply SEIR_hierarchical_inv in E. cbv zeta in E.
  destruct E as (R0_mean & R0_prior & R0v & E_mean & E_prior & Ev & I_mean
                 & I_prior & Iv & det_mean & conc1 & comp & conc0 & drv & Nv
                 & high & I0 & E0 & x0 & obs0 & obs1 & y0 & my0 & sy0 & sigma
                 & gamma & beta0 & beta' & x1 & y1 & tr2 & x0_col & y0_col
                 & x_hist & y_hist & Edyn & EgR & EgE & EgI & EmR & EmE & EmI
                 & Emd & Ec1 & Ecomp & Ec0 & Esig & Egam & Eb0 & EN & Ehigh
                 & Eseed & Hsplit & Emy0 & Esy0 & Hy0 & Ex0c & Exh & Ey0c
                 & Eyh & DR & DE & DI & Dd & DI0 & DE0 & Hfut).
  (* the parameters of the places are the draws of the host *)
  assert (Hgamma_draw : forall est b th mean prior name v var,
            log_link_mean est (Scal b) (values place_covariates)
              (Vec (coefficients h th (df_columns place_covariates)))
            = Some mean ->
            GammaMeanVar mean (Scal var) = Some prior ->
            drawn top_context h name prior [] v ->
            v = Vec (place_draws h name p)).
  { intros est b th mean prior name v var Em Eg D.
    destruct (log_link_mean_runs est b (values place_covariates) _ _ HXd
                (coefficients_shape h th _)) as (t & _ & Em').
    rewrite Em' in Em. injection Em as <-.
    match type of Eg with
    | GammaMeanVar ?m _ = _ =>
        destruct (GammaMeanVar_shape m var p) as (s & r & Eg' & Hs & Hr);
        [simpl; rewrite length_map; exact HXp|]
    end.
    rewrite Eg' in Eg. injection Eg as <-.
    apply (drawn_places top_context h name (Gamma s r) p v); auto.
    now apply two_vectors_batch. }
  pose proof (Hgamma_draw _ _ _ _ _ _ _ _ EmR EgR DR) as ->.
  pose proof (Hgamma_draw _ _ _ _ _ _ _ _ EmE EgE DE) as ->.
  pose proof (Hgamma_draw _ _ _ _ _ _ _ _ EmI EgI DI) as ->.
  clear Hgamma_draw.
  assert (Edr : drv = Vec (place_draws h "det_rate" p)).
  { destruct (logit_link_mean_runs det_rate_est (h "bias_det_rate" [])
                (values place_covariates) _ _ HXd
                (coefficients_shape h "theta_det_rate" _)) as (t & _ & Em').
    rewrite Em' in Emd. injection Emd as <-.
    cbn [mul sub map2 amap] in Ec1, Ecomp. injection Ec1 as <-.
    injection Ecomp as <-. cbn [mul map2 amap] in Ec0. injection Ec0 as <-.
    apply (drawn_places top_context h "det_rate" _ p drv) in Dd; auto.
    apply (two_vectors_batch _ _ p); simpl; rewrite !length_map; exact HXp. }
  subst drv.
  destruct (broadcast_to_places N p HN) as (n & En & Ln).
  rewrite En in EN. injection EN as <-.
  cbn [mul map2 amap] in Ehigh. injection Ehigh as <-.
  assert (Hb : batch_shape (Uniform (Scal 0) (Vec (map (Rmult 0.02) n)))
               = Some [p]).
  { cbn [batch_shape ashape]. rewrite length_map, Ln. reflexivity. }
  apply (drawn_places (places_context p) h "I0" _ p I0) in DI0; auto.
  apply (drawn_places (places_context p) h "E0" _ p E0) in DE0; auto.
  subst I0 E0.
  destruct (vmap_seed_runs n (place_draws h "I0" p) (place_draws h "E0" p) p
              Ln (place_draws_length _ _ _) (place_draws_length _ _ _))
    as [Eseed' Lseed].
  rewrite Eseed' in Eseed. injection Eseed as <-.
  cbn [div map2 amap] in Esig, Egam. injection Esig as <-.
  injection Egam as <-.
  unfold mul in Eb0. cbn [map2] in Eb0.
  rewrite bzip_same in Eb0
    by (rewrite length_map, !place_draws_length; reflexivity).
  cbn [omap] in Eb0. injection Eb0 as <-. rewrite zip_with_map_r in Edyn.
  (* what the model returns *)
  assert (Eout : beta' = Mat beta /\ dr = Vec (place_draws h "det_rate" p)).
  { destruct (Nat.ltb 0 T_future).
    - destruct Hfut as (? & ? & ? & ? & ? & ? & ? & _ & _ & _ & _ & _ & Eout).
      injection Eout as -> _ _ ->. auto.
    - destruct Hfut as [_ Eout]. injection Eout as -> _ _ ->. auto. }
  destruct Eout as [-> ->].
  (* the observed period *)
  apply SEIR_dynamics_hierarchical_inv in Edyn.
  destruct Edyn as (b0col & drcol & walk & xfull & my & sy & Eb0c & Edrc & Ew
                    & Erun' & Ecr & Emy & Esy & Hy1 & Etr2).
  cbn [column] in Eb0c, Edrc. injection Eb0c as <-. injection Edrc as <-.
  set (x0 := zip3 seed n (place_draws h "I0" p) (place_draws h "E0" p)) in *.
  destruct Hbeta as [Lbeta Fbeta].
  unfold vmap_run in Erun'. cbn [as_vector as_matrix obind] in Erun'.
  destruct (_ && _)%bool; [|discriminate]. injection Erun' as <-.
  cbn [col_rest] in Ecr. injection Ecr as <-.
  rewrite zip4_map_tl in *.
  set (x1 := zip4 (fun s0 b e i => tl (run T s0 (b, 1 / e, 1 / i)))
                  x0 beta (place_draws h "E_duration" p)
                  (place_draws h "I_duration" p)) in *.
  assert (Lx1 : length x1 = p)
    by (apply zip4_length; auto using place_draws_length).
  assert (Fx1 : Forall (fun r => length r = (T - 1)%nat) x1).
  { apply (zip4_Forall _ (fun b => length b = (T - 1)%nat)); [exact Fbeta|].
    intros s0 b e i Hlen.
    pose proof (run_length T s0 b (1 / e) (1 / i) ltac:(lia) Hlen) as Hrun.
    destruct (run T s0 (b, 1 / e, 1 / i)); simpl in *; lia. }
  assert (Emean : my = Mat (zip_with
                              (fun r row =>
                                 map (fun s => r * comp_C s + 0.5) row)
                              (place_draws h "det_rate" p) x1)).
  { cbn [amap] in Emy.
    apply (link_mean_column _ _ p (T - 1)%nat) in Emy.
    - rewrite Emy, zip_with_map_r. f_equal. apply zip_with_ext_in.
      intros r row _ _. now rewrite map_map.
    - split; [now rewrite length_map|]. apply Forall_map.
      revert Fx1. apply Forall_impl. intros row Hrow.
      now rewrite length_map.
    - apply place_draws_length.
    - apply Forall_forall. intros r Hr. unfold place_draws in Hr.
      apply in_map_iff in Hr. destruct Hr as (i & <- & _). apply Hdet. }
  subst my.
  (* the sites of the observed period stay in the trace *)
  assert (Hin : forall s, In s tr2 -> In s tr).
  { destruct (Nat.ltb 0 T_future).
    - destruct Hfut as (? & ? & ? & ? & ? & ? & ? & _ & _ & Ef & _).
      apply SEIR_dynamics_hierarchical_inv in Ef.
      destruct Ef as (? & ? & ? & ? & ? & ? & _ & _ & _ & _ & _ & _ & _ & _
                      & ->).
      intros s Hs. apply in_or_app. now left.
    - destruct Hfut as [-> _]. auto. }
  (* the rows of the trajectory *)
  cbn [column] in Ex0c. injection Ex0c as <-.
  cbn [concat1] in Exh. rewrite length_map in Exh.
  destruct (Nat.eqb _ _); [|discriminate]. injection Exh as <-.
  rewrite zip_with_map_l in Hfut.
  assert (Fhist : Forall (fun r => length r = T)
                    (zip_with (fun s row => [s] ++ row) x0 x1)).
  { clearbody x1 x0. clear - Fx1 HT. revert x0.
    induction Fx1 as [|row x1 Hrow _ IH]; intros [|s x0]; simpl;
      constructor; auto. simpl. lia. }
  assert (Ecs : zip_with (fun s row => [s] ++ row) x0 x1
                = zip_with cons x0 x1) by reflexivity.
  rewrite Ecs in *. clear Ecs.
  set (hist := zip_with cons x0 x1) in *.
  assert (Ex : map (firstn T) x = hist).
  { clearbody hist. destruct (Nat.ltb 0 T_future).
    - destruct Hfut as (? & ? & ? & xf & ? & ? & ? & _ & _ & _ & Exa & _
                        & Eout).
      injection Eout as <- _. clear - Exa Fhist.
      destruct xf as [?|?|xf]; cbn [concat1] in Exa; try discriminate.
      destruct (Nat.eqb_spec (length hist) (length xf)) as [Hlen|];
        [|discriminate].
      injection Exa as <-.
      revert xf Hlen. induction Fhist as [|row hist Hrow _ IH];
        intros [|f xf] Hlen; simpl in *; try discriminate; auto.
      injection Hlen as Hlen. rewrite (IH xf Hlen). f_equal.
      rewrite firstn_app, <- Hrow, firstn_all, Nat.sub_diag.
      cbn [firstn]. apply app_nil_r.
    - destruct Hfut as [_ Eout]. injection Eout as <- _. clear - Fhist.
      induction Fhist as [|row hist Hrow _ IH]; simpl; auto.
      rewrite IH. f_equal. rewrite <- Hrow. apply firstn_all. }
  exists n, x0, walk, beta, x1, x, y, tr.
  split; [exact Erun|]. split; [exact En|]. split; [reflexivity|].
  split.
  { apply Hin. rewrite Etr2. apply in_or_app. left. apply in_or_app. left.
    unfold hierarchical_head. simpl. auto 20. }
  split; [exact Ew|].
  split.
  { apply Hin. rewrite Etr2. apply in_or_app. right. now left. }
  split; [reflexivity|].
  split.
  { apply Hin. rewrite Etr2. apply in_or_app. right. right. now left. }
  split; [exact Ex|].
  apply Hin. rewrite Etr2. apply in_or_app. right. right. right. now left.
Qed.

(** X17. A run of the hierarchical model records its sites in the order of
    the statements of the model, each under its own name: the biases and the
    coefficients, the parameters of the places, their initial counts and
    seed states, the first observation, the observed period and, for a
    forecast, the sites with the suffix _future.  No name is recorded
    twice. *)
Theorem SEIR_hierarchical_site_names p T N T_future E_duration_est
  I_duration_est R0_est det_rate_est det_rate_conc rw_scale det_scale
  place_covariates drift_scale obs h :
  (2 <= T)%nat -> frame_ok place_covariates p -> population_ok N p ->
  aligned_places obs p T ->
  exists out tr,
    SEIR_hierarchical p T N T_future E_duration_est I_duration_est R0_est
      det_rate_est det_rate_conc rw_scale det_scale place_covariates
      drift_scale obs top_context h [] = Some (out, tr) /\
    map s_name tr = hierarchical_site_names (Nat.ltb 0 T_future) /\
    NoDup (map s_name tr).
Proof.
  intros HT HX HN Hobs.
  destruct (SEIR_hierarchical_runs p T N T_future E_duration_est
              I_duration_est R0_est det_rate_est det_rate_conc rw_scale
              det_scale place_covariates drift_scale obs h HT HX HN Hobs)
    as (beta & x & y & dr & tr & Erun & _).
  eexists _, tr. split; [exact Erun|].
  assert (Enames : map s_name tr
                   = hierarchical_site_names (Nat.ltb 0 T_future)).
  { apply SEIR_hierarchical_inv in Erun. cbv zeta in Erun.
    destruct Erun as (R0_mean & R0_prior & R0v & E_mean & E_prior & Ev
                      & I_mean & I_prior & Iv & det_mean & conc1 & comp
                      & conc0 & drv & Nv & high & I0 & E0 & x0 & obs0 & obs1
                      & y0 & my0 & sy0 & sigma & gamma & beta0 & beta' & x1
                      & y1 & tr2 & x0_col & y0_col & x_hist & y_hist & Edyn
                      & Hrest).
    apply SEIR_dynamics_hierarchical_inv in Edyn.
    destruct Edyn as (? & ? & ? & ? & ? & ? & _ & _ & _ & _ & _ & _ & _ & _
                      & ->).
    do 30 (destruct Hrest as [_ Hrest]).
    destruct (Nat.ltb 0 T_future).
    - destruct Hrest as (? & ? & ? & ? & ? & ? & ? & _ & _ & Ef & _).
      apply SEIR_dynamics_hierarchical_inv in Ef.
      destruct Ef as (? & ? & ? & ? & ? & ? & _ & _ & _ & _ & _ & _ & _ & _
                      & ->).
      reflexivity.
    - destruct Hrest as [-> _]. reflexivity. }
  split; [exact Enames|]. rewrite Enames. apply nodupb_sound.
  destruct (Nat.ltb 0 T_future); vm_compute; reflexivity.
Qed.

(** ** A forecast of the hierarchical model *)

(** Two runs of one model body on the same draws, statement by statement,
    up to the first statement on which they differ. *)
Ltac sync_step H0 HF :=
  lazymatch type of H0 with
  | bind (if _ then _ else _) _ _ _ _ = _ => fail
  | bind _ _ _ _ _ = _ =>
      let a := fresh "a" in
      let t := fresh "t" in
      let E := fresh "E" in
      let a' := fresh "a" in
      let t' := fresh "t" in
      let E' := fresh "E" in
      apply bind_inv in H0; destruct H0 as (a & t & E & H0);
      apply bind_inv in HF; destruct HF as (a' & t' & E' & HF);
      rewrite E in E'; injection E' as <- <-;
      cbv beta in H0, HF;
      repeat lazymatch type of H0 with
             | (let (_, _) := ?p in _) _ _ _ = _ =>
                 destruct p; cbv beta iota in H0, HF
             end
  end.

Lemma concat1_inv {A} (m : list (list A)) (b c : arr A) :
  concat1 (Mat m) b = Some c ->
  exists n, b = Mat n /\ length m = length n /\
            c = Mat (zip_with (fun r s => r ++ s) m n).
Proof.
  destruct b as [?|?|n]; cbn [concat1]; try discriminate.
  destruct (Nat.eqb_spec (length m) (length n)); [|discriminate].
  intros [= <-]. eauto.
Qed.

Lemma appended_rows_length {A} (m n : list (list A)) k k' :
  length m = length n ->
  Forall (fun r => length r = k) m ->
  Forall (fun r => length r = (k + k')%nat)
         (zip_with (fun r s => r ++ s) m n) ->
  Forall (fun r => length r = k') n.
Proof.
  intros Hlen Hm. revert n Hlen.
  induction Hm as [|r m Hr _ IH]; intros [|s n] Hlen Hall; simpl in *;
    try discriminate; constructor.
  - inversion Hall as [|? ? Hrs _]; subst. rewrite length_app in Hrs. lia.
  - inversion Hall; subst. apply IH; auto.
Qed.

(** X18. A forecast of the hierarchical model only appends.  With the same
    draws, the run with [T_future] further steps returns the transmission
    rates and the detection rates of the run without forecast; the
    trajectory and the confirmed series of each place are those of the run
    without forecast followed by [T_future] further entries; and its trace
    is the trace of the run without forecast followed by the four sites of
    the forecast. *)
Theorem SEIR_hierarchical_forecast_appends p T N T_future E_duration_est
  I_duration_est R0_est det_rate_est det_rate_conc rw_scale det_scale
  place_covariates drift_scale obs h :
  (2 <= T)%nat -> frame_ok place_covariates p -> population_ok N p ->
  aligned_places obs p T -> (0 < T_future)%nat ->
  exists beta x y det_rate tr x_f y_f ext,
    SEIR_hierarchical p T N 0 E_duration_est I_duration_est R0_est
      det_rate_est det_rate_conc rw_scale det_scale place_covariates
      drift_scale obs top_context h []
    = Some ((beta, Mat x, Mat y, det_rate), tr) /\
    SEIR_hierarchical p T N T_future E_duration_est I_duration_est R0_est
      det_rate_est det_rate_conc rw_scale det_scale place_covariates
      drift_scale obs top_context h []
    = Some ((beta, Mat (zip_with (fun r s => r ++ s) x x_f),
             Mat (zip_with (fun r s => r ++ s) y y_f), det_rate),
            tr ++ ext) /\
    length x_f = p /\ Forall (fun r => length r = T_future) x_f /\
    length y_f = p /\ Forall (fun r => length r = T_future) y_f /\
    map s_name ext
    = ["beta_future"; "x_future"; "mean_y_future"; "y_future"].
Proof.
  intros HT HX HN Hobs HF.
  destruct (SEIR_hierarchical_runs p T N 0 E_duration_est I_duration_est
              R0_est det_rate_est det_rate_conc rw_scale det_scale
              place_covariates drift_scale obs h HT HX HN Hobs)
    as (beta & x & y & dr & tr & Erun & _ & Hx & Hy & _).
  destruct (SEIR_hierarchical_runs p T N T_future E_duration_est
              I_duration_est R0_est det_rate_est det_rate_conc rw_scale
              det_scale place_covariates drift_scale obs h HT HX HN Hobs)
    as (beta' & x' & y' & dr' & tr' & Erun' & _ & Hx' & Hy' & _).
  replace (T + 0)%nat with T in Hx, Hy by lia.
  pose proof Erun as H0. pose proof Erun' as H1.
  unfold SEIR_hierarchical in H0, H1.
  repeat sync_step H0 H1.
  repeat match goal with
         | E : _ _ _ _ = Some (_, _) |- _ =>
             lazymatch E with
             | H0 => fail | H1 => fail | Erun => fail | Erun' => fail
             | _ => clear E
             end
         end.
  cbn [Nat.ltb Nat.leb] in H0.
  rewrite (proj2 (Nat.ltb_lt 0 T_future) HF) in H1.
  minv.
  match goal with
  | H : SEIR_dynamics_hierarchical (T_future + 1) _ _ _ _ _ _ _ = Some _
    |- _ => apply SEIR_dynamics_hierarchical_inv in H;
            destruct H as (? & ? & ? & ? & ? & ? & _ & _ & _ & _ & _ & _ & _
                           & _ & Etr)
  end.
  repeat match goal with
         | H : concat1 (Mat _) _ = Some _ |- _ =>
             apply concat1_inv in H; destruct H as (? & ? & ? & ?); subst
         end.
  repeat match goal with
         | H : Mat _ = Mat _ |- _ => injection H as ?; subst
         end.
  destruct Hx as [Lx Fx], Hy as [Ly Fy], Hx' as [Lx' Fx'], Hy' as [Ly' Fy'].
  do 8 eexists.
  split; [exact Erun|]. split; [exact Erun'|].
  split; [congruence|].
  split; [eapply appended_rows_length; eauto|].
  split; [congruence|].
  split; [eapply appended_rows_length; eauto|].
  reflexivity.
Qed.

(** ** The drift of the hierarchical model *)

(** The draw of a Gamma prior of the places is the variates the host holds
    for the places. *)
Lemma gamma_prior_draw p df h est b th mean prior name v var :
  frame_ok df p ->
  log_link_mean est (Scal b) (values df) (Vec (coefficients h th (df_columns df)))
  = Some mean ->
  GammaMeanVar mean (Scal var) = Some prior ->
  drawn top_context h name prior [] v ->
  v = Vec (place_draws h name p).
Proof.
  intros [HXp HXd] Em Eg D.
  destruct (log_link_mean_runs est b (values df) _ _ HXd
              (coefficients_shape h th _)) as (t & _ & Em').
  rewrite Em' in Em. injection Em as <-.
  match type of Eg with
  | GammaMeanVar ?m _ = _ =>
      destruct (GammaMeanVar_shape m var p) as (s & r & Eg' & Hs & Hr);
      [simpl; rewrite length_map; exact HXp|]
  end.
  rewrite Eg' in Eg. injection Eg as <-.
  apply (drawn_places top_context h name (Gamma s r) p v); auto.
  now apply two_vectors_batch.
Qed.

(** C7.  In [SEIR_hierarchical] the drift of the transmission-rate walks is
    0 whatever [drift_scale] is.  Two calls that differ in [drift_scale]
    alone are the same computation.  In a run the site ["beta"] holds the
    walk that starts, place by place, from the R0 of the place over its
    I_duration, with the scale [rw_scale] and the drift 0, over [T - 1]
    steps; and with a forecast the site ["beta_future"] holds the walk that
    starts from the last rate of each place, with the same scale and the
    drift 0, over [T_future] steps. *)
Theorem SEIR_hierarchical_drift_fixed p T N T_future E_duration_est
  I_duration_est R0_est det_rate_est det_rate_conc rw_scale det_scale
  place_covariates drift_scale obs h :
  (2 <= T)%nat -> frame_ok place_covariates p -> population_ok N p ->
  aligned_places obs p T ->
  (forall drift_scale',
     SEIR_hierarchical p T N T_future E_duration_est I_duration_est R0_est
       det_rate_est det_rate_conc rw_scale det_scale place_covariates
       drift_scale' obs
     = SEIR_hierarchical p T N T_future E_duration_est I_duration_est R0_est
         det_rate_est det_rate_conc rw_scale det_scale place_covariates
         drift_scale obs) /\
  exists beta x y det_rate tr walk,
    SEIR_hierarchical p T N T_future E_duration_est I_duration_est R0_est
      det_rate_est det_rate_conc rw_scale det_scale place_covariates
      drift_scale obs top_context h []
    = Some ((Mat beta, x, y, det_rate), tr) /\
    ExponentialRandomWalk
      (Mat (map (fun b => [b])
                (zip_with (fun r i => r * (1 / i))
                          (place_draws h "R0" p)
                          (place_draws h "I_duration" p))))
      (Scal rw_scale) (Scal 0) (T - 1) = Some walk /\
    In (sample_site "beta" walk (Mat beta) false (Scal true)) tr /\
    ((0 < T_future)%nat ->
     exists beta_last walk_f beta_f,
       col_last (Mat beta) = Some (Vec beta_last) /\
       ExponentialRandomWalk (Mat (map (fun b => [b]) beta_last))
         (Scal rw_scale) (Scal 0) T_future = Some walk_f /\
       In (sample_site "beta_future" walk_f beta_f false (Scal true)) tr).
Proof.
  intros HT HX HN Hobs. split; [reflexivity|].
  destruct (SEIR_hierarchical_runs p T N T_future E_duration_est
              I_duration_est R0_est det_rate_est det_rate_conc rw_scale
              det_scale place_covariates drift_scale obs h HT HX HN Hobs)
    as (beta & x & y & dr & tr & Erun & Hbeta & _).
  pose proof Erun as E. apply SEIR_hierarchical_inv in E. cbv zeta in E.
  destruct E as (R0_mean & R0_prior & R0v & E_mean & E_prior & Ev & I_mean
                 & I_prior & Iv & det_mean & conc1 & comp & conc0 & drv & Nv
                 & high & I0 & E0 & x0 & obs0 & obs1 & y0 & my0 & sy0 & sigma
                 & gamma & beta0 & beta' & x1 & y1 & tr2 & x0_col & y0_col
                 & x_hist & y_hist & Edyn & EgR & EgE & EgI & EmR & EmE & EmI
                 & _ & _ & _ & _ & _ & Egam & Eb0 & _ & _ & _ & _ & _ & _ & _
                 & _ & _ & _ & _ & DR & _ & DI & _ & _ & _ & Hfut).
  pose proof (gamma_prior_draw p _ h _ _ _ _ _ _ _ _ HX EmR EgR DR) as ->.
  pose proof (gamma_prior_draw p _ h _ _ _ _ _ _ _ _ HX EmI EgI DI) as ->.
  cbn [div map2 amap] in Egam. injection Egam as <-.
  unfold mul in Eb0. cbn [map2] in Eb0.
  rewrite bzip_same in Eb0
    by (rewrite length_map, !place_draws_length; reflexivity).
  cbn [omap] in Eb0. injection Eb0 as <-. rewrite zip_with_map_r in Edyn.
  apply SEIR_dynamics_hierarchical_inv in Edyn.
  destruct Edyn as (b0col & drcol & walk & xfull & my & sy & Eb0c & _ & Ew
                    & _ & _ & _ & _ & _ & Etr2).
  cbn [column] in Eb0c. injection Eb0c as <-.
  destruct (Nat.ltb_spec 0 T_future) as [HF|HF].
  - destruct Hfut as (beta_last & x_last & beta_f & x_f & y_f & x_all & y_all
                      & Ebl & _ & Ef & _ & _ & Eout).
    injection Eout as Eb _ _ _. subst beta'.
    apply SEIR_dynamics_hierarchical_inv in Ef.
    destruct Ef as (blcol & ? & walk_f & ? & ? & ? & Eblc & _ & Ewf & _ & _
                    & _ & _ & _ & Etr).
    destruct beta_last as [?|bl|?]; try discriminate.
    cbn [column] in Eblc. injection Eblc as <-.
    replace (T_future + 1 - 1)%nat with T_future in Ewf by lia.
    exists beta, (Mat x), (Mat y), dr, tr, walk.
    split; [exact Erun|]. split; [exact Ew|]. split.
    + rewrite Etr, Etr2. apply in_or_app. left. apply in_or_app. right.
      now left.
    + intros _. exists bl, walk_f, beta_f.
      split; [exact Ebl|]. split; [exact Ewf|].
      rewrite Etr. apply in_or_app. right. now left.
  - destruct Hfut as [-> Eout]. injection Eout as Eb _ _ _. subst beta'.
    exists beta, (Mat x), (Mat y), dr, tr2, walk.
    split; [exact Erun|]. split; [exact Ew|]. split.
    + rewrite Etr2. apply in_or_app. right. now left.
    + intros HF'. lia.
Qed.

(** ** The means of the priors of the hierarchical model *)

Lemma GammaMeanVar_prior_mean m var prior :
  Forall (fun x => x <> 0) m -> var <> 0 ->
  GammaMeanVar (Vec m) (Scal var) = Some prior ->
  prior_mean prior = Some (Vec m).
Proof.
  intros Hm Hvar. unfold GammaMeanVar, mul at 1.
  rewrite map2_self. cbn [obind]. unfold div at 1.
  rewrite map2_scal_r, amap_amap. cbn [obind]. unfold div at 1.
  rewrite map2_amap_diag. cbn [obind]. intros [= <-].
  cbn [prior_mean Gamma_mean]. unfold div.
  change (map2 Rdiv (amap (fun x => x * x / var) (Vec m))
                    (amap (fun x => x * x / var / x) (Vec m))
          = Some (Vec m)).
  rewrite map2_amap_amap. f_equal.
  rewrite <- (amap_id (Vec m)) at 2. apply amap_ext_entries.
  unfold all_entries. cbn [ravel]. revert Hm. apply Forall_impl.
  intros x Hx. now field.
Qed.

Lemma Beta_prior_mean m conc c1 c0 :
  conc <> 0 ->
  mul (Vec m) (Scal conc) = Some c1 ->
  obind (sub (Scal 1) (Vec m)) (fun q => mul q (Scal conc)) = Some c0 ->
  prior_mean (Beta c1 c0) = Some (Vec m).
Proof.
  intros Hc. unfold mul, sub. rewrite map2_scal_r. intros [= <-].
  cbn [map2 obind]. rewrite map2_scal_r, amap_amap. intros [= <-].
  cbn [prior_mean Beta_mean]. unfold add, div.
  change (obind (map2 Rplus (amap (fun x => x * conc) (Vec m))
                            (amap (fun x => (1 - x) * conc) (Vec m)))
                (map2 Rdiv (amap (fun x => x * conc) (Vec m)))
          = Some (Vec m)).
  rewrite map2_amap_amap. cbn [obind].
  rewrite map2_amap_amap. f_equal.
  rewrite <- (amap_id (Vec m)) at 2. apply amap_ext_entries.
  unfold all_entries. apply Forall_forall. intros x _. field.
  replace (x * conc + (1 - x) * conc) with conc by ring. exact Hc.
Qed.

Lemma nth_coefficients h name d k :
  (k < d)%nat -> nth k (coefficients h name d) 0 = h name [k].
Proof.
  intros Hk. unfold coefficients.
  rewrite (nth_indep _ 0 (h name [0%nat]))
    by now rewrite length_map, length_seq.
  rewrite (map_nth (fun i => h name [i]) (seq 0 d) 0%nat k).
  now rewrite seq_nth.
Qed.

(** What the priors of a run are centred on. *)
Lemma SEIR_hierarchical_prior_means p T N T_future E_duration_est
  I_duration_est R0_est det_rate_est det_rate_conc rw_scale det_scale
  place_covariates drift_scale obs h :
  (2 <= T)%nat -> frame_ok place_covariates p -> population_ok N p ->
  aligned_places obs p T -> det_rate_conc <> 0 ->
  exists out tr,
    SEIR_hierarchical p T N T_future E_duration_est I_duration_est R0_est
      det_rate_est det_rate_conc rw_scale det_scale place_covariates
      drift_scale obs top_context h [] = Some (out, tr) /\
    hierarchical_prior_means h R0_est E_duration_est I_duration_est
      det_rate_est place_covariates tr.
Proof.
  intros HT HX HN Hobs Hconc.
  destruct (SEIR_hierarchical_runs p T N T_future E_duration_est
              I_duration_est R0_est det_rate_est det_rate_conc rw_scale
              det_scale place_covariates drift_scale obs h HT HX HN Hobs)
    as (beta & x & y & det_rate & tr & E & _ & _ & _ & _ & _ & Hp).
  eexists _, tr. split; [exact E|].
  destruct HX as [HXp HXd].
  assert (Hgamma : forall est name var,
            var <> 0 ->
            (exists m prior,
               log_link_mean est (Scal (h ("bias_" ++ name)%string []))
                 (values place_covariates)
                 (Vec (coefficients h ("theta_" ++ name)%string
                                    (df_columns place_covariates)))
               = Some m /\
               GammaMeanVar m (Scal var) = Some prior /\
               prior_site tr name prior) ->
            prior_mean_site tr name
              (place_means ln exp h est name place_covariates)).
  { intros est name var Hvar (m & prior & Em & Eg & Hs).
    destruct (log_link_mean_runs est (h ("bias_" ++ name)%string [])
                (values place_covariates) _ _ HXd
                (coefficients_shape h ("theta_" ++ name)%string _))
      as (t & [= <-] & Em').
    rewrite Em' in Em. injection Em as <-.
    exists prior. split; [exact Hs|].
    apply (GammaMeanVar_prior_mean _ var); [|exact Hvar|exact Eg].
    apply Forall_forall. intros v Hv. apply in_map_iff in Hv.
    destruct Hv as (row & <- & _). pose proof (exp_pos
      (ln est + h ("bias_" ++ name)%string []
       + dot_row row (coefficients h ("theta_" ++ name)%string
                                   (df_columns place_covariates)))).
    lra. }
  destruct Hp as (HR & HE & HI & m & c1 & c0 & Em & Ec1 & Ec0 & Hs).
  split; [apply (Hgamma R0_est "R0" 0.1); [lra|exact HR]|].
  split; [apply (Hgamma E_duration_est "E_duration" 0.05); [lra|exact HE]|].
  split; [apply (Hgamma I_duration_est "I_duration" 0.05); [lra|exact HI]|].
  destruct (logit_link_mean_runs det_rate_est (h "bias_det_rate" [])
              (values place_covariates) _ _ HXd
              (coefficients_shape h "theta_det_rate" _))
    as (t & [= <-] & Em').
  rewrite Em' in Em. injection Em as <-.
  exists (Beta c1 c0). split; [exact Hs|].
  now apply (Beta_prior_mean _ det_rate_conc).
Qed.

(** C6.  A run of [SEIR_hierarchical] draws R0 and the two durations of the
    places from Gamma priors whose mean, place by place, is
    [exp(log(est) + bias + X.theta)], and the detection rates from Beta
    priors whose mean is the logistic sigmoid of
    [logit(est) + bias + X.theta], for the bias and the coefficients the
    host drew.  When the host draws a larger coefficient [j] for a parameter
    and nothing else changes, the mean of that parameter rises at every
    place whose covariate [j] is positive; and with a zero bias and a zero
    covariate effect the mean is the base estimate. *)
Theorem hierarchical_means_monotone p T N T_future E_duration_est
  I_duration_est R0_est det_rate_est det_rate_conc rw_scale det_scale
  place_covariates drift_scale obs h h' name j :
  (2 <= T)%nat -> frame_ok place_covariates p -> population_ok N p ->
  aligned_places obs p T -> det_rate_conc <> 0 ->
  In name ["R0"; "E_duration"; "I_duration"; "det_rate"] ->
  (j < df_columns place_covariates)%nat ->
  h ("theta_" ++ name)%string [j] < h' ("theta_" ++ name)%string [j] ->
  (forall k, k <> j ->
             h' ("theta_" ++ name)%string [k]
             = h ("theta_" ++ name)%string [k]) ->
  h' ("bias_" ++ name)%string [] = h ("bias_" ++ name)%string [] ->
  let X := values place_covariates in
  (exists out tr,
     SEIR_hierarchical p T N T_future E_duration_est I_duration_est R0_est
       det_rate_est det_rate_conc rw_scale det_scale place_covariates
       drift_scale obs top_context h [] = Some (out, tr) /\
     hierarchical_prior_means h R0_est E_duration_est I_duration_est
       det_rate_est place_covariates tr) /\
  (exists out tr,
     SEIR_hierarchical p T N T_future E_duration_est I_duration_est R0_est
       det_rate_est det_rate_conc rw_scale det_scale place_covariates
       drift_scale obs top_context h' [] = Some (out, tr) /\
     hierarchical_prior_means h' R0_est E_duration_est I_duration_est
       det_rate_est place_covariates tr) /\
  (forall est i row,
     nth_error X i = Some row -> 0 < nth j row 0 ->
     exists m m' q q',
       nth_error (place_means ln exp h est name place_covariates) i
       = Some m /\
       nth_error (place_means ln exp h' est name place_covariates) i
       = Some m' /\
       m < m' /\
       nth_error (place_means logit expit h est name place_covariates) i
       = Some q /\
       nth_error (place_means logit expit h' est name place_covariates) i
       = Some q' /\
       q < q') /\
  (forall est,
     h ("bias_" ++ name)%string [] = 0 ->
     Forall (fun row =>
               dot_row row (coefficients h ("theta_" ++ name)%string
                                         (df_columns place_covariates)) = 0)
            X ->
     (0 < est ->
      place_means ln exp h est name place_covariates
      = map (fun _ => est) X) /\
     (0 < est < 1 ->
      place_means logit expit h est name place_covariates
      = map (fun _ => est) X)).
Proof.
  intros HT HX HN Hobs Hconc _ Hj Hlt Hk Hb X.
  split; [now apply SEIR_hierarchical_prior_means|].
  split; [now apply SEIR_hierarchical_prior_means|].
  set (d := df_columns place_covariates) in *.
  set (th := ("theta_" ++ name)%string) in *.
  set (bi := ("bias_" ++ name)%string) in *.
  split.
  - intros est i row Hi Hpos.
    assert (Hl : length row = d).
    { destruct HX as [_ HXd]. rewrite Forall_forall in HXd.
      eapply HXd, nth_error_In, Hi. }
    assert (Hdot : dot_row row (coefficients h th d)
                   < dot_row row (coefficients h' th d)).
    { rewrite (dot_row_update row (coefficients h th d)
                 (coefficients h' th d) j).
      - rewrite !nth_coefficients by exact Hj.
        assert (0 < nth j row 0 * (h' th [j] - h th [j]))
          by (apply Rmult_lt_0_compat; lra).
        lra.
      - unfold coefficients. now rewrite length_map, length_seq.
      - unfold coefficients. now rewrite length_map, length_seq.
      - lia.
      - intros k Hkj. destruct (Nat.lt_ge_cases k d) as [Hkd|Hkd].
        + rewrite !nth_coefficients by exact Hkd. now apply Hk.
        + rewrite !nth_overflow; [reflexivity| |];
            unfold coefficients; now rewrite length_map, length_seq. }
    unfold place_means. fold X d th bi.
    rewrite !(map_nth_error _ i X Hi). rewrite Hb.
    do 4 eexists. split; [reflexivity|]. split; [reflexivity|].
    split; [apply exp_increasing; lra|].
    split; [reflexivity|]. split; [reflexivity|].
    apply expit_increasing. lra.
  - intros est Hbias Hzero. unfold place_means. fold X d th bi.
    split; intros Hest; apply map_ext_in; intros row Hrow;
      rewrite Forall_forall in Hzero; rewrite (Hzero row Hrow), Hbias,
        !Rplus_0_r.
    + now apply exp_ln.
    + now apply expit_logit.
Qed.

End FurtherModelProperties.

(** ** The further properties of the models on the reference model *)

Lemma SEIR_stochastic_site_names_witness :
  exists out tr,
      SEIR_stochastic 10%nat 100000 5%nat 4 2 3
        1 5 5 0.3 50
        0.15 0.1 (Some 0.05) (Some (Vec [Fin 1; NaN; Fin 3])) true 0.15
        30 0.3 (Some (Vec [Fin 0; Fin 1])) top_context unit_host [] = Some (out, tr)
      /\ map s_name tr
         = stochastic_site_names true (is_some (Some 0.05))
                                 (Nat.ltb 0 5%nat)
      /\ NoDup (map s_name tr).
Proof.
  apply (SEIR_stochastic_site_names 10%nat 100000 5%nat 4 2 3 1 5 5 0.3 50
           0.15 0.1 (Some 0.05) (Some (Vec [Fin 1; NaN; Fin 3])) true 0.15
           30 0.3 (Some (Vec [Fin 0; Fin 1])) unit_host).
  - lia.
  - exact I.
  - intros _. exact I.
Defined.

Lemma SEIR_stochastic_forecast_appends_witness :
  exists beta x y z det_rate hosp_rate tr x_f y_f z_f ext,
      SEIR_stochastic 10%nat 100000 0 4 2 3
        1 5 5 0.3 50
        0.15 0.1 (Some 0.05) (Some (Vec [Fin 1; NaN; Fin 3])) true 0.15
        30 0.3 (Some (Vec [Fin 0; Fin 1])) top_context unit_host []
      = Some ((beta, Vec x, Vec y, Vec z, det_rate, hosp_rate), tr) /\
      SEIR_stochastic 10%nat 100000 5%nat 4 2 3
        1 5 5 0.3 50
        0.15 0.1 (Some 0.05) (Some (Vec [Fin 1; NaN; Fin 3])) true 0.15
        30 0.3 (Some (Vec [Fin 0; Fin 1])) top_context unit_host []
      = Some ((beta, Vec (x ++ x_f), Vec (y ++ y_f), Vec (z ++ z_f),
               det_rate, hosp_rate), tr ++ ext) /\
      length x_f = 5%nat /\ length y_f = 5%nat /\
      length z_f = 5%nat /\
      map s_name ext = if Nat.ltb 0 5%nat
                       then dynamics_site_names true "_future"
                       else [].
Proof.
  apply (SEIR_stochastic_forecast_appends 10%nat 100000 5%nat 4 2 3 1 5 5
           0.3 50 0.15 0.1 (Some 0.05) (Some (Vec [Fin 1; NaN; Fin 3])) true
           0.15 30 0.3 (Some (Vec [Fin 0; Fin 1])) unit_host).
  - lia.
  - exact I.
  - intros _. exact I.
Defined.

Lemma SEIR_stochastic_forecast_continues_witness :
  let x0 := seed 100000 (unit_host "I0" []) (unit_host "E0" []) in
    exists beta x_hist x_f y z det_rate hosp_rate tr_hist walk beta_f my sy
           y_f zsites,
      SEIR_stochastic 10%nat 100000 5%nat 4 2 3
        1 5 5 0.3 50
        0.15 0.1 (Some 0.05) (Some (Vec [Fin 1; NaN; Fin 3])) true 0.15
        30 0.3 (Some (Vec [Fin 0; Fin 1])) top_context unit_host []
      = Some ((Vec beta, Vec (x_hist ++ x_f), y, z, Scal det_rate, hosp_rate),
              tr_hist
              ++ [sample_site "beta_future" walk (Vec beta_f) false (Scal true);
                  deterministic_site "x_future" (VState (Vec x_f));
                  mean_site "y_future" my;
                  link_site "y_future" my sy y_f None] ++ zsites) /\
      length x_hist = 10%nat /\
      ExponentialRandomWalk (Scal (last beta 0)) (Scal 0.1)
        (Scal (stochastic_drift (Some 0.05) unit_host)) 5%nat = Some walk /\
      length beta_f = 5%nat /\
      x_f = tl (run (5%nat + 1) (last x_hist x0)
                    (beta_f, unit_host "sigma" [], unit_host "gamma" [])) /\
      link_mean (Vec (map comp_C x_f)) (Scal det_rate) = Some my /\
      s_is_observed (link_site "y_future" my sy y_f None) = false /\
      s_mask (link_site "y_future" my sy y_f None) = Scal true /\
      Forall (fun s => s_is_observed s = false /\ s_mask s = Scal true) zsites.
Proof.
  apply (SEIR_stochastic_forecast_continues 10%nat 100000 5%nat 4 2 3 1 5 5
           0.3 50 0.15 0.1 (Some 0.05) (Some (Vec [Fin 1; NaN; Fin 3])) true
           0.15 30 0.3 (Some (Vec [Fin 0; Fin 1])) unit_host).
  - lia.
  - exact I.
  - intros _. exact I.
  - lia.
Defined.

Lemma SEIR_stochastic_returns_observations_witness :
  exists beta x y_f z det_rate hosp_rate tr,
      SEIR_stochastic 10%nat 100000 5%nat 4 2 3
        1 5 5 0.3 50
        0.15 0.1 (Some 0.05) (Some (Vec [Fin 1; NaN; Fin 3])) true
        0.15 30 0.3 (Some (Vec [Fin 0; Fin 1])) top_context unit_host []
      = Some ((beta, x,
               Vec (map (fun e => finite_or_zero e + 0.5) [Fin 1; NaN; Fin 3] ++ y_f),
               z, det_rate, hosp_rate), tr) /\
      length y_f = 5%nat.
Proof.
  apply (SEIR_stochastic_returns_observations 10%nat 100000 5%nat 4 2 3 1 5
           5 0.3 50 0.15 0.1 (Some 0.05) [Fin 1; NaN; Fin 3] true 0.15 30
           0.3 (Some (Vec [Fin 0; Fin 1])) unit_host).
  - lia.
  - discriminate.
  - intros _. exact I.
Defined.

Lemma SEIR_stochastic_hospitalisations_witness :
  exists beta x y z tr my sy y1 obs1 mz sz z1 hosp0 hosp1,
      SEIR_stochastic 10%nat 100000 5%nat 4 2 3
        1 5 5 0.3 50
        0.15 0.1 (Some 0.05) (Some (Vec [Fin 1; NaN; Fin 3])) true 0.15
        30 0.3 (Some (Vec [Fin 0; Fin 1])) top_context unit_host []
      = Some ((beta, x, y, z, Scal (unit_host "det_rate" []),
               Scal (unit_host "det_rate" [] * unit_host "hosp_rate" [])), tr) /\
      prior_site tr "hosp_rate"
        (Beta (Scal (0.15 * 30))
              (Scal ((1 - 0.15) * 30))) /\
      In (mean_site "y" my) tr /\ In (link_site "y" my sy y1 obs1) tr /\
      In (mean_site "z" mz) tr /\
      In (mkSite "z" SampleSite (Some (Normal mz sz)) (VReal z1)
                 (is_some hosp1) (Scal true)) tr /\
      split_of (Some (Vec [Fin 0; Fin 1])) hosp0 hosp1 /\
      (forall o, hosp1 = Some o -> z1 = cleaned o) /\
      link_scale (Scal 0.3) mz = Some sz /\
      mz = amap (fun m => unit_host "hosp_rate" [] * (m - 0.5) + 0.5) my.
Proof.
  apply (SEIR_stochastic_hospitalisations 10%nat 100000 5%nat 4 2 3 1 5 5
           0.3 50 0.15 0.1 (Some 0.05) (Some (Vec [Fin 1; NaN; Fin 3])) 0.15
           30 0.3 (Some (Vec [Fin 0; Fin 1])) unit_host).
  - lia.
  - exact I.
  - exact I.
  - unfold unit_host; lra.
  - unfold unit_host; lra.
Defined.

Lemma SEIR_stochastic_prior_means_witness :
  exists out tr d_sigma d_gamma d_beta0 d_det_rate,
      SEIR_stochastic 10%nat 100000 5%nat 4 2 3
        1 5 5 0.3 50
        0.15 0.1 (Some 0.05) (Some (Vec [Fin 1; NaN; Fin 3])) true 0.15
        30 0.3 (Some (Vec [Fin 0; Fin 1])) top_context unit_host [] = Some (out, tr)
      /\ prior_site tr "sigma" d_sigma
      /\ Gamma_mean d_sigma = Some (Scal (1 / 4))
      /\ Gamma_variance d_sigma
         = Some (Scal ((1 / 4) ^ 2 / 5))
      /\ prior_site tr "gamma" d_gamma
      /\ Gamma_mean d_gamma = Some (Scal (1 / 2))
      /\ Gamma_variance d_gamma
         = Some (Scal ((1 / 2) ^ 2 / 5))
      /\ prior_site tr "beta0" d_beta0
      /\ Gamma_mean d_beta0 = Some (Scal (3 / 2))
      /\ Gamma_variance d_beta0
         = Some (Scal ((3 / 2) ^ 2 / 1))
      /\ prior_site tr "det_rate" d_det_rate
      /\ Beta_mean d_det_rate = Some (Scal 0.3).
Proof.
  apply (SEIR_stochastic_prior_means 10%nat 100000 5%nat 4 2 3 1 5 5 0.3 50
           0.15 0.1 (Some 0.05) (Some (Vec [Fin 1; NaN; Fin 3])) true 0.15
           30 0.3 (Some (Vec [Fin 0; Fin 1])) unit_host).
  - lia.
  - exact I.
  - intros _. exact I.
  - lra.
  - lra.
  - lra.
  - lra.
  - lra.
  - lra.
  - lra.
Defined.

Lemma SEIR_stochastic_rates_witness :
  let drift := stochastic_drift (Some 0.05) unit_host in
    let beta := walk_path (unit_host "beta0" []) drift 0.1
                  (map (fun i => unit_host "beta" [i]) (seq 0 (10%nat - 1))) in
    let beta_f := walk_path (last beta 0) drift 0.1
                    (map (fun i => unit_host "beta_future" [i]) (seq 0 5%nat)) in
    exists x y z det_rate hosp_rate tr,
      SEIR_stochastic 10%nat 100000 5%nat 4 2 3
        1 5 5 0.3 50
        0.15 0.1 (Some 0.05) (Some (Vec [Fin 1; NaN; Fin 3])) true 0.15
        30 0.3 (Some (Vec [Fin 0; Fin 1])) top_context unit_host []
      = Some ((Vec beta, x, y, z, det_rate, hosp_rate), tr) /\
      all_entries (fun b => 0 < b) (Vec beta) /\
      ((0 < 5%nat)%nat ->
       (exists s, In s tr /\ s_name s = "beta_future" /\
                  s_value s = VReal (Vec beta_f)) /\
       all_entries (fun b => 0 < b) (Vec beta_f)).
Proof.
  apply (SEIR_stochastic_rates 10%nat 100000 5%nat 4 2 3 1 5 5 0.3 50 0.15
           0.1 (Some 0.05) (Some (Vec [Fin 1; NaN; Fin 3])) true 0.15 30 0.3
           (Some (Vec [Fin 0; Fin 1])) unit_host).
  - lia.
  - exact I.
  - intros _. exact I.
  - unfold unit_host; lra.
Defined.

Lemma SEIR_hierarchical_places_witness :
  let R0 := place_draws unit_host "R0" 2%nat in
    let E_duration := place_draws unit_host "E_duration" 2%nat in
    let I_duration := place_draws unit_host "I_duration" 2%nat in
    let det_rate := place_draws unit_host "det_rate" 2%nat in
    exists Ns x0 walk beta x1 x y tr,
      SEIR_hierarchical 2%nat 10%nat (Scal 100000) 5%nat 4.5 3 4.5
        0.3 50 0.1 0.2 two_places
        None None top_context unit_host []
      = Some ((Mat beta, Mat x, Mat y, Vec det_rate), tr) /\
      broadcast_to (Scal 100000) [2%nat] = Some (Vec Ns) /\
      x0 = zip3 seed Ns (place_draws unit_host "I0" 2%nat) (place_draws unit_host "E0" 2%nat) /\
      In (deterministic_site "x0" (VState (Vec x0))) tr /\
      ExponentialRandomWalk
        (Mat (map (fun b => [b])
                  (zip_with (fun r i => r * (1 / i)) R0 I_duration)))
        (Scal 0.1) (Scal 0) (10%nat - 1) = Some walk /\
      In (sample_site "beta" walk (Mat beta) false (Scal true)) tr /\
      x1 = zip4 (fun s0 b e i => tl (run 10%nat s0 (b, 1 / e, 1 / i)))
                x0 beta E_duration I_duration /\
      In (deterministic_site "x" (VState (Mat x1))) tr /\
      map (firstn 10%nat) x = zip_with cons x0 x1 /\
      In (mean_site "y"
            (Mat (zip_with (fun r row => map (fun s => r * comp_C s + 0.5) row)
                           det_rate x1))) tr.
Proof.
  apply (SEIR_hierarchical_places 2%nat 10%nat (Scal 100000) 5%nat 4.5 3 4.5
           0.3 50 0.1 0.2 two_places None None unit_host).
  - lia.
  - split; [reflexivity|repeat constructor].
  - exact I.
  - exact I.
  - intros i. unfold unit_host. lra.
Defined.

Lemma SEIR_hierarchical_site_names_witness :
  exists out tr,
      SEIR_hierarchical 2%nat 10%nat (Scal 100000) 5%nat 4.5 3 4.5
        0.3 50 0.1 0.2 two_places
        None None top_context unit_host [] = Some (out, tr) /\
      map s_name tr = hierarchical_site_names (Nat.ltb 0 5%nat) /\
      NoDup (map s_name tr).
Proof.
  apply (SEIR_hierarchical_site_names 2%nat 10%nat (Scal 100000) 5%nat 4.5 3
           4.5 0.3 50 0.1 0.2 two_places None None unit_host).
  - lia.
  - split; [reflexivity|repeat constructor].
  - exact I.
  - exact I.
Defined.

Lemma SEIR_hierarchical_forecast_appends_witness :
  exists beta x y det_rate tr x_f y_f ext,
      SEIR_hierarchical 2%nat 10%nat (Scal 100000) 0 4.5 3 4.5
        0.3 50 0.1 0.2 two_places
        None None top_context unit_host []
      = Some ((beta, Mat x, Mat y, det_rate), tr) /\
      SEIR_hierarchical 2%nat 10%nat (Scal 100000) 5%nat 4.5 3 4.5
        0.3 50 0.1 0.2 two_places
        None None top_context unit_host []
      = Some ((beta, Mat (zip_with (fun r s => r ++ s) x x_f),
               Mat (zip_with (fun r s => r ++ s) y y_f), det_rate),
              tr ++ ext) /\
      length x_f = 2%nat /\ Forall (fun r => length r = 5%nat) x_f /\
      length y_f = 2%nat /\ Forall (fun r => length r = 5%nat) y_f /\
      map s_name ext
      = ["beta_future"; "x_future"; "mean_y_future"; "y_future"].
Proof.
  apply (SEIR_hierarchical_forecast_appends 2%nat 10%nat (Scal 100000) 5%nat
           4.5 3 4.5 0.3 50 0.1 0.2 two_places None None unit_host).
  - lia.
  - split; [reflexivity|repeat constructor].
  - exact I.
  - exact I.
  - lia.
Defined.

Lemma SEIR_hierarchical_drift_fixed_witness :
  (forall drift_scale',
       SEIR_hierarchical 2%nat 10%nat (Scal 100000) 5%nat 4.5 3 4.5
         0.3 50 0.1 0.2 two_places
         drift_scale' None
       = SEIR_hierarchical 2%nat 10%nat (Scal 100000) 5%nat 4.5 3 4.5
           0.3 50 0.1 0.2 two_places
           (Some 1) None) /\
    exists beta x y det_rate tr walk,
      SEIR_hierarchical 2%nat 10%nat (Scal 100000) 5%nat 4.5 3 4.5
        0.3 50 0.1 0.2 two_places
        (Some 1) None top_context unit_host []
      = Some ((Mat beta, x, y, det_rate), tr) /\
      ExponentialRandomWalk
        (Mat (map (fun b => [b])
                  (zip_with (fun r i => r * (1 / i))
                            (place_draws unit_host "R0" 2%nat)
                            (place_draws unit_host "I_duration" 2%nat))))
        (Scal 0.1) (Scal 0) (10%nat - 1) = Some walk /\
      In (sample_site "beta" walk (Mat beta) false (Scal true)) tr /\
      ((0 < 5%nat)%nat ->
       exists beta_last walk_f beta_f,
         col_last (Mat beta) = Some (Vec beta_last) /\
         ExponentialRandomWalk (Mat (map (fun b => [b]) beta_last))
           (Scal 0.1) (Scal 0) 5%nat = Some walk_f /\
         In (sample_site "beta_future" walk_f beta_f false (Scal true)) tr).
Proof.
  apply (SEIR_hierarchical_drift_fixed 2%nat 10%nat (Scal 100000) 5%nat 4.5
           3 4.5 0.3 50 0.1 0.2 two_places (Some 1) None unit_host).
  - lia.
  - split; [reflexivity|repeat constructor].
  - exact I.
  - exact I.
Defined.

Lemma hierarchical_means_monotone_witness :
  let X := values two_covariates in
    (exists out tr,
       SEIR_hierarchical 2%nat 10%nat (Scal 100000) 0%nat 4.5 3 4.5
         0.3 50 0.1 0.2 two_covariates
         None None top_context level_host [] = Some (out, tr) /\
       hierarchical_prior_means level_host 4.5 4.5 3
         0.3 two_covariates tr) /\
    (exists out tr,
       SEIR_hierarchical 2%nat 10%nat (Scal 100000) 0%nat 4.5 3 4.5
         0.3 50 0.1 0.2 two_covariates
         None None top_context raised_host [] = Some (out, tr) /\
       hierarchical_prior_means raised_host 4.5 4.5 3
         0.3 two_covariates tr) /\
    (forall est i row,
       nth_error X i = Some row -> 0 < nth 0%nat row 0 ->
       exists m m' q q',
         nth_error (place_means ln exp level_host est "R0" two_covariates) i
         = Some m /\
         nth_error (place_means ln exp raised_host est "R0" two_covariates) i
         = Some m' /\
         m < m' /\
         nth_error (place_means logit expit level_host est "R0" two_covariates) i
         = Some q /\
         nth_error (place_means logit expit raised_host est "R0" two_covariates) i
         = Some q' /\
         q < q') /\
    (forall est,
       level_host ("bias_" ++ "R0")%string [] = 0 ->
       Forall (fun row =>
                 dot_row row (coefficients level_host ("theta_" ++ "R0")%string
                                           (df_columns two_covariates)) = 0)
              X ->
       (0 < est ->
        place_means ln exp level_host est "R0" two_covariates
        = map (fun _ => est) X) /\
       (0 < est < 1 ->
        place_means logit expit level_host est "R0" two_covariates
        = map (fun _ => est) X)).
Proof.
  apply (hierarchical_means_monotone 2%nat 10%nat (Scal 100000) 0%nat 4.5 3
           4.5 0.3 50 0.1 0.2 two_covariates None None level_host
           raised_host "R0" 0%nat).
  - lia.
  - split; [reflexivity|repeat constructor].
  - exact I.
  - exact I.
  - lra.
  - simpl; auto.
  - simpl; lia.
  - unfold level_host, raised_host; simpl; lra.
  - intros [|k] Hk; [congruence|reflexivity].
  - reflexivity.
Defined.

(** ** The plotting functions *)

Lemma rbind_raises {A B} (c : result A) (k : A -> result B) :
  (forall a, c = inr a -> exists e, k a = inl e) ->
  exists e, rbind c k = inl e.
Proof. destruct c as [e|a]; simpl; eauto. Qed.

Lemma rbind_inr {A B} (c : result A) (k : A -> result B) a :
  c = inr a -> rbind c k = k a.
Proof. now intros ->. Qed.

Lemma lookup_absent {V} (d : list (string * V)) k :
  ~ In k (map fst d) -> lookup d k = inl (KeyError k).
Proof.
  induction d as [|[k' v] d IH]; simpl; intros Hk; [reflexivity|].
  destruct (String.eqb_spec k' k) as [->|_]; [tauto|].
  apply IH. tauto.
Qed.

(** The comprehension over the fields to plot raises once a key is missing
    from the labels or from the fields. *)
Lemma relabel_raises {V} (lbls : list (string * string))
  (fields : list (string * V)) plot_fields k acc :
  In k plot_fields ->
  (exists e, lookup lbls k = inl e) \/ (exists e, lookup fields k = inl e) ->
  exists e,
    fold_left (fun acc k =>
                 acc <~ acc ;;
                 label <~ lookup lbls k ;;
                 field <~ lookup fields k ;;
                 inr (setitem acc label field))
              plot_fields acc = inl e.
Proof.
  intros Hin Hk.
  assert (Hinl : forall l e,
            fold_left (fun acc k =>
                         acc <~ acc ;;
                         label <~ lookup lbls k ;;
                         field <~ lookup fields k ;;
                         inr (setitem acc label field))
                      l (inl e) = inl e).
  { induction l as [|a l IH]; intros e; simpl; auto. }
  revert acc. induction plot_fields as [|a l IH]; intros acc;
    [contradiction|].
  destruct Hin as [->|Hin]; [|now apply IH].
  cbn [fold_left]. destruct acc as [e|acc]; cbn [rbind]; [eauto|].
  destruct Hk as [[e ->]|[e Hf]]; cbn [rbind]; [eauto|].
  destruct (lookup lbls k); cbn [rbind]; [eauto|].
  rewrite Hf. cbn [rbind]. eauto.
Qed.

(** What the loop over the observed series leaves in the fields. *)
Lemma observed_field_inv float32 samples T obs_name fields fields' :
  observed_field float32 samples T obs_name fields = inr fields' ->
  (member samples obs_name = false /\ fields' = fields) \/
  (member samples obs_name = true /\
   exists v, fields' = setitem fields obs_name v).
Proof.
  unfold observed_field. destruct (member samples obs_name).
  - intros E. right. split; [reflexivity|].
    repeat match type of E with
           | rbind ?c _ = inr _ =>
               destruct c; cbn [rbind] in E; [discriminate|]
           end.
    injection E as <-. eauto.
  - intros [= <-]. now left.
Qed.

(** X19. [plot_samples] plots only the six fields it has a label for: with
    any other key among [plot_fields], for instance "E" for the exposed
    compartment, the call raises, whatever the samples, [T] and the
    model. *)
Theorem plot_samples_unknown_field float32 samples plot_fields T model k :
  In k plot_fields -> ~ In k ["S"; "I"; "R"; "C"; "y"; "z"] ->
  exists e,
    plot_samples_fields float32 samples plot_fields T model = inl e.
Proof.
  intros Hin Hk. unfold plot_samples_fields.
  repeat first [ apply rbind_raises; intros ? _
               | match goal with
                 | |- context [let '(_, _) := ?a in _] => destruct a
                 end ].
  apply relabel_raises with (k := k); [exact Hin|].
  left. exists (KeyError k). now apply lookup_absent.
Qed.

Lemma plot_samples_unknown_field_witness :
  exists e,
    plot_samples_fields (fun v => v)
      (fun k =>
         if String.eqb k "x0" then Some (SRows (Vec [[9; 0; 1; 0; 1]]))
         else if String.eqb k "x"
              then Some (SRows (Mat [[[8; 0; 2; 0; 2]; [7; 0; 3; 0; 3]]]))
         else if String.eqb k "y0" then Some (SReal (Vec [1]))
         else if String.eqb k "y" then Some (SReal (Mat [[2; 3]]))
         else None)
      ["I"; "E"] None "SEIR"
    = inl e.
Proof.
  apply (plot_samples_unknown_field (fun v => v)
           (fun k =>
            if String.eqb k "x0" then Some (SRows (Vec [[9; 0; 1; 0; 1]]))
            else if String.eqb k "x"
                 then Some (SRows (Mat [[[8; 0; 2; 0; 2]; [7; 0; 3; 0; 3]]]))
            else if String.eqb k "y0" then Some (SReal (Vec [1]))
            else if String.eqb k "y" then Some (SReal (Mat [[2; 3]]))
            else None)
           ["I"; "E"] None "SEIR" "E").
  - simpl. auto.
  - simpl. intros [H|[H|[H|[H|[H|[H|[]]]]]]]; discriminate H.
Defined.

(** With these samples the call gets as far as the labels: the samples and
    the field "I" are in order and the key "E" is the one that fails. *)
Example plot_samples_exposed :
  plot_samples_fields (fun v => v)
    (fun k =>
       if String.eqb k "x0" then Some (SRows (Vec [[9; 0; 1; 0; 1]]))
       else if String.eqb k "x"
            then Some (SRows (Mat [[[8; 0; 2; 0; 2]; [7; 0; 3; 0; 3]]]))
       else if String.eqb k "y0" then Some (SReal (Vec [1]))
       else if String.eqb k "y" then Some (SReal (Mat [[2; 3]]))
       else None)
    ["I"; "E"] None "SEIR"
  = inl (KeyError "E").
Proof. reflexivity. Qed.

(** X20. An observed series that the samples do not hold cannot be plotted:
    with "y" or "z" among [plot_fields] and no such key in the samples, the
    call raises.  So the hospitalisations "z" cannot be asked of the samples
    of a model without them. *)
Theorem plot_samples_missing_series float32 samples plot_fields T model k :
  In k plot_fields -> k = "y" \/ k = "z" -> samples k = None ->
  exists e,
    plot_samples_fields float32 samples plot_fields T model = inl e.
Proof.
  intros Hin Hk Hnone. unfold plot_samples_fields.
  do 5 (apply rbind_raises; intros ? _).
  apply rbind_raises; intros [[[S_ I_] R_] C_] _.
  do 4 (apply rbind_raises; intros ? _).
  apply rbind_raises; intros f1 E1.
  apply rbind_raises; intros f2 E2.
  apply relabel_raises with (k := k); [exact Hin|].
  right. exists (KeyError k).
  apply observed_field_inv in E1. apply observed_field_inv in E2.
  assert (Hm : member samples k = false)
    by (unfold member; now rewrite Hnone).
  destruct Hk as [->| ->].
  - destruct E1 as [[_ ->]|[E1 _]]; [|congruence].
    destruct E2 as [[_ ->]|[_ [v ->]]]; reflexivity.
  - destruct E2 as [[_ ->]|[E2 _]]; [|congruence].
    destruct E1 as [[_ ->]|[_ [v ->]]]; reflexivity.
Qed.

Lemma plot_samples_missing_series_witness :
  exists e,
    plot_samples_fields (fun v => v)
      (fun k =>
         if String.eqb k "x0" then Some (SRows (Vec [[9; 0; 1; 0; 1]]))
         else if String.eqb k "x"
              then Some (SRows (Mat [[[8; 0; 2; 0; 2]; [7; 0; 3; 0; 3]]]))
         else if String.eqb k "y0" then Some (SReal (Vec [1]))
         else if String.eqb k "y" then Some (SReal (Mat [[2; 3]]))
         else None)
      ["I"; "z"] None "SEIR"
    = inl e.
Proof.
  apply (plot_samples_missing_series (fun v => v)
           (fun k =>
            if String.eqb k "x0" then Some (SRows (Vec [[9; 0; 1; 0; 1]]))
            else if String.eqb k "x"
                 then Some (SRows (Mat [[[8; 0; 2; 0; 2]; [7; 0; 3; 0; 3]]]))
            else if String.eqb k "y0" then Some (SReal (Vec [1]))
            else if String.eqb k "y" then Some (SReal (Mat [[2; 3]]))
            else None)
           ["I"; "z"] None "SEIR" "z").
  - simpl. auto.
  - right. reflexivity.
  - reflexivity.
Defined.

(** With these samples, which hold the confirmed cases and no
    hospitalisations, the call gets as far as the fields: the key "z" has a
    label and no field. *)
Example plot_samples_no_hospitalisations :
  plot_samples_fields (fun v => v)
    (fun k =>
       if String.eqb k "x0" then Some (SRows (Vec [[9; 0; 1; 0; 1]]))
       else if String.eqb k "x"
            then Some (SRows (Mat [[[8; 0; 2; 0; 2]; [7; 0; 3; 0; 3]]]))
       else if String.eqb k "y0" then Some (SReal (Vec [1]))
       else if String.eqb k "y" then Some (SReal (Mat [[2; 3]]))
       else None)
    ["I"; "z"] None "SEIR"
  = inl (KeyError "z").
Proof. reflexivity. Qed.

Lemma rsequence_map_inr {A B} (f : A -> B) (g : A -> result B) l :
  Forall (fun a => g a = inr (f a)) l ->
  rsequence (map g l) = inr (map f l).
Proof.
  induction 1 as [|a l Ha _ IH]; simpl; [reflexivity|].
  now rewrite Ha, IH.
Qed.

Lemma Forall_firstn {A} (P : A -> Prop) n l :
  Forall P l -> Forall P (firstn n l).
Proof.
  intros H. revert n. induction H as [|a l Ha _ IH]; intros [|n]; simpl;
    auto.
Qed.

(** Reading a compartment that every state has. *)
Lemma compartment_rows c T x :
  Forall (Forall (fun row => (c < length row)%nat)) x ->
  compartment c T x
  = inr (map (fun trajectory => map (fun row => nth c row 0)
                                   (firstn T trajectory)) x).
Proof.
  intros H. unfold compartment. apply rsequence_map_inr.
  eapply Forall_impl; [|exact H]. intros trajectory Ht. cbv beta.
  apply rsequence_map_inr. apply Forall_firstn.
  eapply Forall_impl; [|exact Ht]. intros row Hrow. cbv beta in Hrow |- *.
  replace (Nat.min c (length row - 1)) with c by lia.
  destruct (nth_error row c) as [v|] eqn:E.
  - now rewrite (nth_error_nth _ _ 0 E).
  - apply nth_error_None in E. lia.
Qed.

Lemma Forall_zip_with {A B C} (f : A -> B -> C) (P : A -> Prop)
  (Q : B -> Prop) (U : C -> Prop) la lb :
  (forall a b, P a -> Q b -> U (f a b)) ->
  Forall P la -> Forall Q lb -> Forall U (zip_with f la lb).
Proof.
  intros Hf Ha. revert lb. induction Ha as [|a la Pa _ IH];
    intros lb Hb; [constructor|].
  destruct Hb as [|b lb Qb Hb]; simpl; [constructor|].
  constructor; auto.
Qed.

(** The concatenations of [plot_samples] along the time axis. *)
Lemma concatenate_whole {A} (first : list A) data future :
  length first = length data ->
  (forall m, future = Some m -> length m = length data) ->
  (rows <~ concatenate1 (add_axis first) data ;;
   match future with
   | Some forecast => concatenate1 rows forecast
   | None => inr rows
   end) = inr (whole first data future).
Proof.
  intros L1 L2. unfold concatenate1, add_axis, whole.
  rewrite length_map, L1, Nat.eqb_refl. cbn [rbind].
  rewrite zip_with_map_l.
  rewrite (zip_with_ext_in _ (fun a row => a :: row)) by reflexivity.
  destruct future as [m|]; [|reflexivity].
  rewrite zip_with_length_min, L1, Nat.min_id, (L2 m eq_refl),
    Nat.eqb_refl.
  reflexivity.
Qed.

Lemma whole_rows {A} (P : A -> Prop) first data future :
  Forall P first -> Forall (Forall P) data ->
  (forall m, future = Some m -> Forall (Forall P) m) ->
  Forall (Forall P) (whole first data future).
Proof.
  intros H0 H1 H2. unfold whole.
  assert (H : Forall (Forall P)
                (zip_with (fun a row => a :: row) first data)).
  { eapply Forall_zip_with; [|exact H0|exact H1]. cbv beta. auto. }
  destruct future as [m|]; [|exact H].
  eapply Forall_zip_with; [|exact H|exact (H2 m eq_refl)].
  cbv beta. intros. now apply Forall_app.
Qed.

(** X21. What the default call plots from the samples of a model of five
    compartments with confirmed cases and no hospitalisations.  "infectious"
    is the third compartment and "total confirmed" the series "y", rounded
    to single precision; each is, draw by draw, the first value followed by
    the values of the period of the data and by those of the forecast, if
    any; both are cut at [T], or at the length of the trajectories when [T]
    is absent or larger. *)
Theorem plot_samples_default float32 samples T x0 x x_future y0 y y_future :
  samples "x0" = Some (SRows (Vec x0)) ->
  samples "x" = Some (SRows (Mat x)) ->
  samples "x_future" = option_map (fun m => SRows (Mat m)) x_future ->
  samples "y0" = Some (SReal (Vec y0)) ->
  samples "y" = Some (SReal (Mat y)) ->
  samples "y_future" = option_map (fun m => SReal (Mat m)) y_future ->
  samples "z" = None ->
  length x0 = length x ->
  (forall m, x_future = Some m -> length m = length x) ->
  length y0 = length y ->
  (forall m, y_future = Some m -> length m = length y) ->
  Forall (fun row => length row = 5%nat) x0 ->
  Forall (Forall (fun row => length row = 5%nat)) x ->
  (forall m, x_future = Some m ->
             Forall (Forall (fun row => length row = 5%nat)) m) ->
  let T_data := (length (hd [] x) + 1
                 + match x_future with
                   | Some m => length (hd [] m)
                   | None => 0
                   end)%nat in
  let T' := match T with Some t => Nat.min t T_data | None => T_data end in
  plot_samples_fields float32 samples ["I"; "y"] T "SEIR"
  = inr [("infectious",
          map (fun trajectory => map (fun row => nth 2 row 0)
                                     (firstn T' trajectory))
              (whole x0 x x_future));
         ("total confirmed",
          map (fun row => map float32 (firstn T' row))
              (whole y0 y y_future))].
Proof.
  intros Hx0 Hx Hxf Hy0 Hy Hyf Hz Lx Lxf Ly Lyf R0 R1 R2 T_data T'.
  assert (Hrows : Forall (Forall (fun row : list R => length row = 5%nat))
                    (whole x0 x x_future))
    by now apply whole_rows.
  assert (Hc : forall c, (c < 5)%nat ->
            Forall (Forall (fun row : list R => (c < length row)%nat))
              (whole x0 x x_future)).
  { intros c Hc. eapply Forall_impl; [|exact Hrows]. intros t Ht.
    eapply Forall_impl; [|exact Ht]. cbv beta. intros row ->. exact Hc. }
  unfold plot_samples_fields, getitem, member.
  rewrite Hx, Hx0, Hxf. cbn [rbind trajectories states].
  (* the horizon *)
  assert (ET : forall k : nat -> result (list (string * list (list R))),
            (T_data0 <~ (if is_some (option_map (fun m => SRows (Mat m))
                                       x_future)
                         then x_future0 <~
                                rbind (match option_map
                                               (fun m => SRows (Mat m))
                                               x_future with
                                       | Some v => inr v
                                       | None => inl (KeyError "x_future")
                                       end) trajectories ;;
                              inr (length (hd [] x) + 1
                                   + length (hd [] x_future0))%nat
                         else inr (length (hd [] x) + 1)%nat) ;;
             k T_data0) = k T_data).
  { intros k. subst T_data. destruct x_future as [m|]; cbn; f_equal; lia. }
  rewrite ET. clear ET.
  assert (ET' : match T with
                | Some T0 => if Nat.ltb T_data T0 then T_data else T0
                | None => T_data
                end = T').
  { subst T'. destruct T as [t|]; [|reflexivity].
    destruct (Nat.ltb_spec T_data t); lia. }
  rewrite ET'. clear ET'.
  (* the trajectories *)
  assert (EX : forall k : list (list (list R))
                          -> result (list (string * list (list R))),
            (x1 <~ concatenate1 (add_axis x0) x ;;
             x2 <~ (if is_some (option_map (fun m => SRows (Mat m))
                                  x_future)
                    then x_future0 <~
                           rbind (match option_map
                                          (fun m => SRows (Mat m))
                                          x_future with
                                  | Some v => inr v
                                  | None => inl (KeyError "x_future")
                                  end) trajectories ;;
                         concatenate1 x1 x_future0
                    else inr x1) ;;
             k x2) = k (whole x0 x x_future)).
  { intros k.
    pose proof (concatenate_whole x0 x x_future Lx Lxf) as E.
    destruct (concatenate1 (add_axis x0) x) as [e|x1]; cbn [rbind] in *;
      [discriminate|].
    destruct x_future as [m|]; cbn [option_map is_some rbind trajectories].
    - now rewrite E.
    - now injection E as ->. }
  rewrite EX. clear EX.
  cbn [String.eqb Ascii.eqb Bool.eqb rbind].
  rewrite !compartment_rows by (apply Hc; lia). cbn [rbind].
  (* the observed series *)
  unfold observed_field, getitem, member.
  cbn [String.append]. rewrite Hy, Hy0, Hyf, Hz. cbn [is_some rbind numbers series].
  pose proof (concatenate_whole y0 y y_future Ly Lyf) as E.
  destruct (concatenate1 (add_axis y0) y) as [e|y1]; cbn [rbind] in *;
    [discriminate|].
  destruct y_future as [m|]; cbn [option_map is_some rbind series].
  - now rewrite E.
  - now injection E as ->.
Qed.

Lemma plot_samples_default_witness :
  plot_samples_fields (fun v => v)
    (fun k =>
       if String.eqb k "x0" then Some (SRows (Vec [[9; 0; 1; 0; 1]]))
       else if String.eqb k "x"
            then Some (SRows (Mat [[[8; 0; 2; 0; 2]; [7; 0; 3; 0; 3]]]))
       else if String.eqb k "y0" then Some (SReal (Vec [1]))
       else if String.eqb k "y" then Some (SReal (Mat [[2; 3]]))
       else None)
    ["I"; "y"] (Some 2%nat) "SEIR"
  = inr [("infectious", [[1; 2]]); ("total confirmed", [[1; 2]])].
Proof.
  apply (plot_samples_default (fun v => v)
           (fun k =>
              if String.eqb k "x0" then Some (SRows (Vec [[9; 0; 1; 0; 1]]))
              else if String.eqb k "x"
                   then Some (SRows (Mat [[[8; 0; 2; 0; 2];
                                           [7; 0; 3; 0; 3]]]))
              else if String.eqb k "y0" then Some (SReal (Vec [1]))
              else if String.eqb k "y" then Some (SReal (Mat [[2; 3]]))
              else None)
           (Some 2%nat) [[9; 0; 1; 0; 1]]
           [[[8; 0; 2; 0; 2]; [7; 0; 3; 0; 3]]] None [1] [[2; 3]] None).
  - reflexivity.
  - reflexivity.
  - reflexivity.
  - reflexivity.
  - reflexivity.
  - reflexivity.
  - reflexivity.
  - reflexivity.
  - intros m H. discriminate H.
  - reflexivity.
  - intros m H. discriminate H.
  - repeat constructor.
  - repeat constructor.
  - intros m H. discriminate H.
Defined.

(** X22. [plot_R0] plots, draw by draw, the transmission rates of the draw
    divided by the gamma of the same draw: for samples with one gamma
    (different from zero) and one series of rates per draw, entry [t] of
    row [i] is [beta i t / gamma i]. *)
Theorem plot_R0_values_per_draw mcmc_samples gamma beta :
  mcmc_samples "gamma" = Some (SReal (Vec gamma)) ->
  mcmc_samples "beta" = Some (SReal (Mat beta)) ->
  length gamma = length beta ->
  Forall (fun g => g <> 0) gamma ->
  plot_R0_values mcmc_samples
  = inr (zip_with (fun row g => map (fun b => b / g) row) beta gamma).
Proof.
  intros Hg Hb Hlen _. unfold plot_R0_values, getitem.
  rewrite Hg, Hb. cbn [rbind numbers series]. unfold div, add_axis.
  now rewrite map2_mat_col by auto.
Qed.

Lemma plot_R0_values_per_draw_witness :
  plot_R0_values
    (fun k => if String.eqb k "gamma" then Some (SReal (Vec [2; 4]))
              else if String.eqb k "beta"
                   then Some (SReal (Mat [[1; 3]; [2; 6]]))
                   else None)
  = inr [[1 / 2; 3 / 2]; [2 / 4; 6 / 4]].
Proof.
  apply (plot_R0_values_per_draw
           (fun k => if String.eqb k "gamma" then Some (SReal (Vec [2; 4]))
                     else if String.eqb k "beta"
                          then Some (SReal (Mat [[1; 3]; [2; 6]]))
                          else None)
           [2; 4] [[1; 3]; [2; 6]]).
  - reflexivity.
  - reflexivity.
  - reflexivity.
  - repeat constructor; lra.
Defined.
